(** * OpenGenerator core: merge engine, schema relations and orchestrator

    A shallow embedding of the generation engine of OpenGenerator
    (packages/core/src/types/generator.ts, packages/core/src/generator.ts and
    the relation extraction of the Prisma parser), with the properties the
    specification states about them.

    Conventions of the embedding.
    - A JavaScript string is a [string]; characters are single code units
      below 256.
    - An optional property ([dev?: boolean]) is an [option]; [None] is
      [undefined].
    - A function that may throw returns a [Res]: [Ok v] or [Throw message].
    - A [Map<string, V>] is an insertion-ordered association list ([JsMap]):
      [Array.from(map.values())] lists the values in the order their keys
      were first inserted, and [set] on a present key keeps its position.
    - [async]/[await] is sequential here: every call is awaited before the
      next statement runs, so a promise is the result it settles to.
    - A version component is the Number [parseInt] makes of its digits,
      rounded as a double is; such a Number is an integer or an infinity
      and is written as a [Z] (see [SemVer] and [toNumber]). A priority is
      an integer ([Z]). *)

From Stdlib Require Import String Ascii List ZArith Bool Lia Permutation Sorted.
Import ListNotations.
Open Scope string_scope.
Open Scope list_scope.
Open Scope Z_scope.

Set Implicit Arguments.

(* ------------------------------------------------------------------ *)
(** ** Results of computations that may throw *)

Inductive Res (A : Type) : Type :=
| Ok (value : A)
| Throw (message : string).
Arguments Ok {A} value.
Arguments Throw {A} message.

(* ------------------------------------------------------------------ *)
(** ** Strings *)

(** [haystack.includes(needle)] *)
Fixpoint includes (needle haystack : string) : bool :=
  match haystack with
  | EmptyString => String.prefix needle EmptyString
  | String _ rest => String.prefix needle haystack || includes needle rest
  end.

(** [s.startsWith(p)] *)
Definition startsWith (p s : string) : bool := String.prefix p s.

(* ------------------------------------------------------------------ *)
(** ** Insertion-ordered maps with string keys (JavaScript [Map]) *)

Module JsMap.
Section WithValues.
Variable V : Type.

Definition t := list (string * V).

Definition empty : t := [].

Fixpoint get (k : string) (m : t) : option V :=
  match m with
  | [] => None
  | (k', v) :: m' => if String.eqb k' k then Some v else get k m'
  end.

(** [set] overwrites the value of a present key where it stands and
    appends an absent key at the end. *)
Fixpoint set (k : string) (v : V) (m : t) : t :=
  match m with
  | [] => [(k, v)]
  | (k', v') :: m' =>
      if String.eqb k' k then (k', v) :: m' else (k', v') :: set k v m'
  end.

Definition keys (m : t) : list string := map fst m.
Definition values (m : t) : list V := map snd m.
End WithValues.
End JsMap.

Arguments JsMap.empty {V}.
Arguments JsMap.get {V} k m.
Arguments JsMap.set {V} k v m.
Arguments JsMap.keys {V} m.
Arguments JsMap.values {V} m.

(* ------------------------------------------------------------------ *)
(** ** Generated code (types/generator.ts) *)

Inductive FileType : Type :=
| SourceFile | ConfigFile | TestFile | MigrationFile | SchemaFile | DocumentationFile.

Record GeneratedFile : Type := mkFile {
  path : string;
  content : string;
  fileType : option FileType;
  overwrite : option bool;
  encoding : option string;
  mode : option Z
}.

(** [{ path, content }] *)
Definition createFile (p c : string) : GeneratedFile :=
  mkFile p c None None None None.

Inductive DependencyType : Type :=
| Dependencies | DevDependencies | PeerDependencies.

Record Dependency : Type := mkDep {
  name : string;
  version : string;
  depType : option DependencyType;
  dev : option bool
}.

(** [Record<string, unknown>]: the values are opaque to the engine. *)
Definition Metadata := list (string * string).

Record GeneratedCode : Type := mkCode {
  files : list GeneratedFile;
  dependencies : list Dependency;
  metadata : option Metadata
}.

(** [{ files: [], dependencies: [] }] *)
Definition emptyCode : GeneratedCode := mkCode [] [] None.

Inductive FileStrategy : Type := LastWins | FirstWins | ErrorStrategy.

(** The [options] argument of [mergeGeneratedCode]; [{}] is [noOptions]. *)
Record MergeOptions : Type := mkMergeOptions {
  fileStrategy : option FileStrategy
}.
Definition noOptions : MergeOptions := mkMergeOptions None.
Definition withStrategy (s : FileStrategy) : MergeOptions := mkMergeOptions (Some s).

(** [`File conflict: ${file.path} is generated by multiple plugins`] *)
Definition fileConflict (p : string) : string :=
  ("File conflict: " ++ p ++ " is generated by multiple plugins")%string.

(** The [for (const file of allFiles)] loop of [mergeGeneratedCode] over
    the map [fileMap]. *)
Fixpoint mergeFiles (strategy : FileStrategy) (fileMap : JsMap.t GeneratedFile)
    (allFiles : list GeneratedFile) : Res (JsMap.t GeneratedFile) :=
  match allFiles with
  | [] => Ok fileMap
  | file :: rest =>
      match JsMap.get (path file) fileMap with
      | Some _existing =>
          match strategy with
          | ErrorStrategy => Throw (fileConflict (path file))
          | LastWins => mergeFiles strategy (JsMap.set (path file) file fileMap) rest
          | FirstWins => mergeFiles strategy fileMap rest
          end
      | None => mergeFiles strategy (JsMap.set (path file) file fileMap) rest
      end
  end.

(* ------------------------------------------------------------------ *)
(** ** Semantic versions *)

(** The components are JavaScript numbers that [parseInt(p) || 0] gave:
    integers a double can hold, or an infinity.  Such a number is written
    as the integer it is, [Infinity] as [2 ^ 1024] and [-Infinity] as
    [- 2 ^ 1024], so that [===] and [>] are [=?] and [>?]. *)
Record SemVer : Type := mkSemVer {
  major : Z;
  minor : Z;
  patch : Z;
  prerelease : option string
}.

(** The character class [[\^~>=<]] *)
Definition isRangeOperator (c : ascii) : bool :=
  existsb (Ascii.eqb c) ["^"; "~"; ">"; "="; "<"]%char.

(** [version.replace(/^[\^~>=<]+/, '')] *)
Fixpoint stripRangeOperators (s : string) : string :=
  match s with
  | String c rest => if isRangeOperator c then stripRangeOperators rest else s
  | EmptyString => EmptyString
  end.

(** [s.split(sep)] for a one-character separator: never empty. *)
Fixpoint split (sep : ascii) (s : string) : list string :=
  match s with
  | EmptyString => [EmptyString]
  | String c rest =>
      if Ascii.eqb c sep then EmptyString :: split sep rest
      else match split sep rest with
           | piece :: pieces => String c piece :: pieces
           | [] => [String c EmptyString]
           end
  end.

(** White space and line terminators that [parseInt] skips, among the
    code units below 256: tab, line feed, vertical tab, form feed, carriage
    return, space and the no-break space. *)
Definition isWhiteSpace (c : ascii) : bool :=
  existsb (Nat.eqb (nat_of_ascii c)) [9; 10; 11; 12; 13; 32; 160]%nat.

Fixpoint trimStart (s : string) : string :=
  match s with
  | String c rest => if isWhiteSpace c then trimStart rest else s
  | EmptyString => EmptyString
  end.

(** The value of a digit in radix up to 36; [None] for any other character. *)
Definition digitValue (c : ascii) : option Z :=
  let n := Z.of_nat (nat_of_ascii c) in
  if (48 <=? n) && (n <=? 57) then Some (n - 48)
  else if (97 <=? n) && (n <=? 122) then Some (n - 87)
  else if (65 <=? n) && (n <=? 90) then Some (n - 55)
  else None.

(** The longest prefix of radix-[radix] digits, read as a number; [acc] is
    [None] until a digit was read. *)
Fixpoint parseDigits (radix : Z) (acc : option Z) (s : string) : option Z :=
  match s with
  | String c rest =>
      match digitValue c with
      | Some d =>
          if d <? radix
          then parseDigits radix
                 (Some (match acc with Some n => n | None => 0 end * radix + d)) rest
          else acc
      | None => acc
      end
  | EmptyString => acc
  end.

(** The integer [parseInt(s)], with no radix argument, reads before it
    makes a Number of it: the sign times the digits; [None] where
    [parseInt] answers [NaN]. *)
Definition mathInt (s : string) : option Z :=
  let s1 := trimStart s in
  let '(sign, s2) :=
    match s1 with
    | String "-"%char rest => (-1, rest)
    | String "+"%char rest => (1, rest)
    | _ => (1, s1)
    end in
  let '(radix, s3) :=
    match s2 with
    | String "0"%char (String "x"%char rest) => (16, rest)
    | String "0"%char (String "X"%char rest) => (16, rest)
    | _ => (10, s2)
    end in
  match parseDigits radix None s3 with
  | Some n => Some (sign * n)
  | None => None
  end.

(** The Number for an integer: the integer itself while it has at most 53
    bits, else the nearest one with a 53-bit significand, a tie going to
    the even significand; from [2 ^ 1024] on it is [Infinity]. *)
Definition toNumber (n : Z) : Z :=
  let m := Z.abs n in
  if m <? 2 ^ 53 then n
  else
    let e := Z.log2 m - 52 in
    let q := Z.shiftr m e in
    let r := m - Z.shiftl q e in
    let half := 2 ^ (e - 1) in
    let significand := if (half <? r) || ((r =? half) && Z.odd q) then q + 1 else q in
    Z.sgn n * Z.min (Z.shiftl significand e) (2 ^ 1024).

(** [parseInt(s)] with no radix argument; [None] is [NaN]. *)
Definition parseInt (s : string) : option Z :=
  match mathInt s with
  | Some n => Some (toNumber n)
  | None => None
  end.

(** [parseInt(p) || 0] *)
Definition parseIntOrZero (p : string) : Z :=
  match parseInt p with Some n => n | None => 0 end.

(** Truthiness of a [string | undefined]. *)
Definition truthy (s : option string) : bool :=
  match s with
  | Some EmptyString => false
  | Some _ => true
  | None => false
  end.

Definition parseSemver (version : string) : SemVer :=
  let cleaned := stripRangeOperators version in
  let pieces := split "-" cleaned in
  let main := nth_error pieces 0 in
  let prerelease := nth_error pieces 1 in
  let parts :=
    map parseIntOrZero
        (split "." (match main with Some m => m | None => "0.0.0" end)) in
  mkSemVer (nth 0 parts 0) (nth 1 parts 0) (nth 2 parts 0) prerelease.

(** Returns [1] if [a > b], [-1] if [a < b], [0] if equal. *)
Definition compareSemver (a b : string) : Z :=
  let verA := parseSemver a in
  let verB := parseSemver b in
  if negb (major verA =? major verB) then (if major verA >? major verB then 1 else -1)
  else if negb (minor verA =? minor verB) then (if minor verA >? minor verB then 1 else -1)
  else if negb (patch verA =? patch verB) then (if patch verA >? patch verB then 1 else -1)
  else if truthy (prerelease verA) && negb (truthy (prerelease verB)) then -1
  else if negb (truthy (prerelease verA)) && truthy (prerelease verB) then 1
  else 0.

(** [x === false] for a [boolean | undefined]. *)
Definition isFalse (x : option bool) : bool :=
  match x with Some false => true | _ => false end.

(** [{ ...current, dev: false }] *)
Definition withDevFalse (current : Dependency) : Dependency :=
  mkDep (name current) (version current) (depType current) (Some false).

(** One turn of the [for (const dep of [...a, ...b])] loop of
    [mergeDependencies]. *)
Definition mergeDependency (merged : JsMap.t Dependency) (dep : Dependency)
    : JsMap.t Dependency :=
  match JsMap.get (name dep) merged with
  | Some existing =>
      let comparison := compareSemver (version dep) (version existing) in
      let merged1 :=
        if comparison >? 0 then JsMap.set (name dep) dep merged else merged in
      if isFalse (dev existing) || isFalse (dev dep) then
        match JsMap.get (name dep) merged1 with
        | Some current => JsMap.set (name dep) (withDevFalse current) merged1
        | None => merged1
        end
      else merged1
  | None => JsMap.set (name dep) dep merged
  end.

Definition mergeDependencies (a b : list Dependency) : list Dependency :=
  JsMap.values (fold_left mergeDependency (a ++ b) JsMap.empty).

(** [options.fileStrategy], ['last-wins'] when absent. *)
Definition strategyOf (options : MergeOptions) : FileStrategy :=
  match fileStrategy options with Some s => s | None => LastWins end.

Definition mergeGeneratedCode (a b : GeneratedCode) (options : MergeOptions)
    : Res GeneratedCode :=
  match mergeFiles (strategyOf options) JsMap.empty (files a ++ files b) with
  | Throw message => Throw message
  | Ok fileMap =>
      Ok (mkCode (JsMap.values fileMap)
                 (mergeDependencies (dependencies a) (dependencies b))
                 None)
  end.

(* ------------------------------------------------------------------ *)
(** ** Schema IR (types/schema.ts) *)

Inductive ScalarType : Type :=
| TString | TNumber | TInteger | TBoolean | TDate | TDatetime | TTime
| TJson | TBigint | TDecimal | TFloat | TBytes | TUuid.

Inductive RelationType : Type := OneToOne | OneToMany | ManyToOne | ManyToMany.

Module FieldRelation.
Record t : Type := make {
  type : RelationType;
  model : string;
  field : string;
  foreignKey : option string;
  name : option string
}.
End FieldRelation.

(** [FieldType] and [Field] refer to each other: an object type holds
    nested fields. *)
Inductive FieldType : Type :=
| ScalarFieldType (type : ScalarType)
| EnumFieldType (enumName : string)
| ArrayFieldType (of_ : FieldType)
| ObjectFieldType (fields : list Field)
| ReferenceFieldType (model : string)
with Field : Type :=
| mkField (fieldName : string) (type : FieldType) (required : bool)
          (unique primaryKey : option bool)
          (relation : option FieldRelation.t)
          (columnName : option string).

Module FieldOf.
Definition name (f : Field) : string :=
  match f with mkField n _ _ _ _ _ _ => n end.
Definition type (f : Field) : FieldType :=
  match f with mkField _ ty _ _ _ _ _ => ty end.
Definition required (f : Field) : bool :=
  match f with mkField _ _ r _ _ _ _ => r end.
Definition relation (f : Field) : option FieldRelation.t :=
  match f with mkField _ _ _ _ _ r _ => r end.
End FieldOf.

Record CrudConfig : Type := mkCrud {
  create : bool;
  read : bool;
  update : bool;
  delete : bool;
  list_ : bool
}.

Module Model.
Record t : Type := make {
  name : string;
  fields : list Field;
  crud : CrudConfig
}.
End Model.

Module Endpoint.
Record t : Type := make {
  model : string;
  field : string
}.
End Endpoint.

Module Relation.
Record t : Type := make {
  name : string;
  type : RelationType;
  from : Endpoint.t;
  to : Endpoint.t
}.
End Relation.

Record EnumDef : Type := mkEnum {
  enumName : string;
  enumValues : list string
}.

Record SchemaIR : Type := mkSchema {
  schemaVersion : string;
  schemaName : string;
  schemaSource : string;
  models : list Model.t;
  enums : list EnumDef;
  relations : list Relation.t
}.

(** ** Relation extraction (parser-prisma) *)

(** [new Set(models.map((m) => m.name)).has(n)] *)
Definition hasModelName (models : list Model.t) (n : string) : bool :=
  existsb (String.eqb n) (map Model.name models).

(** The relation pushed for [field] of [model]:
    [field.relation.name ?? `${model.name}_${field.name}`] names it. *)
Definition relationOf (model : Model.t) (field : Field) (rel : FieldRelation.t)
    : Relation.t :=
  Relation.make
    (match FieldRelation.name rel with
     | Some n => n
     | None => (Model.name model ++ "_" ++ FieldOf.name field)%string
     end)
    (FieldRelation.type rel)
    (Endpoint.make (Model.name model) (FieldOf.name field))
    (Endpoint.make (FieldRelation.model rel) (FieldRelation.field rel)).

(** The inner loop over [model.fields], with [modelNames] those of
    [allModels]. *)
Fixpoint extractFieldRelations (allModels : list Model.t) (model : Model.t)
    (fields : list Field) : list Relation.t :=
  match fields with
  | [] => []
  | field :: rest =>
      match FieldOf.relation field with
      | Some rel =>
          if hasModelName allModels (FieldRelation.model rel)
          then relationOf model field rel :: extractFieldRelations allModels model rest
          else extractFieldRelations allModels model rest
      | None => extractFieldRelations allModels model rest
      end
  end.

(** The outer loop over the models still to visit. *)
Fixpoint extractModelRelations (allModels : list Model.t) (todo : list Model.t)
    : list Relation.t :=
  match todo with
  | [] => []
  | model :: rest =>
      extractFieldRelations allModels model (Model.fields model)
        ++ extractModelRelations allModels rest
  end.

Definition extractRelations (models : list Model.t) : list Relation.t :=
  extractModelRelations models models.

(* ------------------------------------------------------------------ *)
(** ** Plugin contracts (types/*.ts)

    A plugin method is a function of its arguments that may throw. *)

Record GenerateOptions : Type := mkOptions {
  schema : string;
  output : string;
  write : option bool;
  dryRun : option bool
}.

Record ParserOptions : Type := mkParserOptions {
  filePath : option string
}.

Module ParserPlugin.
Record t : Type := make {
  name : string;
  version : string;
  extensions : list string;
  parse : string -> ParserOptions -> Res SchemaIR
}.
End ParserPlugin.

Inductive ApiStyle : Type := Rest | Graphql | Trpc.

Module GeneratorPlugin.
Record t : Type := make {
  name : string;
  version : string;
  style : ApiStyle;
  priority : option Z;
  generate : SchemaIR -> GenerateOptions -> Res GeneratedCode;
  getDependencies : unit -> Res (list Dependency);
  getPeerDependencies : option (unit -> Res (list Dependency))
}.
End GeneratorPlugin.

Module AdapterPlugin.
Record t : Type := make {
  name : string;
  version : string;
  framework : string;
  priority : option Z;
  adapt : GeneratedCode -> GenerateOptions -> Res GeneratedCode;
  getDependencies : unit -> Res (list Dependency);
  getPeerDependencies : option (unit -> Res (list Dependency))
}.
End AdapterPlugin.

Module AuthPlugin.
Record t : Type := make {
  name : string;
  version : string;
  strategy : string;
  priority : option Z;
  generate : SchemaIR -> GenerateOptions -> Res GeneratedCode;
  getDependencies : unit -> Res (list Dependency);
  getPeerDependencies : option (unit -> Res (list Dependency))
}.
End AuthPlugin.

Module DatabasePlugin.
Record t : Type := make {
  name : string;
  version : string;
  adapter : string;
  priority : option Z;
  generate : SchemaIR -> GenerateOptions -> Res GeneratedCode;
  getDependencies : unit -> Res (list Dependency);
  getPeerDependencies : option (unit -> Res (list Dependency))
}.
End DatabasePlugin.

Module DeployPlugin.
Record t : Type := make {
  name : string;
  version : string;
  target : string;
  priority : option Z;
  generate : GeneratedCode -> GenerateOptions -> Res GeneratedCode;
  getDependencies : unit -> Res (list Dependency)
}.
End DeployPlugin.

(* ------------------------------------------------------------------ *)
(** ** The world outside the engine *)

Record FetchResponse : Type := mkResponse {
  ok : bool;
  statusText : string;
  text : Res string
}.

(** The file system, the network and the emitter, as the orchestrator
    uses them. *)
Record Env : Type := mkEnv {
  existsSync : string -> bool;
  readFile : string -> Res string;
  resolve : string -> string;
  fetch : string -> Res FetchResponse;
  writeGeneratedCode : GeneratedCode -> string -> Res unit
}.

(** What a run does to its collaborators, in order. *)
Inductive Event : Type :=
| CallParse (parser : string) (input : string)
| CallGenerate (generator : string)
| CallAdapt (adapter : string) (code : GeneratedCode)
| CallAuthGenerate (auth : string)
| CallDatabaseGenerate (database : string)
| CallDeployGenerate (deploy : string) (code : GeneratedCode)
| CallGetDependencies (plugin : string)
| CallGetPeerDependencies (plugin : string)
| CallWriteGeneratedCode (code : GeneratedCode) (outputDir : string).

(** A run: it extends the trace of calls made so far and returns or
    throws. *)
Definition Run (A : Type) : Type := list Event -> list Event * Res A.

Definition ret {A} (a : A) : Run A := fun trace => (trace, Ok a).

Definition throw {A} (message : string) : Run A := fun trace => (trace, Throw message).

Definition bind {A B} (c : Run A) (k : A -> Run B) : Run B :=
  fun trace =>
    match c trace with
    | (trace', Ok a) => k a trace'
    | (trace', Throw message) => (trace', Throw message)
    end.

(** Calling a collaborator records the call, then returns or throws what
    the collaborator does. *)
Definition call {A} (e : Event) (result : Res A) : Run A :=
  fun trace => (trace ++ [e], result).

Definition lift {A} (result : Res A) : Run A := fun trace => (trace, result).

Notation "x <- c ;; k" := (bind c (fun x => k))
  (at level 61, c at next level, right associativity).

(** [for (const x of xs) { acc = await body(acc, x) }] *)
Fixpoint forEach {A B} (body : B -> A -> Run B) (xs : list A) (acc : B) : Run B :=
  match xs with
  | [] => ret acc
  | x :: rest => acc' <- body acc x ;; forEach body rest acc'
  end.

(* ------------------------------------------------------------------ *)
(** ** [Array.prototype.sort] with a comparator (stable) *)

(** [x] goes before the first element it is strictly smaller than. *)
Fixpoint sortedInsert {A} (compare : A -> A -> Z) (x : A) (sorted : list A) : list A :=
  match sorted with
  | [] => [x]
  | y :: rest =>
      if compare x y <? 0 then x :: y :: rest
      else y :: sortedInsert compare x rest
  end.

Definition sort {A} (compare : A -> A -> Z) (xs : list A) : list A :=
  fold_left (fun sorted x => sortedInsert compare x sorted) xs [].

(** [priority ?? 0] *)
Definition orZero (priority : option Z) : Z :=
  match priority with Some p => p | None => 0 end.

(* ------------------------------------------------------------------ *)
(** ** The orchestrator (class [OpenGenerator], generator.ts) *)

Record Validation : Type := mkValidation {
  valid : bool;
  errors : list string;
  warnings : list string
}.

Module OpenGenerator.

Record t : Type := make {
  parserPlugins : JsMap.t ParserPlugin.t;
  generatorPlugins : JsMap.t GeneratorPlugin.t;
  adapterPlugins : JsMap.t AdapterPlugin.t;
  authPlugins : JsMap.t AuthPlugin.t;
  databasePlugins : JsMap.t DatabasePlugin.t;
  deployPlugins : JsMap.t DeployPlugin.t;
  selectedParser : option ParserPlugin.t;
  selectedGenerators : list GeneratorPlugin.t;
  selectedAdapter : option AdapterPlugin.t;
  selectedAuth : list AuthPlugin.t;
  selectedDatabase : option DatabasePlugin.t;
  selectedDeploy : list DeployPlugin.t
}.

(** [new OpenGenerator()] *)
Definition new : t :=
  make JsMap.empty JsMap.empty JsMap.empty JsMap.empty JsMap.empty JsMap.empty
       None [] None [] None [].

Definition parser (plugin : ParserPlugin.t) (this : t) : t :=
  make (JsMap.set (ParserPlugin.name plugin) plugin (parserPlugins this))
       (generatorPlugins this) (adapterPlugins this) (authPlugins this)
       (databasePlugins this) (deployPlugins this)
       (Some plugin)
       (selectedGenerators this) (selectedAdapter this) (selectedAuth this)
       (selectedDatabase this) (selectedDeploy this).

(** [(a, b) => (b.priority ?? 0) - (a.priority ?? 0)]: higher first. *)
Definition byPriority {P} (priority : P -> option Z) (a b : P) : Z :=
  orZero (priority b) - orZero (priority a).

Definition generator (plugin : GeneratorPlugin.t) (this : t) : t :=
  make (parserPlugins this)
       (JsMap.set (GeneratorPlugin.name plugin) plugin (generatorPlugins this))
       (adapterPlugins this) (authPlugins this)
       (databasePlugins this) (deployPlugins this)
       (selectedParser this)
       (sort (byPriority GeneratorPlugin.priority) (selectedGenerators this ++ [plugin]))
       (selectedAdapter this) (selectedAuth this)
       (selectedDatabase this) (selectedDeploy this).

Definition adapter (plugin : AdapterPlugin.t) (this : t) : t :=
  make (parserPlugins this) (generatorPlugins this)
       (JsMap.set (AdapterPlugin.name plugin) plugin (adapterPlugins this))
       (authPlugins this) (databasePlugins this) (deployPlugins this)
       (selectedParser this) (selectedGenerators this)
       (Some plugin)
       (selectedAuth this) (selectedDatabase this) (selectedDeploy this).

Definition auth (plugin : AuthPlugin.t) (this : t) : t :=
  make (parserPlugins this) (generatorPlugins this) (adapterPlugins this)
       (JsMap.set (AuthPlugin.name plugin) plugin (authPlugins this))
       (databasePlugins this) (deployPlugins this)
       (selectedParser this) (selectedGenerators this) (selectedAdapter this)
       (sort (byPriority AuthPlugin.priority) (selectedAuth this ++ [plugin]))
       (selectedDatabase this) (selectedDeploy this).

Definition database (plugin : DatabasePlugin.t) (this : t) : t :=
  make (parserPlugins this) (generatorPlugins this) (adapterPlugins this)
       (authPlugins this)
       (JsMap.set (DatabasePlugin.name plugin) plugin (databasePlugins this))
       (deployPlugins this)
       (selectedParser this) (selectedGenerators this) (selectedAdapter this)
       (selectedAuth this)
       (Some plugin)
       (selectedDeploy this).

Definition deploy (plugin : DeployPlugin.t) (this : t) : t :=
  make (parserPlugins this) (generatorPlugins this) (adapterPlugins this)
       (authPlugins this) (databasePlugins this)
       (JsMap.set (DeployPlugin.name plugin) plugin (deployPlugins this))
       (selectedParser this) (selectedGenerators this) (selectedAdapter this)
       (selectedAuth this) (selectedDatabase this)
       (sort (byPriority DeployPlugin.priority) (selectedDeploy this ++ [plugin])).

(** [`Failed to fetch schema from ${input}: ${response.statusText}`] *)
Definition fetchFailed (input status : string) : string :=
  ("Failed to fetch schema from " ++ input ++ ": " ++ status)%string.

Definition readInput (env : Env) (input : string) : Res string :=
  if existsSync env input then readFile env input
  else if startsWith "http://" input || startsWith "https://" input then
    match fetch env input with
    | Throw message => Throw message
    | Ok response =>
        if negb (ok response) then Throw (fetchFailed input (statusText response))
        else text response
    end
  else Ok input.

Definition noParserSelected : string := "No parser selected. Call .parser() first.".

Definition parse (this : t) (env : Env) (input : string) : Run SchemaIR :=
  match selectedParser this with
  | None => throw noParserSelected
  | Some selected =>
      content <- lift (readInput env input) ;;
      call (CallParse (ParserPlugin.name selected) content)
           (ParserPlugin.parse selected content
              (mkParserOptions
                 (if existsSync env input then Some (resolve env input) else None)))
  end.

(** [getPeerDependencies?.() ?? []] *)
Definition peerDependencies (plugin : string)
    (method : option (unit -> Res (list Dependency))) : Run (list Dependency) :=
  match method with
  | Some getPeerDependencies => call (CallGetPeerDependencies plugin) (getPeerDependencies tt)
  | None => ret []
  end.

(** [deps.push(...p.getDependencies()); deps.push(...(p.getPeerDependencies?.() ?? []))] *)
Definition pushDependencies (plugin : string)
    (getDependencies : unit -> Res (list Dependency))
    (getPeerDependencies : option (unit -> Res (list Dependency)))
    (deps : list Dependency) : Run (list Dependency) :=
  own <- call (CallGetDependencies plugin) (getDependencies tt) ;;
  peer <- peerDependencies plugin getPeerDependencies ;;
  ret (deps ++ own ++ peer).

Definition collectDependencies (this : t) (existing : list Dependency)
    : Run (list Dependency) :=
  deps <- match selectedAdapter this with
          | Some a =>
              pushDependencies (AdapterPlugin.name a) (AdapterPlugin.getDependencies a)
                               (AdapterPlugin.getPeerDependencies a) existing
          | None => ret existing
          end ;;
  deps <- forEach (fun deps gen =>
                     pushDependencies (GeneratorPlugin.name gen)
                       (GeneratorPlugin.getDependencies gen)
                       (GeneratorPlugin.getPeerDependencies gen) deps)
                  (selectedGenerators this) deps ;;
  deps <- forEach (fun deps au =>
                     pushDependencies (AuthPlugin.name au)
                       (AuthPlugin.getDependencies au)
                       (AuthPlugin.getPeerDependencies au) deps)
                  (selectedAuth this) deps ;;
  deps <- match selectedDatabase this with
          | Some db =>
              pushDependencies (DatabasePlugin.name db) (DatabasePlugin.getDependencies db)
                               (DatabasePlugin.getPeerDependencies db) deps
          | None => ret deps
          end ;;
  deps <- forEach (fun deps dep =>
                     own <- call (CallGetDependencies (DeployPlugin.name dep))
                                 (DeployPlugin.getDependencies dep tt) ;;
                     ret (deps ++ own))
                  (selectedDeploy this) deps ;;
  ret (mergeDependencies deps []).

(** Step 1: [for (const gen of this.selectedGenerators)] *)
Definition runGenerators (this : t) (schema : SchemaIR) (options : GenerateOptions)
    (code : GeneratedCode) : Run GeneratedCode :=
  forEach (fun code gen =>
             generated <- call (CallGenerate (GeneratorPlugin.name gen))
                               (GeneratorPlugin.generate gen schema options) ;;
             lift (mergeGeneratedCode code generated noOptions))
          (selectedGenerators this) code.

(** Step 2: [if (this.selectedAdapter) code = await this.selectedAdapter.adapt(code, options)] *)
Definition applyAdapter (this : t) (options : GenerateOptions)
    (code : GeneratedCode) : Run GeneratedCode :=
  match selectedAdapter this with
  | Some a => call (CallAdapt (AdapterPlugin.name a) code) (AdapterPlugin.adapt a code options)
  | None => ret code
  end.

(** Step 3: [for (const auth of this.selectedAuth)] *)
Definition addAuth (this : t) (schema : SchemaIR) (options : GenerateOptions)
    (code : GeneratedCode) : Run GeneratedCode :=
  forEach (fun code au =>
             authCode <- call (CallAuthGenerate (AuthPlugin.name au))
                              (AuthPlugin.generate au schema options) ;;
             lift (mergeGeneratedCode code authCode noOptions))
          (selectedAuth this) code.

(** Step 4: [if (this.selectedDatabase)] *)
Definition addDatabase (this : t) (schema : SchemaIR) (options : GenerateOptions)
    (code : GeneratedCode) : Run GeneratedCode :=
  match selectedDatabase this with
  | Some db =>
      dbCode <- call (CallDatabaseGenerate (DatabasePlugin.name db))
                     (DatabasePlugin.generate db schema options) ;;
      lift (mergeGeneratedCode code dbCode noOptions)
  | None => ret code
  end.

(** Step 5: [for (const dep of this.selectedDeploy)] *)
Definition addDeploy (this : t) (options : GenerateOptions)
    (code : GeneratedCode) : Run GeneratedCode :=
  forEach (fun code dep =>
             deployCode <- call (CallDeployGenerate (DeployPlugin.name dep) code)
                                (DeployPlugin.generate dep code options) ;;
             lift (mergeGeneratedCode code deployCode noOptions))
          (selectedDeploy this) code.

(** [options.output && options.write !== false && !options.dryRun] *)
Definition shouldWrite (options : GenerateOptions) : bool :=
  negb (String.eqb (output options) "")
  && negb (isFalse (write options))
  && negb (match dryRun options with Some true => true | _ => false end).

(** Steps 3 to 7, on the accumulator the adapter step left. *)
Definition afterAdapter (this : t) (env : Env) (schema : SchemaIR)
    (options : GenerateOptions) (code : GeneratedCode) : Run GeneratedCode :=
  code <- addAuth this schema options code ;;
  code <- addDatabase this schema options code ;;
  code <- addDeploy this options code ;;
  deps <- collectDependencies this (dependencies code) ;;
  let code := mkCode (files code) deps (metadata code) in
  _ <- (if shouldWrite options
        then call (CallWriteGeneratedCode code (output options))
                  (writeGeneratedCode env code (output options))
        else ret tt) ;;
  ret code.

Definition generate (this : t) (env : Env) (options : GenerateOptions)
    : Run GeneratedCode :=
  schema <- parse this env (schema options) ;;
  code <- runGenerators this schema options emptyCode ;;
  code <- applyAdapter this options code ;;
  afterAdapter this env schema options code.

Definition validate (this : t) : Validation :=
  let errors :=
    (match selectedParser this with None => ["No parser selected"] | Some _ => [] end)
    ++ (if (Z.of_nat (length (selectedGenerators this)) =? 0)
        then ["No generators selected"] else []) in
  let warnings :=
    (match selectedAdapter this with
     | None => ["No adapter selected - generated code may not be framework-specific"]
     | Some _ => []
     end)
    ++ (if (Z.of_nat (length (selectedAuth this)) =? 0)
        then ["No auth plugins selected - API will be unauthenticated"] else [])
    ++ (match selectedDatabase this with
        | None => ["No database plugin selected - no database layer will be generated"]
        | Some _ => []
        end) in
  mkValidation (Z.of_nat (length errors) =? 0) errors warnings.

End OpenGenerator.

(** [createGenerator()] *)
Definition createGenerator : OpenGenerator.t := OpenGenerator.new.

(* ------------------------------------------------------------------ *)
(** ** Reading lists by key

    The vocabulary of the statements below: the entries of a list under a
    key, the first and the last of them, and the first key of a list that
    repeats an earlier one. *)

Section ByKey.
Variable V : Type.
Variable key : V -> string.

Definition hasKey (k : string) (v : V) : bool := String.eqb (key v) k.

(** The entries of [l] under key [k], in order. *)
Definition entriesAt (k : string) (l : list V) : list V := filter (hasKey k) l.

Definition findFirst (k : string) (l : list V) : option V := find (hasKey k) l.

Fixpoint findLast (k : string) (l : list V) : option V :=
  match l with
  | [] => None
  | v :: rest =>
      match findLast k rest with
      | Some w => Some w
      | None => if hasKey k v then Some v else None
      end
  end.

(** [v] is the only entry of [l] under its key. *)
Definition sole (v : V) (l : list V) : Prop :=
  forall w, In w l -> key w = key v -> w = v.

(** A map whose every value sits under its own key. *)
Definition keyed (m : JsMap.t V) : Prop :=
  Forall (fun kv => key (snd kv) = fst kv) m.

(** The map that holds the entries of [l], each under its key. *)
Definition byKey (l : list V) : JsMap.t V := map (fun v => (key v, v)) l.
End ByKey.

(** The first element of [l] that is in [seen] or occurred before it in [l]. *)
Fixpoint firstRepeatedFrom (seen l : list string) : option string :=
  match l with
  | [] => None
  | x :: rest =>
      if existsb (String.eqb x) seen then Some x
      else firstRepeatedFrom (seen ++ [x]) rest
  end.

Definition firstRepeated (l : list string) : option string := firstRepeatedFrom [] l.

Definition paths (c : GeneratedCode) : list string := map path (files c).

(** The files of [l] at path [p]. *)
Definition filesAt (p : string) (l : list GeneratedFile) : list GeneratedFile :=
  entriesAt path p l.

(** The dependencies of [l] on package [n]. *)
Definition named (n : string) (l : list Dependency) : list Dependency :=
  entriesAt name n l.

(** The numbers [compareSemver] compares, in order. *)
Definition numericTuple (v : string) : Z * Z * Z :=
  let ver := parseSemver v in (major ver, minor ver, patch ver).

(** The (major, minor, patch) of a version as it is written, every digit
    counted: the integers [parseInt] reads of the components, before it
    makes Numbers of them. *)
Definition writtenTuple (v : string) : Z * Z * Z :=
  let pieces := split "-" (stripRangeOperators v) in
  let parts :=
    map (fun p => match mathInt p with Some n => n | None => 0 end)
        (split "." (match nth_error pieces 0 with Some m => m | None => "0.0.0" end)) in
  (nth 0 parts 0, nth 1 parts 0, nth 2 parts 0).

(** Lexicographic order on (major, minor, patch). *)
Definition tupleLt (x y : Z * Z * Z) : Prop :=
  let '(a1, b1, c1) := x in
  let '(a2, b2, c2) := y in
  a1 < a2 \/ (a1 = a2 /\ b1 < b2) \/ (a1 = a2 /\ b1 = b2 /\ c1 < c2).

(** A version with a non-empty suffix after its first ["-"]. *)
Definition isPrerelease (v : string) : bool := truthy (prerelease (parseSemver v)).

(** What [mergeDependencies] leaves of [winner] when it met [other] under
    the same name: the winner, with [dev: false] if either said so. *)
Definition settled (winner other : Dependency) : Dependency :=
  if isFalse (dev winner) || isFalse (dev other) then withDevFalse winner else winner.


(** The (model, field, hint) triples of [models] in declaration order. *)
Definition relationHints (models : list Model.t)
    : list (Model.t * Field * FieldRelation.t) :=
  flat_map
    (fun m =>
       flat_map
         (fun f =>
            match FieldOf.relation f with
            | Some rel => [(m, f, rel)]
            | None => []
            end)
         (Model.fields m))
    models.

(* ------------------------------------------------------------------ *)
(** ** More vocabulary: merged entries, relation hints, quiet runs *)

Import OpenGenerator.

(** The entry [mergeDependencies] holds once [dep] met [existing] under
    the same name. *)
Definition mergedEntry (existing dep : Dependency) : Dependency :=
  if compareSemver (version dep) (version existing) >? 0
  then settled dep existing else settled existing dep.

(** The order [compareSemver] decides by: the numeric tuple, then release
    over prerelease. *)
Definition rank (v : string) : Z * Z * Z * Z :=
  let ver := parseSemver v in
  (major ver, minor ver, patch ver, if truthy (prerelease ver) then 0 else 1).

Definition rankLt (x y : Z * Z * Z * Z) : Prop :=
  let '(a1, b1, c1, d1) := x in
  let '(a2, b2, c2, d2) := y in
  a1 < a2 \/ (a1 = a2 /\ b1 < b2) \/ (a1 = a2 /\ b1 = b2 /\ c1 < c2)
  \/ (a1 = a2 /\ b1 = b2 /\ c1 = c2 /\ d1 < d2).

(** [r] is the entry [w] as far as name, version string and type go. *)
Definition keeps (r w : Dependency) : Prop :=
  name r = name w /\ version r = version w /\ depType r = depType w.

(** What one more dependency does to the entry of package [n]. *)
Definition mergedInto (acc : option Dependency) (dep : Dependency) : option Dependency :=
  Some (match acc with Some existing => mergedEntry existing dep | None => dep end).

(** The hint names a model of [models]. *)
Definition targetExists (models : list Model.t)
    (hint : Model.t * Field * FieldRelation.t) : bool :=
  hasModelName models (FieldRelation.model (snd hint)).

(** The relation a hint materializes as. *)
Definition relationOfHint (hint : Model.t * Field * FieldRelation.t) : Relation.t :=
  relationOf (fst (fst hint)) (snd (fst hint)) (snd hint).

(** The hints of the fields of one model. *)
Definition fieldHints (m : Model.t) (fields : list Field)
    : list (Model.t * Field * FieldRelation.t) :=
  flat_map (fun f => match FieldOf.relation f with
                     | Some rel => [(m, f, rel)]
                     | None => []
                     end) fields.


(** [getDependencies()] and, where present, [getPeerDependencies()] of
    the generator do not throw. *)
Definition generatorDependenciesOk (g : GeneratorPlugin.t) : Prop :=
  (exists own, GeneratorPlugin.getDependencies g tt = Ok own)
  /\ match GeneratorPlugin.getPeerDependencies g with
     | Some getPeerDependencies => exists peer, getPeerDependencies tt = Ok peer
     | None => True
     end.

(** Writing, when the options ask for it, does not throw. *)
Definition writeOk (env : Env) (options : GenerateOptions) : Prop :=
  shouldWrite options = true ->
  forall code, writeGeneratedCode env code (output options) = Ok tt.

(** The parser options [parse] passes for [input]. *)
Definition parserOptionsFor (env : Env) (input : string) : ParserOptions :=
  mkParserOptions (if existsSync env input then Some (resolve env input) else None).

(* ------------------------------------------------------------------ *)
(** ** Scenarios: the concrete inputs the statements are tried on *)

Definition codeWithMetadata : GeneratedCode :=
  mkCode [createFile "a.ts" "A"] [mkDep "zod" "^3.0.0" None None]
         (Some [("generator", "rest")]).

Definition codeWithRepeats : GeneratedCode :=
  mkCode [createFile "a.ts" "one"; createFile "a.ts" "two"]
         [mkDep "zod" "^3.0.0" None None; mkDep "zod" "^4.0.0" None None]
         None.

Definition sharedIndexA : GeneratedCode :=
  mkCode [createFile "index.ts" "old"] [] None.

Definition sharedIndexB : GeneratedCode :=
  mkCode [createFile "index.ts" "new";
          createFile "util.ts" "one"; createFile "util.ts" "two"] [] None.

Definition crossedA : GeneratedCode :=
  mkCode [createFile "index.ts" "a1"; createFile "types.ts" "a2"] [] None.

Definition crossedB : GeneratedCode :=
  mkCode [createFile "types.ts" "b1"; createFile "index.ts" "b2"] [] None.

Definition userModel : Model.t :=
  Model.make "User"
    [mkField "id" (ScalarFieldType TString) false None (Some true) None None;
     mkField "email" (ScalarFieldType TString) true (Some true) None None None]
    (mkCrud true true true true true).

(** [Post.author] declares a relation to [target]. *)
Definition postModel (target : string) : Model.t :=
  Model.make "Post"
    [mkField "id" (ScalarFieldType TString) false None (Some true) None None;
     mkField "author" (ReferenceFieldType target) true None None
       (Some (FieldRelation.make ManyToOne target "id" (Some "authorId") None)) None;
     mkField "authorId" (ScalarFieldType TString) true None None None None]
    (mkCrud true true true true true).

Definition stubSchema : SchemaIR :=
  mkSchema "1.0.0" "test" "prisma" [userModel] [] [].

Definition stubParser : ParserPlugin.t :=
  ParserPlugin.make "mock-parser" "1.0.0" [".mock"] (fun _ _ => Ok stubSchema).

Definition highCode : GeneratedCode :=
  mkCode [createFile "high-only.ts" "h"; createFile "common.ts" "high"] [] None.

Definition lowCode : GeneratedCode :=
  mkCode [createFile "low-only.ts" "l"; createFile "common.ts" "low"] [] None.

Definition highGenerator : GeneratorPlugin.t :=
  GeneratorPlugin.make "high-generator" "1.0.0" Rest (Some 10)
    (fun _ _ => Ok highCode) (fun _ => Ok []) None.

Definition lowGenerator : GeneratorPlugin.t :=
  GeneratorPlugin.make "low-generator" "1.0.0" Graphql (Some 5)
    (fun _ _ => Ok lowCode) (fun _ => Ok []) None.


(** No file on disk, no network, a writer that succeeds. *)
Definition stubEnv : Env :=
  mkEnv (fun _ => false) (fun _ => Throw "ENOENT") (fun s => s)
        (fun _ => Throw "offline") (fun _ _ => Ok tt).

Definition stubOptions : GenerateOptions :=
  mkOptions "test" "./test-output" (Some false) None.

Definition highThenLow : OpenGenerator.t :=
  generator lowGenerator (generator highGenerator (parser stubParser createGenerator)).

Definition lowThenHigh : OpenGenerator.t :=
  generator highGenerator (generator lowGenerator (parser stubParser createGenerator)).


(* ------------------------------------------------------------------ *)
(** ** Vocabulary of the further properties *)

(** The elements of [l] that are not in [seen] and did not occur before in
    [l]: each key once, where it occurs first. *)
Fixpoint newKeys (seen l : list string) : list string :=
  match l with
  | [] => []
  | x :: rest =>
      if existsb (String.eqb x) seen then newKeys seen rest
      else x :: newKeys (seen ++ [x]) rest
  end.

Definition firstOccurrences (l : list string) : list string := newKeys [] l.

(** A string made of range operator characters only. *)
Fixpoint allRangeOperators (s : string) : bool :=
  match s with
  | EmptyString => true
  | String c rest => isRangeOperator c && allRangeOperators rest
  end.

(** [reset()]: the selections go, the registered plugins stay. *)
Definition reset (this : OpenGenerator.t) : OpenGenerator.t :=
  make (parserPlugins this) (generatorPlugins this) (adapterPlugins this)
       (authPlugins this) (databasePlugins this) (deployPlugins this)
       None [] None [] None [].

(** An orchestrator as the builder methods make them, from
    [createGenerator()]. *)
Inductive Built : OpenGenerator.t -> Prop :=
| BuiltNew : Built createGenerator
| BuiltParser p this : Built this -> Built (parser p this)
| BuiltGenerator p this : Built this -> Built (generator p this)
| BuiltAdapter p this : Built this -> Built (adapter p this)
| BuiltAuth p this : Built this -> Built (auth p this)
| BuiltDatabase p this : Built this -> Built (database p this)
| BuiltDeploy p this : Built this -> Built (deploy p this)
| BuiltReset this : Built this -> Built (reset this).

(** [a] may stand before [b] in a list sorted by priority, higher first. *)
Definition notLower {P} (priority : P -> option Z) (a b : P) : Prop :=
  orZero (priority b) <= orZero (priority a).

(** The step of [generate] a call belongs to. *)
Definition phase (e : Event) : nat :=
  match e with
  | CallParse _ _ => 0
  | CallGenerate _ => 1
  | CallAdapt _ _ => 2
  | CallAuthGenerate _ => 3
  | CallDatabaseGenerate _ => 4
  | CallDeployGenerate _ _ => 5
  | CallGetDependencies _ => 6
  | CallGetPeerDependencies _ => 6
  | CallWriteGeneratedCode _ _ => 7
  end%nat.

Definition inPhaseOrder (e1 e2 : Event) : Prop := (phase e1 <= phase e2)%nat.

(** A run that only adds calls of phases [lo] to [hi], in phase order. *)
Definition inPhases {A} (lo hi : nat) (c : Run A) : Prop :=
  forall tr, exists ext,
    fst (c tr) = tr ++ ext
    /\ StronglySorted inPhaseOrder ext
    /\ Forall (fun e => (lo <= phase e <= hi)%nat) ext.

Definition isWrite (e : Event) : bool :=
  match e with CallWriteGeneratedCode _ _ => true | _ => false end.

(** A run that adds no call the filter [keep] selects. *)
Definition calm {A} (keep : Event -> bool) (c : Run A) : Prop :=
  forall tr, filter keep (fst (c tr)) = filter keep tr.

(** The options of a run that is to write its result. *)
Definition writingOptions : GenerateOptions :=
  mkOptions "test" "./test-output" None None.

(* ------------------------------------------------------------------ *)
(** ** Template engine: naming helpers *)

(** [str.endsWith(searchString)]: the part of [str] that starts
    [searchString.length] before its end is [searchString]. *)
Definition endsWith (searchString str : string) : bool :=
  let start := Z.of_nat (String.length str) - Z.of_nat (String.length searchString) in
  if start <? 0 then false
  else String.eqb (substring (Z.to_nat start) (String.length searchString) str)
                  searchString.

(** [str.slice(0, -k)], for [k] at least 0: all but the last [k] characters,
    nothing when there are no more than [k]. *)
Definition sliceToEnd (k : nat) (str : string) : string :=
  substring 0 (String.length str - k) str.

Definition pluralize (str : string) : string :=
  if endsWith "y" str then (sliceToEnd 1 str ++ "ies")%string
  else if endsWith "s" str || endsWith "x" str || endsWith "ch" str || endsWith "sh" str
  then (str ++ "es")%string
  else (str ++ "s")%string.

Definition singularize (str : string) : string :=
  if endsWith "ies" str then (sliceToEnd 3 str ++ "y")%string
  else if endsWith "es" str then sliceToEnd 2 str
  else if endsWith "s" str then sliceToEnd 1 str
  else str.

(* ------------------------------------------------------------------ *)
(** ** The generation pipeline (pipeline.ts)

    Clock readings ([duration], [stageTimes], the [timestamp] of an event)
    and the [data] a completed stage hands its hook are left out: a hook
    is taken to leave the result it is shown as it is.  Hooks and
    transforms are functions of their argument, which may throw. *)

Inductive PipelineStage : Type :=
| StageParse | StageValidate | StageTransform | StageGenerate | StageAdapt
| StageAuth | StageDatabase | StageDeploy | StagePostProcess | StageWrite.

Inductive StageStatus : Type := StatusStart | StatusComplete | StatusError.

Module PipelineEvent.
Record t : Type := make {
  stage : PipelineStage;
  status : StageStatus;
  error : option string
}.
End PipelineEvent.

Module Hooks.
Record t : Type := make {
  onStageStart : option (PipelineEvent.t -> Res unit);
  onStageComplete : option (PipelineEvent.t -> Res unit);
  onStageError : option (PipelineEvent.t -> Res unit)
}.
End Hooks.

Module PipelineConfig.
Record t : Type := make {
  schemaTransforms : option (list (SchemaIR -> Res SchemaIR));
  codeTransforms : option (list (GeneratedCode -> Res GeneratedCode));
  fileFilters : option (list (GeneratedFile -> bool));
  hooks : option Hooks.t
}.
End PipelineConfig.

Module PipelineResult.
Record t : Type := make {
  code : GeneratedCode;
  schema : SchemaIR;
  warnings : list string
}.
End PipelineResult.

(** What a pipeline run does to the outside: the calls the orchestrator
    makes, and the hooks it calls. *)
Inductive Step : Type :=
| PluginStep (e : Event)
| HookStep (event : PipelineEvent.t).

(** A stage: the steps it took and how it ended. *)
Definition Staged (A : Type) : Type := (list Step * Res A)%type.

Definition andThen {A B} (c : Staged A) (k : A -> Staged B) : Staged B :=
  match c with
  | (steps, Ok a) => let (more, r) := k a in (steps ++ more, r)
  | (steps, Throw message) => (steps, Throw message)
  end.

Notation "x <~ c ;; k" := (andThen c (fun x => k))
  (at level 61, c at next level, right associativity).

(** A computation of the orchestrator, run inside a stage. *)
Definition plugins {A} (c : Run A) : Staged A :=
  let (calls, r) := c [] in (map PluginStep calls, r).

Definition pluginSteps (steps : list Step) : list Event :=
  flat_map (fun s => match s with PluginStep e => [e] | HookStep _ => [] end) steps.

Module Pipeline.

(** [emitEvent]: the hook for the status of the event, if there is one;
    what it returns or throws is dropped. *)
Definition emitEvent (config : PipelineConfig.t) (event : PipelineEvent.t) : list Step :=
  match PipelineConfig.hooks config with
  | None => []
  | Some hooks =>
      match (match PipelineEvent.status event with
             | StatusStart => Hooks.onStageStart hooks
             | StatusComplete => Hooks.onStageComplete hooks
             | StatusError => Hooks.onStageError hooks
             end) with
      | Some hook =>
          match hook event with
          | Ok _ => [HookStep event]
          | Throw _ => [HookStep event]
          end
      | None => []
      end
  end.

Definition runStage {T} (config : PipelineConfig.t) (stage : PipelineStage)
    (fn : Staged T) : Staged T :=
  let started := emitEvent config (PipelineEvent.make stage StatusStart None) in
  match fn with
  | (steps, Ok result) =>
      (started ++ steps
         ++ emitEvent config (PipelineEvent.make stage StatusComplete None),
       Ok result)
  | (steps, Throw message) =>
      (started ++ steps
         ++ emitEvent config (PipelineEvent.make stage StatusError (Some message)),
       Throw message)
  end.

(** [for (const transform of transforms) x = await transform(x)] *)
Fixpoint applyTransforms {A} (transforms : list (A -> Res A)) (x : A) : Res A :=
  match transforms with
  | [] => Ok x
  | transform :: rest =>
      match transform x with
      | Ok y => applyTransforms rest y
      | Throw message => Throw message
      end
  end.

(** [transforms ?? []] *)
Definition orNone {A} (transforms : option (list A)) : list A :=
  match transforms with Some l => l | None => [] end.

(** [`Validation failed: ${validation.errors.join(', ')}`] *)
Definition validationFailed (errors : list string) : string :=
  ("Validation failed: " ++ String.concat ", " errors)%string.

(** The body of the validate stage. *)
Definition validateStage (this : OpenGenerator.t) : Res (list string) :=
  let validation := validate this in
  if negb (valid validation) then Throw (validationFailed (errors validation))
  else Ok (warnings validation).

(** The body of the post-process stage. *)
Definition postProcess (config : PipelineConfig.t) (code : GeneratedCode)
    : Res GeneratedCode :=
  match applyTransforms (orNone (PipelineConfig.codeTransforms config)) code with
  | Throw message => Throw message
  | Ok processed =>
      match PipelineConfig.fileFilters config with
      | Some (first :: others) =>
          Ok (mkCode
                (filter (fun file => forallb (fun keep => keep file) (first :: others))
                        (files processed))
                (dependencies processed) (metadata processed))
      | _ => Ok processed
      end
  end.

(** [{ ...options, write: false }] *)
Definition withoutWrite (options : GenerateOptions) : GenerateOptions :=
  mkOptions (schema options) (output options) (Some false) (dryRun options).

(** [options.write !== false && !options.dryRun] *)
Definition pipelineWrites (options : GenerateOptions) : bool :=
  negb (isFalse (write options))
  && negb (match dryRun options with Some true => true | _ => false end).

Definition run (this : OpenGenerator.t) (env : Env) (config : PipelineConfig.t)
    (options : GenerateOptions) : Staged PipelineResult.t :=
  parsed <~ runStage config StageParse (plugins (parse this env (schema options))) ;;
  warned <~ runStage config StageValidate ([], validateStage this) ;;
  transformed <~ runStage config StageTransform
                   ([], applyTransforms (orNone (PipelineConfig.schemaTransforms config))
                                        parsed) ;;
  generated <~ runStage config StageGenerate
                 (plugins (generate this env (withoutWrite options))) ;;
  processed <~ runStage config StagePostProcess ([], postProcess config generated) ;;
  _ <~ (if pipelineWrites options
        then runStage config StageWrite
               (plugins (call (CallWriteGeneratedCode processed (output options))
                              (writeGeneratedCode env processed (output options))))
        else ([], Ok tt)) ;;
  ([], Ok (PipelineResult.make processed transformed warned)).

End Pipeline.

(** *** Common schema and code transformations *)

(** [names.includes(name)] *)
Definition namesInclude (names : list string) (n : string) : bool :=
  existsb (String.eqb n) names.

Definition withModels (ir : SchemaIR) (kept : list Model.t) : SchemaIR :=
  mkSchema (schemaVersion ir) (schemaName ir) (schemaSource ir) kept
           (enums ir) (relations ir).

Definition filterModels (names : list string) (ir : SchemaIR) : Res SchemaIR :=
  Ok (withModels ir (filter (fun m => namesInclude names (Model.name m)) (models ir))).

Definition excludeModels (names : list string) (ir : SchemaIR) : Res SchemaIR :=
  Ok (withModels ir
        (filter (fun m => negb (namesInclude names (Model.name m))) (models ir))).

(** A pipeline configuration that keeps the model [User] only. *)
Definition usersOnly : PipelineConfig.t :=
  PipelineConfig.make (Some [filterModels ["User"]]) None None None.

(* ------------------------------------------------------------------ *)
(** ** Writing generated code (emitter.ts)

    The file system is a state [World] the operations of a [Disk] read
    and change; node's path functions and [Buffer.byteLength] come with
    it. Console output is left out. *)

Module EmitterOptions.
Record t : Type := make {
  overwrite : option bool;
  createDirs : option bool;
  encoding : option string;
  dryRun : option bool;
  verbose : option bool;
  beforeWrite : option (GeneratedFile -> Res (option GeneratedFile));
  afterWrite : option (GeneratedFile -> string -> Res unit)
}.
End EmitterOptions.

Module EmitResult.
Record t : Type := make {
  written : list string;
  skipped : list string;
  failed : list (string * string);
  totalBytes : Z
}.
End EmitResult.

Module Disk.
Record t (World : Type) : Type := make {
  existsSync : World -> string -> bool;
  mkdir : World -> string -> World * Res unit;
  writeFile : World -> string -> string -> string -> option Z -> World * Res unit;
  resolve : string -> string;
  join : string -> string -> string;
  dirname : string -> string;
  byteLength : string -> string -> Z
}.
End Disk.

(** A destructuring default: [{ x = default } = options]. *)
Definition orDefault {A} (default : A) (x : option A) : A :=
  match x with Some v => v | None => default end.

Module Emitter.
Section Emit.
Variable World : Type.
Variable disk : Disk.t World.
Variable options : EmitterOptions.t.

Definition pushWritten (filePath : string) (bytes : Z) (result : EmitResult.t)
    : EmitResult.t :=
  EmitResult.make (EmitResult.written result ++ [filePath]) (EmitResult.skipped result)
                  (EmitResult.failed result) (EmitResult.totalBytes result + bytes).

Definition pushSkipped (filePath : string) (result : EmitResult.t) : EmitResult.t :=
  EmitResult.make (EmitResult.written result) (EmitResult.skipped result ++ [filePath])
                  (EmitResult.failed result) (EmitResult.totalBytes result).

Definition pushFailed (filePath message : string) (result : EmitResult.t)
    : EmitResult.t :=
  EmitResult.make (EmitResult.written result) (EmitResult.skipped result)
                  (EmitResult.failed result ++ [(filePath, message)])
                  (EmitResult.totalBytes result).

(** [if (wanted && !existsSync(dir)) await mkdir(dir, { recursive: true })] *)
Definition ensureDir (wanted : bool) (world : World) (dir : string) : World * Res unit :=
  if wanted && negb (Disk.existsSync disk world dir) then Disk.mkdir disk world dir
  else (world, Ok tt).

(** One round of [for (const file of code.files)], with its [try] and
    [catch]. *)
Definition emitFile (resolvedOutput : string) (state : World * EmitResult.t)
    (file : GeneratedFile) : World * EmitResult.t :=
  let (world, result) := state in
  let filePath := Disk.join disk resolvedOutput (path file) in
  let fileDir := Disk.dirname disk filePath in
  let defaultEncoding := orDefault "utf-8" (EmitterOptions.encoding options) in
  match (match EmitterOptions.beforeWrite options with
         | Some hook => hook file
         | None => Ok (Some file)
         end) with
  | Throw message => (world, pushFailed filePath message result)
  | Ok None => (world, pushSkipped filePath result)
  | Ok (Some processedFile) =>
      if negb (orDefault true (EmitterOptions.overwrite options))
         && negb (orDefault false (overwrite processedFile))
         && Disk.existsSync disk world filePath
      then (world, pushSkipped filePath result)
      else
        let bytes := Disk.byteLength disk (content processedFile) defaultEncoding in
        if orDefault false (EmitterOptions.dryRun options)
        then (world, pushWritten filePath bytes result)
        else
          match ensureDir (orDefault true (EmitterOptions.createDirs options))
                          world fileDir with
          | (world1, Throw message) => (world1, pushFailed filePath message result)
          | (world1, Ok _) =>
              match Disk.writeFile disk world1 filePath (content processedFile)
                      (orDefault defaultEncoding (encoding processedFile))
                      (mode processedFile) with
              | (world2, Throw message) => (world2, pushFailed filePath message result)
              | (world2, Ok _) =>
                  match (match EmitterOptions.afterWrite options with
                         | Some hook => hook processedFile filePath
                         | None => Ok tt
                         end) with
                  | Throw message => (world2, pushFailed filePath message result)
                  | Ok _ => (world2, pushWritten filePath bytes result)
                  end
              end
          end
  end.

(** A round that writes whatever is there: it makes the directory of the
    file if wanted and missing, writes the file and calls the [afterWrite]
    hook, with no look at the file's own [overwrite] or at what the path
    holds. *)
Definition writeOver (resolvedOutput : string) (state : World * EmitResult.t)
    (file : GeneratedFile) : World * EmitResult.t :=
  let (world, result) := state in
  let filePath := Disk.join disk resolvedOutput (path file) in
  let defaultEncoding := orDefault "utf-8" (EmitterOptions.encoding options) in
  match ensureDir (orDefault true (EmitterOptions.createDirs options))
                  world (Disk.dirname disk filePath) with
  | (world1, Throw message) => (world1, pushFailed filePath message result)
  | (world1, Ok _) =>
      match Disk.writeFile disk world1 filePath (content file)
              (orDefault defaultEncoding (encoding file)) (mode file) with
      | (world2, Throw message) => (world2, pushFailed filePath message result)
      | (world2, Ok _) =>
          match (match EmitterOptions.afterWrite options with
                 | Some hook => hook file filePath
                 | None => Ok tt
                 end) with
          | Throw message => (world2, pushFailed filePath message result)
          | Ok _ =>
              (world2,
               pushWritten filePath
                 (Disk.byteLength disk (content file) defaultEncoding) result)
          end
      end
  end.

Definition writeGeneratedCode (code : GeneratedCode) (outputDir : string)
    (world : World) : World * Res EmitResult.t :=
  let resolvedOutput := Disk.resolve disk outputDir in
  match ensureDir (orDefault true (EmitterOptions.createDirs options)
                   && negb (orDefault false (EmitterOptions.dryRun options)))
                  world resolvedOutput with
  | (world1, Throw message) => (world1, Throw message)
  | (world1, Ok _) =>
      let (world2, result) :=
        fold_left (emitFile resolvedOutput) (files code)
                  (world1, EmitResult.make [] [] [] 0) in
      (world2, Ok result)
  end.

End Emit.
End Emitter.

(** Every path an emit result mentions. *)
Definition accounted (result : EmitResult.t) : list string :=
  EmitResult.written result ++ EmitResult.skipped result
  ++ map fst (EmitResult.failed result).

(** What one round leaves: the result it was given with the path of the
    file added to one of the three lists. *)
Inductive Emitted (filePath : string) (before : EmitResult.t) : EmitResult.t -> Prop :=
| EmittedWritten bytes : Emitted filePath before (Emitter.pushWritten filePath bytes before)
| EmittedSkipped : Emitted filePath before (Emitter.pushSkipped filePath before)
| EmittedFailed message :
    Emitted filePath before (Emitter.pushFailed filePath message before).

(** A disk in memory: the paths there are, with their contents. Making a
    directory fails under [/readonly], writing fails for an empty path. *)
Definition memoryDisk : Disk.t (list (string * string)) :=
  Disk.make
    (fun world p => existsb (fun entry => String.eqb (fst entry) p) world)
    (fun world dir =>
       if String.prefix "/readonly" dir then (world, Throw "EACCES")
       else (world ++ [(dir, "")], Ok tt))
    (fun world p text _ _ =>
       if String.eqb p "" then (world, Throw "ENOENT")
       else (world ++ [(p, text)], Ok tt))
    (fun p => p)
    (fun dir p => (dir ++ "/" ++ p)%string)
    (fun p => p)
    (fun text _ => Z.of_nat (String.length text)).

Definition noEmitterOptions : EmitterOptions.t :=
  EmitterOptions.make None None None None None None None.

Definition dryRunOptions : EmitterOptions.t :=
  EmitterOptions.make None None None (Some true) None None None.

(* ------------------------------------------------------------------ *)
(** * Properties *)

(** ** Maps *)

Section MapFacts.
Variable V : Type.
Implicit Types (m : JsMap.t V) (k : string) (v : V).

Lemma get_none_iff m k : JsMap.get k m = None <-> ~ In k (JsMap.keys m).
Proof.
  induction m as [|[k' v'] m IH]; simpl.
  - tauto.
  - destruct (String.eqb_spec k' k) as [->|Hne].
    + split; [discriminate | intros H; exfalso; apply H; now left].
    + rewrite IH. tauto.
Qed.

Lemma get_some_in_keys m k v : JsMap.get k m = Some v -> In k (JsMap.keys m).
Proof.
  intros H. destruct (in_dec string_dec k (JsMap.keys m)) as [Hin|Hout]; trivial.
  apply get_none_iff in Hout. congruence.
Qed.

Lemma set_absent m k v : JsMap.get k m = None -> JsMap.set k v m = m ++ [(k, v)].
Proof.
  induction m as [|[k' v'] m IH]; simpl; trivial.
  destruct (String.eqb k' k); [discriminate|].
  intros H. now rewrite IH.
Qed.

Lemma keys_set_present m k v :
  JsMap.get k m <> None -> JsMap.keys (JsMap.set k v m) = JsMap.keys m.
Proof.
  induction m as [|[k' v'] m IH]; simpl.
  - congruence.
  - destruct (String.eqb k' k); simpl; trivial.
    intros H. now rewrite IH.
Qed.

Lemma get_set_same m k v : JsMap.get k (JsMap.set k v m) = Some v.
Proof.
  induction m as [|[k' v'] m IH]; simpl.
  - now rewrite String.eqb_refl.
  - destruct (String.eqb k' k) eqn:E; simpl; now rewrite E.
Qed.

Lemma get_set_other m k k' v :
  k' <> k -> JsMap.get k' (JsMap.set k v m) = JsMap.get k' m.
Proof.
  intros Hne. induction m as [|[k0 v0] m IH]; simpl.
  - destruct (String.eqb_spec k k'); congruence.
  - destruct (String.eqb_spec k0 k) as [->|Hk]; simpl.
    + destruct (String.eqb_spec k k'); congruence.
    + now rewrite IH.
Qed.

Lemma get_app_absent m m' k :
  JsMap.get k m = None -> JsMap.get k (m ++ m') = JsMap.get k m'.
Proof.
  induction m as [|[k0 v0] m IH]; simpl; trivial.
  destruct (String.eqb k0 k); [discriminate | trivial].
Qed.

Lemma get_in_values m k v : JsMap.get k m = Some v -> In v (JsMap.values m).
Proof.
  induction m as [|[k' v'] m IH]; simpl; [discriminate|].
  destruct (String.eqb k' k).
  - intros [= ->]. now left.
  - intros H. right. now apply IH.
Qed.

Lemma get_is_some_iff m k :
  (exists v, JsMap.get k m = Some v) <-> In k (JsMap.keys m).
Proof.
  split.
  - intros [v H]. eapply get_some_in_keys; eauto.
  - intros H. destruct (JsMap.get k m) as [v|] eqn:E; [now exists v|].
    apply get_none_iff in E. contradiction.
Qed.

Lemma values_app m m' : JsMap.values (m ++ m') = JsMap.values m ++ JsMap.values m'.
Proof. apply map_app. Qed.
End MapFacts.

(** ** Maps whose values carry their key *)

Section KeyedFacts.
Variable V : Type.
Variable key : V -> string.
Implicit Types (m : JsMap.t V) (l : list V) (k : string) (v : V).

Lemma keyed_set m k v : keyed key m -> key v = k -> keyed key (JsMap.set k v m).
Proof.
  intros Hm Hk. induction Hm as [|[k' v'] m Hkv Hm IH]; simpl.
  - constructor; [exact Hk | constructor].
  - destruct (String.eqb_spec k' k) as [->|Hne]; constructor; trivial.
Qed.

Lemma keyed_keys m : keyed key m -> JsMap.keys m = map key (JsMap.values m).
Proof.
  induction 1 as [|[k v] m Hkv Hm IH]; simpl; trivial.
  simpl in Hkv. now rewrite Hkv, IH.
Qed.

Lemma keyed_get m k : keyed key m -> JsMap.get k m = findFirst key k (JsMap.values m).
Proof.
  unfold findFirst, hasKey.
  induction 1 as [|[k' v] m Hkv Hm IH]; simpl; trivial.
  simpl in Hkv. rewrite Hkv, IH. reflexivity.
Qed.

Lemma keyed_byKey l : keyed key (byKey key l).
Proof. induction l; constructor; trivial. Qed.

Lemma values_byKey l : JsMap.values (byKey key l) = l.
Proof. induction l as [|v l IH]; simpl; [|rewrite IH]; reflexivity. Qed.

(** ** First, last and only entries under a key *)

Lemma findFirst_some l k v : findFirst key k l = Some v -> In v l /\ key v = k.
Proof.
  unfold findFirst. intros H. apply find_some in H. unfold hasKey in H.
  now rewrite String.eqb_eq in H.
Qed.

Lemma findLast_some l k v : findLast key k l = Some v -> In v l /\ key v = k.
Proof.
  induction l as [|x l IH]; simpl; [discriminate|].
  destruct (findLast key k l) as [w|].
  - intros [= ->]. destruct IH as [? ?]; auto.
  - unfold hasKey. destruct (String.eqb_spec (key x) k); [|discriminate].
    intros [= ->]. auto.
Qed.

Lemma findFirst_none l k : findFirst key k l = None <-> ~ In k (map key l).
Proof.
  unfold findFirst, hasKey. induction l as [|x l IH]; simpl; [tauto|].
  destruct (String.eqb_spec (key x) k) as [->|Hne].
  - split; [discriminate | intros H; exfalso; apply H; now left].
  - rewrite IH. tauto.
Qed.

Lemma findLast_none l k : findLast key k l = None <-> ~ In k (map key l).
Proof.
  induction l as [|x l IH]; simpl; [tauto|].
  destruct (findLast key k l) as [w|].
  - split; [discriminate|]. intros H. exfalso. apply H. right.
    destruct (in_dec string_dec k (map key l)) as [Hin|Hout]; trivial.
    apply IH in Hout. discriminate.
  - unfold hasKey. destruct (String.eqb_spec (key x) k) as [->|Hne].
    + split; [discriminate | intros H; exfalso; apply H; now left].
    + split; [|trivial]. intros _ [H|H]; [congruence|]. now apply IH in H.
Qed.

Lemma findLast_app l l' k :
  findLast key k (l ++ l') =
  match findLast key k l' with Some w => Some w | None => findLast key k l end.
Proof.
  induction l as [|x l IH]; simpl.
  - now destruct (findLast key k l').
  - rewrite IH. now destruct (findLast key k l').
Qed.

Lemma findFirst_app l l' k :
  findFirst key k (l ++ l') =
  match findFirst key k l with Some w => Some w | None => findFirst key k l' end.
Proof.
  unfold findFirst. induction l as [|x l IH]; simpl; trivial.
  now destruct (hasKey key k x).
Qed.

Lemma sole_findFirst l v : In v l -> sole key v l -> findFirst key (key v) l = Some v.
Proof.
  intros Hin Hsole. destruct (findFirst key (key v) l) as [w|] eqn:E.
  - apply findFirst_some in E. destruct E as [Hw Hk]. f_equal. now apply Hsole.
  - apply findFirst_none in E. exfalso. apply E. now apply in_map.
Qed.

Lemma sole_findLast l v : In v l -> sole key v l -> findLast key (key v) l = Some v.
Proof.
  intros Hin Hsole. destruct (findLast key (key v) l) as [w|] eqn:E.
  - apply findLast_some in E. destruct E as [Hw Hk]. f_equal. now apply Hsole.
  - apply findLast_none in E. exfalso. apply E. now apply in_map.
Qed.

Lemma entriesAt_absent l k : ~ In k (map key l) -> entriesAt key k l = [].
Proof.
  unfold entriesAt, hasKey. induction l as [|x l IH]; simpl; trivial.
  intros H. destruct (String.eqb_spec (key x) k) as [Hk|Hne].
  - exfalso. apply H. now left.
  - apply IH. tauto.
Qed.

(** Under pairwise distinct keys the first entry at a key is the only one. *)
Lemma entriesAt_nodup l k v :
  NoDup (map key l) -> findFirst key k l = Some v -> entriesAt key k l = [v].
Proof.
  unfold entriesAt, findFirst, hasKey. induction l as [|x l IH]; simpl; [discriminate|].
  intros Hnd. inversion Hnd as [|? ? Hx Hl]; subst.
  destruct (String.eqb_spec (key x) k) as [<-|Hne].
  - intros [= ->]. f_equal. now apply entriesAt_absent.
  - now apply IH.
Qed.

Lemma entriesAt_single_findLast l k v : entriesAt key k l = [v] -> findLast key k l = Some v.
Proof.
  unfold entriesAt, hasKey. revert v. induction l as [|x l IH]; simpl; [discriminate|].
  intros v. destruct (String.eqb_spec (key x) k) as [Hk|Hne].
  - intros [= -> Hrest].
    assert (Hnone : findLast key k l = None).
    { apply findLast_none. intros Hin. apply in_map_iff in Hin.
      destruct Hin as [w [Hw Hin]].
      assert (Hf : In w (filter (fun v0 => String.eqb (key v0) k) l)).
      { apply filter_In. split; trivial. now apply String.eqb_eq. }
      rewrite Hrest in Hf. contradiction. }
    rewrite Hnone. unfold hasKey. now rewrite Hk, String.eqb_refl.
  - intros H. now rewrite (IH _ H).
Qed.

End KeyedFacts.

(** ** The file loop *)

Lemma mergeFiles_keyed s m l m' :
  keyed path m -> mergeFiles s m l = Ok m' -> keyed path m'.
Proof.
  revert m. induction l as [|f l IH]; simpl; intros m Hm.
  - now intros [= <-].
  - destruct (JsMap.get (path f) m); [destruct s|]; try discriminate;
      intros H; apply IH in H; trivial; now apply keyed_set.
Qed.

(** Only the [error] strategy throws. *)
Lemma mergeFiles_total s m l :
  s <> ErrorStrategy -> exists m', mergeFiles s m l = Ok m'.
Proof.
  intros Hs. revert m. induction l as [|f l IH]; simpl; intros m.
  - now exists m.
  - destruct (JsMap.get (path f) m); [destruct s|]; trivial; congruence.
Qed.

Lemma mergeFiles_keys s m l m' :
  mergeFiles s m l = Ok m' ->
  (forall k, In k (JsMap.keys m') <-> In k (JsMap.keys m) \/ In k (map path l))
  /\ (NoDup (JsMap.keys m) -> NoDup (JsMap.keys m')).
Proof.
  revert m. induction l as [|f l IH]; simpl; intros m.
  - intros [= <-]. split; [tauto | trivial].
  - destruct (JsMap.get (path f) m) as [e|] eqn:E.
    + assert (Hin : In (path f) (JsMap.keys m)) by (eapply get_some_in_keys; eauto).
      assert (Hk : JsMap.keys (JsMap.set (path f) f m) = JsMap.keys m)
        by (apply keys_set_present; congruence).
      destruct s; try discriminate; intros H; apply IH in H; destruct H as [H1 H2].
      * rewrite Hk in H1, H2. split; trivial.
        intros k. rewrite H1. intuition (subst; auto).
      * split; trivial. intros k. rewrite H1. intuition (subst; auto).
    + rewrite set_absent by exact E. intros H. apply IH in H. destruct H as [H1 H2].
      unfold JsMap.keys in *. rewrite map_app in H1, H2. simpl in *. split.
      * intros k. rewrite H1, in_app_iff. simpl. tauto.
      * intros Hnd. apply H2. apply get_none_iff in E.
        apply NoDup_app; trivial.
        -- constructor; [simpl; tauto | constructor].
        -- intros x Hx [<-|[]]. now apply E.
Qed.

Lemma mergeFiles_last_get m l m' p :
  mergeFiles LastWins m l = Ok m' ->
  JsMap.get p m' =
  match findLast path p l with Some f => Some f | None => JsMap.get p m end.
Proof.
  revert m. induction l as [|f l IH]; simpl; intros m.
  - now intros [= <-].
  - assert (Hstep : mergeFiles LastWins (JsMap.set (path f) f m) l = Ok m' ->
                    JsMap.get p m' =
                    match
                      match findLast path p l with
                      | Some w => Some w
                      | None => if hasKey path p f then Some f else None
                      end
                    with Some f0 => Some f0 | None => JsMap.get p m end).
    { intros H. rewrite (IH _ H). destruct (findLast path p l); trivial.
      unfold hasKey. destruct (String.eqb_spec (path f) p) as [<-|Hne].
      - apply get_set_same.
      - apply get_set_other. congruence. }
    destruct (JsMap.get (path f) m); exact Hstep.
Qed.

Lemma mergeFiles_first_get m l m' p :
  mergeFiles FirstWins m l = Ok m' ->
  JsMap.get p m' =
  match JsMap.get p m with Some f => Some f | None => findFirst path p l end.
Proof.
  unfold findFirst. revert m. induction l as [|f l IH]; simpl; intros m.
  - intros [= <-]. now destruct (JsMap.get p m).
  - destruct (JsMap.get (path f) m) as [e|] eqn:E; intros H; rewrite (IH _ H).
    + destruct (JsMap.get p m) eqn:Ep; trivial.
      unfold hasKey. destruct (String.eqb_spec (path f) p); [congruence | trivial].
    + unfold hasKey. destruct (String.eqb_spec (path f) p) as [<-|Hne].
      * now rewrite get_set_same, E.
      * rewrite get_set_other by congruence. reflexivity.
Qed.

(** Files at fresh, pairwise distinct paths are appended in order, under
    every strategy. *)
Lemma mergeFiles_fresh s m l :
  NoDup (map path l) ->
  (forall f, In f l -> JsMap.get (path f) m = None) ->
  mergeFiles s m l = Ok (m ++ byKey path l).
Proof.
  revert m. induction l as [|f l IH]; simpl; intros m Hnd Hfresh.
  - now rewrite app_nil_r.
  - inversion Hnd as [|? ? Hf Hl]; subst.
    rewrite (Hfresh f (or_introl eq_refl)).
    rewrite set_absent by (apply Hfresh; now left).
    rewrite IH; trivial.
    + now rewrite <- app_assoc.
    + intros g Hg. rewrite get_app_absent by auto. simpl.
      destruct (String.eqb_spec (path f) (path g)) as [Heq|]; trivial.
      exfalso. apply Hf. rewrite Heq. now apply in_map.
Qed.

(** ** Repeated paths and the [error] strategy *)

Lemma existsb_eqb_in x l : existsb (String.eqb x) l = true <-> In x l.
Proof.
  rewrite existsb_exists. split.
  - intros [y [Hy He]]. apply String.eqb_eq in He. now subst.
  - intros H. exists x. split; trivial. apply String.eqb_refl.
Qed.

Lemma mergeFiles_error m l :
  mergeFiles ErrorStrategy m l =
  match firstRepeatedFrom (JsMap.keys m) (map path l) with
  | Some q => Throw (fileConflict q)
  | None => Ok (m ++ byKey path l)
  end.
Proof.
  revert m. induction l as [|f l IH]; simpl; intros m.
  - now rewrite app_nil_r.
  - destruct (JsMap.get (path f) m) as [e|] eqn:E.
    + assert (Hin : In (path f) (JsMap.keys m)) by (eapply get_some_in_keys; eauto).
      apply existsb_eqb_in in Hin. now rewrite Hin.
    + assert (Hout : existsb (String.eqb (path f)) (JsMap.keys m) = false).
      { destruct (existsb (String.eqb (path f)) (JsMap.keys m)) eqn:Ex; trivial.
        apply existsb_eqb_in in Ex. apply get_none_iff in E. contradiction. }
      rewrite Hout, set_absent, IH by exact E.
      unfold JsMap.keys. rewrite map_app. simpl. now rewrite <- app_assoc.
Qed.

Lemma firstRepeatedFrom_none seen l :
  firstRepeatedFrom seen l = None <->
  NoDup l /\ (forall x, In x l -> ~ In x seen).
Proof.
  revert seen. induction l as [|x l IH]; simpl; intros seen.
  - split; [intros _; split; [constructor | tauto] | trivial].
  - destruct (existsb (String.eqb x) seen) eqn:Ex.
    + apply existsb_eqb_in in Ex. split; [discriminate|].
      intros [_ H]. exfalso. now apply (H x); [left|].
    + assert (Hx : ~ In x seen).
      { intros H. apply existsb_eqb_in in H. congruence. }
      rewrite IH. split.
      * intros [Hnd H]. split.
        -- constructor; trivial. intros Hin. apply (H x Hin).
           apply in_or_app. right. now left.
        -- intros y [<-|Hy]; trivial. intros Hs. apply (H y Hy).
           apply in_or_app. now left.
      * intros [Hnd H]. inversion Hnd as [|? ? Hxl Hl]; subst. split; trivial.
        intros y Hy Hin. apply in_app_or in Hin. destruct Hin as [Hin|[<-|[]]].
        -- now apply (H y); [right|].
        -- contradiction.
Qed.

(** A repeated element was seen or occurs twice. *)
Lemma firstRepeatedFrom_some seen l q :
  firstRepeatedFrom seen l = Some q ->
  exists l1 l2, l = l1 ++ q :: l2 /\ In q (seen ++ l1).
Proof.
  revert seen. induction l as [|x l IH]; simpl; intros seen; [discriminate|].
  destruct (existsb (String.eqb x) seen) eqn:Ex.
  - intros [= <-]. apply existsb_eqb_in in Ex. exists [], l. split; trivial.
    now rewrite app_nil_r.
  - intros H. apply IH in H. destruct H as [l1 [l2 [-> Hin]]].
    exists (x :: l1), l2. split; trivial. now rewrite <- app_assoc in Hin.
Qed.

(** ** The dependency loop *)

Lemma name_settled w o : name (settled w o) = name w.
Proof. unfold settled. now destruct (isFalse (dev w) || isFalse (dev o)). Qed.

Lemma version_settled w o : version (settled w o) = version w.
Proof. unfold settled. now destruct (isFalse (dev w) || isFalse (dev o)). Qed.

Lemma depType_settled w o : depType (settled w o) = depType w.
Proof. unfold settled. now destruct (isFalse (dev w) || isFalse (dev o)). Qed.

Lemma dev_settled_false w o :
  isFalse (dev w) || isFalse (dev o) = true -> dev (settled w o) = Some false.
Proof. unfold settled. now intros ->. Qed.

Lemma settled_unchanged w o :
  isFalse (dev o) = false -> settled w o = w.
Proof.
  unfold settled. intros ->. rewrite orb_false_r.
  destruct w as [n v ty [[|]|]]; reflexivity.
Qed.

Lemma name_mergedEntry e d : name e = name d -> name (mergedEntry e d) = name d.
Proof.
  unfold mergedEntry. intros H.
  destruct (compareSemver (version d) (version e) >? 0); now rewrite name_settled.
Qed.

Lemma dev_mergedEntry_false e d :
  isFalse (dev e) || isFalse (dev d) = true -> dev (mergedEntry e d) = Some false.
Proof.
  unfold mergedEntry. intros H.
  destruct (compareSemver (version d) (version e) >? 0);
    apply dev_settled_false; trivial. now rewrite orb_comm.
Qed.

Lemma set_set (V : Type) (m : JsMap.t V) k v v' :
  JsMap.set k v (JsMap.set k v' m) = JsMap.set k v m.
Proof.
  induction m as [|[k0 v0] m IH]; simpl.
  - now rewrite String.eqb_refl.
  - destruct (String.eqb k0 k) eqn:E; simpl; rewrite E; trivial. now rewrite IH.
Qed.

Lemma set_get (V : Type) (m : JsMap.t V) k v :
  JsMap.get k m = Some v -> JsMap.set k v m = m.
Proof.
  induction m as [|[k0 v0] m IH]; simpl; [discriminate|].
  destruct (String.eqb k0 k).
  - now intros [= ->].
  - intros H. now rewrite IH.
Qed.

(** One turn of the loop, read at the key it touches. *)
Lemma mergeDependency_present m dep existing :
  JsMap.get (name dep) m = Some existing ->
  mergeDependency m dep = JsMap.set (name dep) (mergedEntry existing dep) m.
Proof.
  intros E. unfold mergeDependency, mergedEntry, settled. rewrite E.
  destruct (compareSemver (version dep) (version existing) >? 0).
  - rewrite get_set_same, (orb_comm (isFalse (dev dep))).
    destruct (isFalse (dev existing) || isFalse (dev dep)); trivial.
    apply set_set.
  - rewrite E. destruct (isFalse (dev existing) || isFalse (dev dep)); trivial.
    symmetry. now apply set_get.
Qed.

Lemma mergeDependency_absent m dep :
  JsMap.get (name dep) m = None ->
  mergeDependency m dep = m ++ [(name dep, dep)].
Proof.
  intros E. unfold mergeDependency. rewrite E. now apply set_absent.
Qed.

Lemma mergeDependency_get m dep n :
  JsMap.get n (mergeDependency m dep) =
  if String.eqb (name dep) n then mergedInto (JsMap.get n m) dep else JsMap.get n m.
Proof.
  unfold mergedInto. destruct (JsMap.get (name dep) m) as [e|] eqn:E.
  - rewrite (mergeDependency_present _ _ E).
    destruct (String.eqb_spec (name dep) n) as [<-|Hne].
    + now rewrite get_set_same, E.
    + apply get_set_other. congruence.
  - unfold mergeDependency. rewrite E.
    destruct (String.eqb_spec (name dep) n) as [<-|Hne].
    + now rewrite get_set_same, E.
    + apply get_set_other. congruence.
Qed.

Lemma mergeDependency_keyed m dep : keyed name m -> keyed name (mergeDependency m dep).
Proof.
  intros Hm. destruct (JsMap.get (name dep) m) as [e|] eqn:E.
  - rewrite (mergeDependency_present _ _ E). apply keyed_set; trivial.
    apply name_mergedEntry. rewrite (keyed_get _ Hm) in E.
    now apply findFirst_some in E.
  - unfold mergeDependency. rewrite E. now apply keyed_set.
Qed.

Lemma mergeDependency_keys m dep :
  NoDup (JsMap.keys m) -> NoDup (JsMap.keys (mergeDependency m dep)).
Proof.
  intros Hnd. destruct (JsMap.get (name dep) m) as [e|] eqn:E.
  - rewrite (mergeDependency_present _ _ E), keys_set_present; trivial. congruence.
  - rewrite (mergeDependency_absent _ _ E). unfold JsMap.keys. rewrite map_app. simpl.
    apply get_none_iff in E. apply NoDup_app; trivial.
    + constructor; [simpl; tauto | constructor].
    + intros x Hx [<-|[]]. now apply E.
Qed.

Lemma mergeDependencies_loop_keyed l m :
  keyed name m -> keyed name (fold_left mergeDependency l m).
Proof.
  revert m. induction l as [|d l IH]; simpl; intros m Hm; trivial.
  apply IH. now apply mergeDependency_keyed.
Qed.

Lemma mergeDependencies_loop_keys l m :
  NoDup (JsMap.keys m) -> NoDup (JsMap.keys (fold_left mergeDependency l m)).
Proof.
  revert m. induction l as [|d l IH]; simpl; intros m Hm; trivial.
  apply IH. now apply mergeDependency_keys.
Qed.

(** The entry of package [n] after the loop: the entries named [n], folded
    in order. *)
Lemma mergeDependencies_loop_get l m n :
  JsMap.get n (fold_left mergeDependency l m) =
  fold_left mergedInto (named n l) (JsMap.get n m).
Proof.
  unfold named, entriesAt, hasKey.
  revert m. induction l as [|d l IH]; simpl; intros m; trivial.
  rewrite IH, mergeDependency_get.
  now destruct (String.eqb (name d) n).
Qed.

(** Dependencies on fresh, pairwise distinct packages are appended in order. *)
Lemma mergeDependencies_loop_fresh l m :
  NoDup (map name l) ->
  (forall d, In d l -> JsMap.get (name d) m = None) ->
  fold_left mergeDependency l m = m ++ byKey name l.
Proof.
  revert m. induction l as [|d l IH]; simpl; intros m Hnd Hfresh.
  - now rewrite app_nil_r.
  - inversion Hnd as [|? ? Hd Hl]; subst.
    rewrite mergeDependency_absent by (apply Hfresh; now left).
    rewrite IH; trivial.
    + now rewrite <- app_assoc.
    + intros g Hg. rewrite get_app_absent by auto. simpl.
      destruct (String.eqb_spec (name d) (name g)) as [Heq|]; trivial.
      exfalso. apply Hd. rewrite Heq. now apply in_map.
Qed.

Lemma mergeDependencies_nodup a b : NoDup (map name (mergeDependencies a b)).
Proof.
  unfold mergeDependencies.
  rewrite <- keyed_keys by (apply mergeDependencies_loop_keyed; constructor).
  apply mergeDependencies_loop_keys. constructor.
Qed.

(** The merged list holds, for a package, exactly the folded entry. *)
Lemma mergeDependencies_named a b n r :
  fold_left mergedInto (named n (a ++ b)) None = Some r ->
  named n (mergeDependencies a b) = [r].
Proof.
  intros H. apply entriesAt_nodup; [apply mergeDependencies_nodup|].
  unfold mergeDependencies.
  rewrite <- keyed_get by (apply mergeDependencies_loop_keyed; constructor).
  now rewrite mergeDependencies_loop_get.
Qed.

Lemma mergeDependencies_fresh l :
  NoDup (map name l) -> mergeDependencies l [] = l.
Proof.
  intros Hnd. unfold mergeDependencies. rewrite app_nil_r.
  rewrite mergeDependencies_loop_fresh; trivial. simpl. apply values_byKey.
Qed.

(** Once an entry says [dev: false], every later entry keeps it. *)
Lemma mergedInto_dev_false l acc e :
  acc = Some e -> dev e = Some false ->
  exists r, fold_left mergedInto l acc = Some r /\ dev r = Some false.
Proof.
  revert acc e. induction l as [|d l IH]; simpl; intros acc e -> He.
  - now exists e.
  - eapply IH; [reflexivity|]. apply dev_mergedEntry_false. now rewrite He.
Qed.

Lemma mergedInto_reaches_false l acc d :
  In d l -> dev d = Some false ->
  exists r, fold_left mergedInto l acc = Some r /\ dev r = Some false.
Proof.
  revert acc. induction l as [|x l IH]; simpl; intros acc Hin Hd; [contradiction|].
  destruct Hin as [->|Hin].
  - eapply mergedInto_dev_false; [reflexivity|].
    destruct acc as [e|]; trivial.
    apply dev_mergedEntry_false. rewrite Hd. apply orb_true_r.
  - now apply IH.
Qed.

(** ** Version comparison *)

Ltac compare_components a b :=
  unfold tupleLt, numericTuple, compareSemver;
  destruct (parseSemver a) as [a1 a2 a3 pa], (parseSemver b) as [b1 b2 b3 pb];
  cbn [major minor patch prerelease]; rewrite !Z.gtb_ltb;
  destruct (Z.eqb_spec a1 b1), (Z.eqb_spec a2 b2), (Z.eqb_spec a3 b3);
  destruct (Z.ltb_spec b1 a1), (Z.ltb_spec b2 a2), (Z.ltb_spec b3 a3);
  cbn [negb]; intros; try reflexivity; lia.

Lemma compareSemver_greater a b :
  tupleLt (numericTuple b) (numericTuple a) -> compareSemver a b = 1.
Proof. compare_components a b. Qed.

Lemma compareSemver_smaller a b :
  tupleLt (numericTuple a) (numericTuple b) -> compareSemver a b = -1.
Proof. compare_components a b. Qed.

Lemma compareSemver_same_tuple a b :
  numericTuple a = numericTuple b ->
  compareSemver a b =
  if isPrerelease a && negb (isPrerelease b) then -1
  else if negb (isPrerelease a) && isPrerelease b then 1
  else 0.
Proof.
  unfold numericTuple, compareSemver, isPrerelease.
  destruct (parseSemver a) as [a1 a2 a3 pa], (parseSemver b) as [b1 b2 b3 pb].
  cbn [major minor patch prerelease]. intros [= -> -> ->].
  now rewrite !Z.eqb_refl.
Qed.

(** Two entries of one package: which one [mergedEntry] keeps. *)
Lemma mergedEntry_later_wins e d :
  compareSemver (version d) (version e) = 1 -> mergedEntry e d = settled d e.
Proof. unfold mergedEntry. now intros ->. Qed.

Lemma mergedEntry_existing_kept e d :
  compareSemver (version d) (version e) <= 0 -> mergedEntry e d = settled e d.
Proof.
  unfold mergedEntry. intros H.
  destruct (Z.gtb_spec (compareSemver (version d) (version e)) 0); trivial. lia.
Qed.

Lemma compareSemver_rank a b :
  (compareSemver a b = 1 <-> rankLt (rank b) (rank a))
  /\ (compareSemver a b <= 0 <-> ~ rankLt (rank b) (rank a)).
Proof.
  unfold rankLt, rank, compareSemver.
  destruct (parseSemver a) as [a1 a2 a3 pa], (parseSemver b) as [b1 b2 b3 pb].
  cbn [major minor patch prerelease]. rewrite !Z.gtb_ltb.
  destruct (Z.eqb_spec a1 b1), (Z.eqb_spec a2 b2), (Z.eqb_spec a3 b3);
    destruct (Z.ltb_spec b1 a1), (Z.ltb_spec b2 a2), (Z.ltb_spec b3 a3);
    destruct (truthy pa), (truthy pb); cbn [negb andb]; lia.
Qed.

Lemma rankLt_trans x y z : rankLt x y -> rankLt y z -> rankLt x z.
Proof.
  destruct x as [[[a1 b1] c1] d1], y as [[[a2 b2] c2] d2], z as [[[a3 b3] c3] d3].
  unfold rankLt. lia.
Qed.

Lemma rankLt_le_trans x y z : rankLt y x -> ~ rankLt y z -> rankLt z x.
Proof.
  destruct x as [[[a1 b1] c1] d1], y as [[[a2 b2] c2] d2], z as [[[a3 b3] c3] d3].
  unfold rankLt. lia.
Qed.

Lemma compareSemver_positive a b : compareSemver a b > 0 -> compareSemver a b = 1.
Proof.
  unfold compareSemver.
  repeat match goal with |- context [if ?c then _ else _] => destruct c end; lia.
Qed.

(** An entry that beats the winner so far beats all that came before. *)
Lemma compareSemver_beats_earlier vd vw vx :
  compareSemver vd vw = 1 ->
  compareSemver vw vx = 1 \/ compareSemver vx vw <= 0 \/ vx = vw ->
  compareSemver vd vx = 1.
Proof.
  intros Hd Hx. apply compareSemver_rank. apply compareSemver_rank in Hd.
  destruct Hx as [Hx|[Hx|Hx]]; [| |now subst].
  - apply compareSemver_rank in Hx. eapply rankLt_trans; eauto.
  - apply compareSemver_rank in Hx. eapply rankLt_le_trans; eauto.
Qed.

Lemma keeps_settled w o : keeps (settled w o) w.
Proof.
  unfold keeps. now rewrite name_settled, version_settled, depType_settled.
Qed.

Lemma keeps_trans r e w : keeps r e -> keeps e w -> keeps r w.
Proof. unfold keeps. intros [? [? ?]] [? [? ?]]. repeat split; congruence. Qed.

(** The loop over the entries of one package: what it holds after [seen]
    is an entry that beats all before it and that none after it beats. *)
Lemma mergedInto_winner todo :
  forall seen e before w after,
    seen = before ++ w :: after -> keeps e w ->
    (forall d, In d before -> compareSemver (version w) (version d) = 1) ->
    (forall d, In d after -> compareSemver (version d) (version w) <= 0) ->
    exists r before' w' after',
      fold_left mergedInto todo (Some e) = Some r
      /\ seen ++ todo = before' ++ w' :: after'
      /\ keeps r w'
      /\ (forall d, In d before' -> compareSemver (version w') (version d) = 1)
      /\ (forall d, In d after' -> compareSemver (version d) (version w') <= 0).
Proof.
  induction todo as [|d todo IH]; intros seen e before w after Hseen He Hb Ha.
  - exists e, before, w, after. rewrite app_nil_r. auto.
  - simpl. unfold mergedInto at 2.
    replace (seen ++ d :: todo) with ((seen ++ [d]) ++ todo)
      by (now rewrite <- app_assoc).
    assert (Hv : version e = version w) by apply He.
    destruct (Z.gtb_spec (compareSemver (version d) (version e)) 0) as [Hgt|Hle].
    + assert (Hone : compareSemver (version d) (version w) = 1)
        by (rewrite <- Hv; apply compareSemver_positive; lia).
      apply (IH (seen ++ [d]) (mergedEntry e d) seen d []).
      * reflexivity.
      * rewrite mergedEntry_later_wins by (now rewrite Hv). apply keeps_settled.
      * intros x Hx. eapply compareSemver_beats_earlier; [exact Hone|].
        rewrite Hseen in Hx. apply in_app_or in Hx.
        destruct Hx as [Hx|[Hx|Hx]]; [auto | subst; auto | auto].
      * intros x [].
    + apply (IH (seen ++ [d]) (mergedEntry e d) before w (after ++ [d])).
      * rewrite Hseen, <- app_assoc. reflexivity.
      * rewrite mergedEntry_existing_kept by exact Hle.
        eapply keeps_trans; [apply keeps_settled | exact He].
      * exact Hb.
      * intros x Hx. apply in_app_or in Hx. destruct Hx as [Hx|[<-|[]]]; auto.
        now rewrite <- Hv.
Qed.

Lemma named_app n a b : named n (a ++ b) = named n a ++ named n b.
Proof. apply filter_app. Qed.

(** Two lists of one entry each, on the same package. *)
Lemma mergeDependencies_pair d1 d2 :
  name d1 = name d2 -> mergeDependencies [d1] [d2] = [mergedEntry d1 d2].
Proof.
  intros Hn. unfold mergeDependencies. simpl.
  assert (H1 : mergeDependency JsMap.empty d1 = [(name d2, d1)])
    by (now rewrite <- Hn).
  rewrite H1, (@mergeDependency_present _ d2 d1) by (simpl; now rewrite String.eqb_refl).
  simpl. now rewrite String.eqb_refl.
Qed.

Lemma toNumber_safe n : Z.abs n < 2 ^ 53 -> toNumber n = n.
Proof.
  intros H. unfold toNumber. destruct (Z.ltb_spec (Z.abs n) (2 ^ 53)); [reflexivity | lia].
Qed.

Lemma parseIntOrZero_written p :
  parseIntOrZero p = toNumber (match mathInt p with Some n => n | None => 0 end).
Proof. unfold parseIntOrZero, parseInt. now destruct (mathInt p). Qed.

Lemma numericTuple_written v :
  numericTuple v
  = let '(a, b, c) := writtenTuple v in (toNumber a, toNumber b, toNumber c).
Proof.
  unfold numericTuple, writtenTuple, parseSemver. cbn [major minor patch].
  set (l := split "." _).
  rewrite (map_ext parseIntOrZero
             (fun p => toNumber (match mathInt p with Some n => n | None => 0 end))
             parseIntOrZero_written).
  rewrite <- (map_map (fun p => match mathInt p with Some n => n | None => 0 end) toNumber).
  set (written := map _ l).
  assert (H : forall i, nth i (map toNumber written) 0 = toNumber (nth i written 0))
    by (intros i; exact (map_nth toNumber written 0 i)).
  now rewrite !H.
Qed.

(** C3, as the code has it. Versions compare by the (major, minor, patch)
    tuple that [parseSemver] reads after the leading range operators, then
    release over prerelease; a component is the Number [parseInt] makes of
    it, the written integer while that is below [2 ^ 53] in size and the
    nearest double beyond, so that components written differently can be
    equal.  For any two dependency lists that both name a package, the
    merged list holds one entry of it, with the name, type and version
    string (operator prefix included) of the earliest entry that none
    outranks.  So when each list holds one entry of the package: the entry
    of the strictly greater tuple wins; on equal tuples a release beats a
    prerelease; otherwise the earlier entry stays.  The kept entry changes
    in its [dev] flag only (see [settled]).  Merging lodash ["^3.0.0"] with
    ["^4.0.0"] gives ["^4.0.0"], and ["^1.0.0-beta.1"] with ["^1.0.0"] gives
    ["^1.0.0"] in either order. *)
Theorem mergeDependencies_semver_precedence :
  (forall va vb : string,
      (tupleLt (numericTuple vb) (numericTuple va) -> compareSemver va vb = 1)
      /\ (tupleLt (numericTuple va) (numericTuple vb) -> compareSemver va vb = -1)
      /\ (numericTuple va = numericTuple vb ->
          compareSemver va vb
          = if isPrerelease va && negb (isPrerelease vb) then -1
            else if negb (isPrerelease va) && isPrerelease vb then 1
            else 0))
  /\ (forall (a b : list Dependency) (n : string),
         In n (map name a) -> In n (map name b) ->
         exists r before w after,
           named n (mergeDependencies a b) = [r]
           /\ named n (a ++ b) = before ++ w :: after
           /\ keeps r w
           /\ (forall d, In d before -> compareSemver (version w) (version d) = 1)
           /\ (forall d, In d after -> compareSemver (version d) (version w) <= 0))
  /\ (forall (a b : list Dependency) (n : string) (da db : Dependency),
         named n a = [da] -> named n b = [db] ->
         exists r,
           named n (mergeDependencies a b) = [r] /\
           (tupleLt (numericTuple (version da)) (numericTuple (version db)) ->
            r = settled db da /\ version r = version db) /\
           (tupleLt (numericTuple (version db)) (numericTuple (version da)) ->
            r = settled da db /\ version r = version da) /\
           (numericTuple (version da) = numericTuple (version db) ->
            (isPrerelease (version da) = true -> isPrerelease (version db) = false ->
             r = settled db da /\ version r = version db) /\
            (isPrerelease (version da) = false -> isPrerelease (version db) = true ->
             r = settled da db /\ version r = version da) /\
            (isPrerelease (version da) = isPrerelease (version db) ->
             r = settled da db /\ version r = version da)))
  /\ map version (mergeDependencies [mkDep "lodash" "^3.0.0" None None]
                                     [mkDep "lodash" "^4.0.0" None None]) = ["^4.0.0"]
  /\ (forall n, map version (mergeDependencies [mkDep n "^1.0.0-beta.1" None None]
                                                [mkDep n "^1.0.0" None None]) = ["^1.0.0"])
  /\ (forall n, map version (mergeDependencies [mkDep n "^1.0.0" None None]
                                                [mkDep n "^1.0.0-beta.1" None None]) = ["^1.0.0"])
  /\ (forall v,
         numericTuple v
         = let '(a, b, c) := writtenTuple v in (toNumber a, toNumber b, toNumber c))
  /\ (forall n, Z.abs n < 2 ^ 53 -> toNumber n = n).
Proof.
  split; [|split; [|split; [|split; [reflexivity|split; [|split; [|split]]]]]].
  - intros va vb. split; [apply compareSemver_greater|].
    split; [apply compareSemver_smaller | apply compareSemver_same_tuple].
  - intros a b n Ha _.
    destruct (named n (a ++ b)) as [|d0 todo] eqn:E.
    + exfalso. apply in_map_iff in Ha. destruct Ha as [d [Hn Hd]].
      assert (Hin : In d (named n (a ++ b))).
      { apply filter_In. split; [apply in_or_app; now left|].
        unfold hasKey. now apply String.eqb_eq. }
      rewrite E in Hin. contradiction.
    + destruct (@mergedInto_winner todo [d0] d0 [] d0 [] eq_refl)
        as [r [before [w [after [Hr [Hsplit [Hk [Hb Ha']]]]]]]];
        try (intros x []).
      { repeat split. }
      exists r, before, w, after. repeat split; try apply Hk; trivial.
      apply mergeDependencies_named. rewrite E. exact Hr.
  - intros a b n da db Ha Hb.
    exists (mergedEntry da db). split.
    + apply mergeDependencies_named. rewrite named_app, Ha, Hb. reflexivity.
    + split; [|split].
      * intros Hlt. rewrite mergedEntry_later_wins.
        -- split; [reflexivity | apply version_settled].
        -- now apply compareSemver_greater.
      * intros Hlt. rewrite mergedEntry_existing_kept.
        -- split; [reflexivity | apply version_settled].
        -- rewrite compareSemver_smaller by exact Hlt. lia.
      * intros Heq. symmetry in Heq. split; [|split].
        -- intros Ha' Hb'. rewrite mergedEntry_later_wins.
           ++ split; [reflexivity | apply version_settled].
           ++ rewrite (compareSemver_same_tuple Heq), Ha', Hb'. reflexivity.
        -- intros Ha' Hb'. rewrite mergedEntry_existing_kept.
           ++ split; [reflexivity | apply version_settled].
           ++ rewrite (compareSemver_same_tuple Heq), Ha', Hb'. simpl. lia.
        -- intros Hsame. rewrite mergedEntry_existing_kept.
           ++ split; [reflexivity | apply version_settled].
           ++ rewrite (compareSemver_same_tuple Heq), Hsame.
              destruct (isPrerelease (version db)); simpl; lia.
  - intros n. now rewrite mergeDependencies_pair.
  - intros n. now rewrite mergeDependencies_pair.
  - apply numericTuple_written.
  - apply toNumber_safe.
Qed.

(** Against C3 as the specification words it: of two entries of one
    package the second is written with the strictly greater tuple, and the
    merge keeps the first: both patch numbers are the same Number. *)
Lemma mergeDependencies_semver_precedence_rounds :
  tupleLt (writtenTuple "1.0.9007199254740992") (writtenTuple "1.0.9007199254740993")
  /\ compareSemver "1.0.9007199254740993" "1.0.9007199254740992" = 0
  /\ map version
        (mergeDependencies [mkDep "big" "1.0.9007199254740992" None None]
                           [mkDep "big" "1.0.9007199254740993" None None])
     = ["1.0.9007199254740992"].
Proof.
  split; [|split].
  - vm_compute. right. right. repeat split.
  - vm_compute. reflexivity.
  - vm_compute. reflexivity.
Qed.

Lemma in_named n d l : In d l -> name d = n -> In d (named n l).
Proof.
  intros Hin Hn. apply filter_In. split; trivial.
  unfold hasKey. now apply String.eqb_eq.
Qed.

(** C7. If any entry of a package, in either list, says [dev: false], the
    merged entry of that package says [dev: false], whichever version wins;
    merging [{dev: true}] with [{dev: false}] of one package gives
    [dev: false]. *)
Theorem mergeDependencies_dev_false_wins :
  (forall (a b : list Dependency) (d : Dependency),
      In d (a ++ b) -> dev d = Some false ->
      exists r, named (name d) (mergeDependencies a b) = [r] /\ dev r = Some false)
  /\ (forall n v1 v2 t1 t2,
        exists r,
          mergeDependencies [mkDep n v1 t1 (Some true)] [mkDep n v2 t2 (Some false)] = [r]
          /\ dev r = Some false).
Proof.
  split.
  - intros a b d Hin Hd.
    destruct (mergedInto_reaches_false (named (name d) (a ++ b)) None d)
      as [r [Hr Hdev]]; trivial.
    + now apply in_named.
    + exists r. split; trivial. now apply mergeDependencies_named.
  - intros n v1 v2 t1 t2.
    rewrite mergeDependencies_pair by reflexivity.
    eexists. split; [reflexivity|]. now apply dev_mergedEntry_false.
Qed.

Lemma mergeDependencies_dev_false_wins_witness :
  In (mkDep "pkg" "^1.0.0" None (Some false))
     ([mkDep "pkg" "^2.0.0" None (Some true)] ++ [mkDep "pkg" "^1.0.0" None (Some false)])
  /\ exists r,
       named "pkg" (mergeDependencies [mkDep "pkg" "^2.0.0" None (Some true)]
                                      [mkDep "pkg" "^1.0.0" None (Some false)]) = [r]
       /\ dev r = Some false.
Proof.
  assert (Hin : In (mkDep "pkg" "^1.0.0" None (Some false))
                   ([mkDep "pkg" "^2.0.0" None (Some true)]
                      ++ [mkDep "pkg" "^1.0.0" None (Some false)]))
    by (simpl; auto).
  split; [exact Hin|].
  exact (proj1 mergeDependencies_dev_false_wins _ _ _ Hin eq_refl).
Defined.

(** ** Merging generated code *)

Lemma values_at_of_get (V : Type) (key : V -> string) (m : JsMap.t V) k v :
  keyed key m -> NoDup (JsMap.keys m) -> JsMap.get k m = Some v ->
  entriesAt key k (JsMap.values m) = [v].
Proof.
  intros Hk Hnd Hget. apply entriesAt_nodup.
  - now rewrite <- keyed_keys.
  - now rewrite <- keyed_get.
Qed.

Lemma keyed_empty (V : Type) (key : V -> string) : keyed key (@JsMap.empty V).
Proof. constructor. Qed.

(** The shape of a successful merge. *)
Lemma mergeGeneratedCode_ok a b options r :
  mergeGeneratedCode a b options = Ok r ->
  exists fileMap,
    mergeFiles (strategyOf options) JsMap.empty (files a ++ files b) = Ok fileMap
    /\ r = mkCode (JsMap.values fileMap)
                  (mergeDependencies (dependencies a) (dependencies b)) None
    /\ keyed path fileMap /\ NoDup (JsMap.keys fileMap).
Proof.
  unfold mergeGeneratedCode.
  destruct (mergeFiles (strategyOf options) JsMap.empty (files a ++ files b))
    as [fileMap|msg] eqn:E; [|discriminate].
  intros [= <-]. exists fileMap. repeat split.
  - eapply mergeFiles_keyed; [apply keyed_empty | exact E].
  - apply (mergeFiles_keys _ _ _ E). constructor.
Qed.

Lemma mergeGeneratedCode_total a b options :
  strategyOf options <> ErrorStrategy -> exists r, mergeGeneratedCode a b options = Ok r.
Proof.
  intros Hs. unfold mergeGeneratedCode.
  destruct (mergeFiles_total JsMap.empty (files a ++ files b) Hs) as [m' ->].
  eauto.
Qed.

(** A merge never leaves two files at one path, and loses no path. *)
Lemma mergeGeneratedCode_paths a b options r :
  mergeGeneratedCode a b options = Ok r ->
  NoDup (paths r) /\ (forall p, In p (paths r) <-> In p (paths a) \/ In p (paths b)).
Proof.
  intros H. destruct (mergeGeneratedCode_ok _ _ _ H) as [m [Hm [-> [Hk Hnd]]]].
  unfold paths. simpl. rewrite <- (keyed_keys Hk). split; trivial.
  intros p. rewrite (proj1 (mergeFiles_keys _ _ _ Hm) p), map_app, in_app_iff.
  simpl. tauto.
Qed.

Lemma mergeGeneratedCode_file_at a b options r p f :
  mergeGeneratedCode a b options = Ok r ->
  (strategyOf options = LastWins -> findLast path p (files a ++ files b) = Some f) ->
  (strategyOf options = FirstWins -> findFirst path p (files a ++ files b) = Some f) ->
  strategyOf options <> ErrorStrategy ->
  filesAt p (files r) = [f].
Proof.
  intros H Hlast Hfirst Hs.
  destruct (mergeGeneratedCode_ok _ _ _ H) as [m [Hm [-> [Hk Hnd]]]]. simpl.
  apply values_at_of_get; trivial.
  destruct (strategyOf options); [| |congruence].
  - rewrite (mergeFiles_last_get _ _ p Hm), Hlast; trivial.
  - rewrite (mergeFiles_first_get _ _ p Hm), Hfirst; trivial.
Qed.

Lemma entriesAt_single_in (V : Type) (key : V -> string) k l v :
  entriesAt key k l = [v] -> In v l.
Proof.
  intros H. assert (Hin : In v (entriesAt key k l)) by (rewrite H; now left).
  now apply filter_In in Hin.
Qed.

Lemma sole_app_l (V : Type) (key : V -> string) v l l' :
  sole key v l -> ~ In (key v) (map key l') -> sole key v (l ++ l').
Proof.
  intros Hs Hout w Hw Hk. apply in_app_or in Hw. destruct Hw as [Hw|Hw].
  - now apply Hs.
  - exfalso. apply Hout. rewrite <- Hk. now apply in_map.
Qed.

Lemma sole_app_r (V : Type) (key : V -> string) v l l' :
  sole key v l' -> ~ In (key v) (map key l) -> sole key v (l ++ l').
Proof.
  intros Hs Hout w Hw Hk. apply in_app_or in Hw. destruct Hw as [Hw|Hw].
  - exfalso. apply Hout. rewrite <- Hk. now apply in_map.
  - now apply Hs.
Qed.

(** A file that is alone at its path among all the files merged is kept. *)
Lemma mergeGeneratedCode_sole_kept a b options r f :
  strategyOf options <> ErrorStrategy ->
  mergeGeneratedCode a b options = Ok r ->
  In f (files a ++ files b) -> sole path f (files a ++ files b) ->
  In f (files r).
Proof.
  intros Hs H Hin Hsole.
  apply (@entriesAt_single_in _ path (path f)).
  eapply mergeGeneratedCode_file_at; [exact H | intros _ | intros _ | exact Hs].
  - now apply sole_findLast.
  - now apply sole_findFirst.
Qed.

(** C4, as the code has it. When [a] and [b] both hold a file at path [p],
    the merge holds exactly one file at [p]: under last-wins (the default)
    the last file of [b] at [p], under first-wins the first file of [a] at
    [p]; and a file whose path occurs in one input only, and once there, is
    in the result unchanged. *)
Theorem mergeGeneratedCode_same_path :
  forall (a b : GeneratedCode) (p : string),
    In p (paths a) -> In p (paths b) ->
    (exists r fb,
        mergeGeneratedCode a b noOptions = Ok r
        /\ mergeGeneratedCode a b (withStrategy LastWins) = Ok r
        /\ findLast path p (files b) = Some fb
        /\ filesAt p (files r) = [fb])
    /\ (exists r fa,
           mergeGeneratedCode a b (withStrategy FirstWins) = Ok r
           /\ findFirst path p (files a) = Some fa
           /\ filesAt p (files r) = [fa])
    /\ (forall options r f,
           strategyOf options <> ErrorStrategy ->
           mergeGeneratedCode a b options = Ok r ->
           (In f (files a) /\ ~ In (path f) (paths b) /\ sole path f (files a))
           \/ (In f (files b) /\ ~ In (path f) (paths a) /\ sole path f (files b)) ->
           In f (files r)).
Proof.
  intros a b p Ha Hb. split; [|split].
  - destruct (@mergeGeneratedCode_total a b noOptions) as [r Hr]; [discriminate|].
    destruct (findLast path p (files b)) as [fb|] eqn:E.
    + exists r, fb. repeat split; trivial.
      eapply mergeGeneratedCode_file_at; [exact Hr | intros _ | | ]; try discriminate.
      now rewrite findLast_app, E.
    + apply findLast_none in E. contradiction.
  - destruct (@mergeGeneratedCode_total a b (withStrategy FirstWins)) as [r Hr];
      [discriminate|].
    destruct (findFirst path p (files a)) as [fa|] eqn:E.
    + exists r, fa. repeat split; trivial.
      eapply mergeGeneratedCode_file_at; [exact Hr | | intros _ | ]; try discriminate.
      now rewrite findFirst_app, E.
    + apply findFirst_none in E. contradiction.
  - intros options r f Hs Hr [[Hin [Hout Hsole]]|[Hin [Hout Hsole]]];
      (eapply mergeGeneratedCode_sole_kept; [exact Hs | exact Hr | | ]).
    + apply in_or_app. now left.
    + now apply sole_app_l.
    + apply in_or_app. now right.
    + now apply sole_app_r.
Qed.

(** C2, as the code has it. For [a] with pairwise distinct file paths and
    pairwise distinct dependency names, merging [a] with the empty code
    gives [a]'s files, in order, and [a]'s dependencies, under every file
    strategy; the result carries no metadata. *)
Theorem mergeGeneratedCode_empty_right :
  forall (a : GeneratedCode) (options : MergeOptions),
    NoDup (paths a) -> NoDup (map name (dependencies a)) ->
    mergeGeneratedCode a emptyCode options
    = Ok (mkCode (files a) (dependencies a) None).
Proof.
  intros a options Hp Hd. unfold mergeGeneratedCode. simpl.
  rewrite app_nil_r, mergeFiles_fresh by (trivial; reflexivity).
  simpl. now rewrite values_byKey, mergeDependencies_fresh.
Qed.

Lemma mergeGeneratedCode_empty_right_witness :
  NoDup (paths (mkCode [createFile "a.ts" "A"; createFile "b.ts" "B"]
                       [mkDep "zod" "^3.0.0" None None] None))
  /\ NoDup (map name [mkDep "zod" "^3.0.0" None None])
  /\ mergeGeneratedCode (mkCode [createFile "a.ts" "A"; createFile "b.ts" "B"]
                                [mkDep "zod" "^3.0.0" None None] None)
                        emptyCode (withStrategy FirstWins)
     = Ok (mkCode [createFile "a.ts" "A"; createFile "b.ts" "B"]
                  [mkDep "zod" "^3.0.0" None None] None).
Proof.
  assert (Hp : NoDup (paths (mkCode [createFile "a.ts" "A"; createFile "b.ts" "B"]
                                    [mkDep "zod" "^3.0.0" None None] None))).
  { repeat constructor; simpl; intuition discriminate. }
  assert (Hd : NoDup (map name [mkDep "zod" "^3.0.0" None None])).
  { repeat constructor; simpl; tauto. }
  split; [exact Hp | split; [exact Hd|]].
  exact (mergeGeneratedCode_empty_right _ (withStrategy FirstWins) Hp Hd).
Defined.

(** Against C2 as the specification words it: the merge drops the metadata
    of [a], and it merges the repeats inside [a]. *)
Lemma mergeGeneratedCode_empty_right_changes :
  (forall options,
      mergeGeneratedCode codeWithMetadata emptyCode options
      = Ok (mkCode [createFile "a.ts" "A"] [mkDep "zod" "^3.0.0" None None] None)
      /\ mergeGeneratedCode codeWithMetadata emptyCode options <> Ok codeWithMetadata)
  /\ (mergeGeneratedCode codeWithRepeats emptyCode (withStrategy LastWins)
      = Ok (mkCode [createFile "a.ts" "two"] [mkDep "zod" "^4.0.0" None None] None)
      /\ mergeGeneratedCode codeWithRepeats emptyCode (withStrategy FirstWins)
        = Ok (mkCode [createFile "a.ts" "one"] [mkDep "zod" "^4.0.0" None None] None)
      /\ mergeGeneratedCode codeWithRepeats emptyCode (withStrategy LastWins)
        <> Ok codeWithRepeats
      /\ mergeGeneratedCode codeWithRepeats emptyCode (withStrategy FirstWins)
        <> Ok codeWithRepeats).
Proof.
  split.
  - intros [[[| |]|]]; split; try reflexivity; discriminate.
  - repeat split; try reflexivity; discriminate.
Qed.

(** ** The [error] strategy *)

Lemma prefix_append p s : String.prefix p (p ++ s)%string = true.
Proof.
  induction p as [|c p IH]; simpl.
  - now destruct s.
  - destruct (ascii_dec c c); [exact IH | congruence].
Qed.

Lemma includes_here needle rest : includes needle (needle ++ rest)%string = true.
Proof.
  assert (H := prefix_append needle rest).
  destruct (needle ++ rest)%string as [|c s]; [exact H|].
  change (String.prefix needle (String c s) || includes needle s = true).
  now rewrite H.
Qed.

Lemma includes_later needle before haystack :
  includes needle haystack = true -> includes needle (before ++ haystack)%string = true.
Proof.
  intros H. induction before as [|c before IH]; trivial.
  change (String.prefix needle (String c (before ++ haystack))
          || includes needle (before ++ haystack)%string = true).
  rewrite IH. apply orb_true_r.
Qed.

Lemma fileConflict_names_path p : includes p (fileConflict p) = true.
Proof. unfold fileConflict. apply includes_later, includes_here. Qed.

Lemma mergeGeneratedCode_error a b :
  mergeGeneratedCode a b (withStrategy ErrorStrategy) =
  match firstRepeated (paths a ++ paths b) with
  | Some q => Throw (fileConflict q)
  | None =>
      Ok (mkCode (files a ++ files b)
                 (mergeDependencies (dependencies a) (dependencies b)) None)
  end.
Proof.
  unfold mergeGeneratedCode, firstRepeated, paths. simpl.
  rewrite mergeFiles_error, map_app. simpl.
  destruct (firstRepeatedFrom [] (map path (files a) ++ map path (files b))); trivial.
  now rewrite values_byKey.
Qed.

(** C5, as the code has it. When [a] and [b] both hold a file at one path,
    the merge under the [error] strategy throws the file-conflict error that
    names the first path, in [a]-then-[b] file order, that repeats an
    earlier one: the shared path itself when it is the only one and neither
    input repeats a path. Under last-wins and first-wins the merge returns:
    it has no warning to give, its outcome is the merged code alone. *)
Theorem mergeGeneratedCode_conflict :
  forall (a b : GeneratedCode) (p : string),
    In p (paths a) -> In p (paths b) ->
    (exists q,
        firstRepeated (paths a ++ paths b) = Some q
        /\ mergeGeneratedCode a b (withStrategy ErrorStrategy) = Throw (fileConflict q)
        /\ includes q (fileConflict q) = true
        /\ (NoDup (paths a) -> NoDup (paths b) ->
            (forall p', In p' (paths a) -> In p' (paths b) -> p' = p) -> q = p))
    /\ (forall options, strategyOf options <> ErrorStrategy ->
                        exists r, mergeGeneratedCode a b options = Ok r).
Proof.
  intros a b p Ha Hb. split; [|intros options; apply mergeGeneratedCode_total].
  destruct (firstRepeated (paths a ++ paths b)) as [q|] eqn:E.
  - exists q. split; [reflexivity|]. split; [|split].
    + now rewrite mergeGeneratedCode_error, E.
    + apply fileConflict_names_path.
    + intros Hna Hnb Honly. apply firstRepeatedFrom_some in E.
      destruct E as [l1 [l2 [Hl Hin]]]. simpl in Hin.
      assert (Hq : In q (paths a) /\ In q (paths b)).
      { clear Honly Ha Hb. revert l1 Hl Hin Hna.
        induction (paths a) as [|x xs IH]; simpl; intros l1 Hl Hin Hna.
        - exfalso. rewrite Hl in Hnb. apply NoDup_remove_2 in Hnb.
          apply Hnb. apply in_or_app. now left.
        - inversion Hna as [|? ? Hx Hxs]; subst.
          destruct l1 as [|y l1]; simpl in *; [contradiction|].
          injection Hl as -> Hl. destruct Hin as [->|Hin].
          + split; [now left|].
            assert (Hin' : In q (xs ++ paths b)).
            { rewrite Hl. apply in_or_app. right. now left. }
            apply in_app_or in Hin'. destruct Hin' as [H|H]; [contradiction | trivial].
          + destruct (IH l1 Hl Hin Hxs) as [H1 H2]. split; [now right | trivial]. }
      now apply Honly.
  - exfalso. apply firstRepeatedFrom_none in E. destruct E as [Hnd _].
    apply in_split in Ha. destruct Ha as [l1 [l2 Ha]]. rewrite Ha in Hnd.
    rewrite <- app_assoc in Hnd. simpl in Hnd. apply NoDup_remove_2 in Hnd.
    apply Hnd. apply in_or_app. right. apply in_or_app. now right.
Qed.

Lemma mergeGeneratedCode_same_path_witness :
  In "index.ts" (paths sharedIndexA) /\ In "index.ts" (paths sharedIndexB)
  /\ exists r fb,
       mergeGeneratedCode sharedIndexA sharedIndexB noOptions = Ok r
       /\ mergeGeneratedCode sharedIndexA sharedIndexB (withStrategy LastWins) = Ok r
       /\ findLast path "index.ts" (files sharedIndexB) = Some fb
       /\ filesAt "index.ts" (files r) = [fb].
Proof.
  assert (Ha : In "index.ts" (paths sharedIndexA)) by (simpl; auto).
  assert (Hb : In "index.ts" (paths sharedIndexB)) by (simpl; auto).
  split; [exact Ha | split; [exact Hb|]].
  exact (proj1 (mergeGeneratedCode_same_path sharedIndexA sharedIndexB "index.ts" Ha Hb)).
Defined.

(** Against C4 as the specification words it: ["util.ts"] occurs in
    [sharedIndexB] only, yet one of its two files there is not in the
    result. *)
Lemma mergeGeneratedCode_same_path_drops_file :
  In "index.ts" (paths sharedIndexA) /\ In "index.ts" (paths sharedIndexB)
  /\ ~ In "util.ts" (paths sharedIndexA)
  /\ In (createFile "util.ts" "one") (files sharedIndexB)
  /\ In (createFile "util.ts" "two") (files sharedIndexB)
  /\ mergeGeneratedCode sharedIndexA sharedIndexB noOptions
     = Ok (mkCode [createFile "index.ts" "new"; createFile "util.ts" "two"] [] None)
  /\ ~ In (createFile "util.ts" "one")
          [createFile "index.ts" "new"; createFile "util.ts" "two"]
  /\ mergeGeneratedCode sharedIndexA sharedIndexB (withStrategy FirstWins)
     = Ok (mkCode [createFile "index.ts" "old"; createFile "util.ts" "one"] [] None)
  /\ ~ In (createFile "util.ts" "two")
          [createFile "index.ts" "old"; createFile "util.ts" "one"].
Proof.
  repeat split; try (simpl; tauto); simpl; intuition discriminate.
Qed.

Lemma mergeGeneratedCode_conflict_witness :
  In "types.ts" (paths crossedA) /\ In "types.ts" (paths crossedB)
  /\ exists q,
       firstRepeated (paths crossedA ++ paths crossedB) = Some q
       /\ mergeGeneratedCode crossedA crossedB (withStrategy ErrorStrategy)
          = Throw (fileConflict q)
       /\ includes q (fileConflict q) = true
       /\ (NoDup (paths crossedA) -> NoDup (paths crossedB) ->
           (forall p', In p' (paths crossedA) -> In p' (paths crossedB) -> p' = "types.ts") ->
           q = "types.ts").
Proof.
  assert (Ha : In "types.ts" (paths crossedA)) by (simpl; auto).
  assert (Hb : In "types.ts" (paths crossedB)) by (simpl; auto).
  split; [exact Ha | split; [exact Hb|]].
  exact (proj1 (mergeGeneratedCode_conflict crossedA crossedB "types.ts" Ha Hb)).
Defined.

(** Against C5 as the specification words it: both lists hold ["index.ts"],
    and the error names ["types.ts"] only. *)
Lemma mergeGeneratedCode_conflict_names_other_path :
  In "index.ts" (paths crossedA) /\ In "index.ts" (paths crossedB)
  /\ mergeGeneratedCode crossedA crossedB (withStrategy ErrorStrategy)
     = Throw "File conflict: types.ts is generated by multiple plugins"
  /\ includes "index.ts" "File conflict: types.ts is generated by multiple plugins" = false.
Proof.
  repeat split; try (simpl; tauto).
Qed.

(** ** Relations *)

Lemma extractFieldRelations_hints all m fields :
  extractFieldRelations all m fields
  = map relationOfHint (filter (targetExists all) (fieldHints m fields)).
Proof.
  induction fields as [|f fields IH]; simpl; trivial.
  destruct (FieldOf.relation f) as [rel|]; simpl; trivial.
  unfold targetExists at 1. simpl.
  destruct (hasModelName all (FieldRelation.model rel)); simpl; now rewrite IH.
Qed.

Lemma extractModelRelations_hints all todo :
  extractModelRelations all todo
  = map relationOfHint (filter (targetExists all) (relationHints todo)).
Proof.
  induction todo as [|m todo IH]; simpl; trivial.
  rewrite IH, extractFieldRelations_hints, filter_app, map_app. reflexivity.
Qed.

Lemma hasModelName_in models n :
  hasModelName models n = true <-> In n (map Model.name models).
Proof. unfold hasModelName. apply existsb_eqb_in. Qed.

Lemma in_relationHints models m f rel :
  In (m, f, rel) (relationHints models)
  <-> In m models /\ In f (Model.fields m) /\ FieldOf.relation f = Some rel.
Proof.
  unfold relationHints. rewrite in_flat_map. split.
  - intros [m' [Hm Hin]]. apply in_flat_map in Hin. destruct Hin as [f' [Hf Hin]].
    destruct (FieldOf.relation f') as [rel'|] eqn:E; simpl in Hin; [|contradiction].
    destruct Hin as [[= -> -> ->]|[]]. repeat split; assumption.
  - intros [Hm [Hf Hrel]]. exists m. split; trivial.
    apply in_flat_map. exists f. split; trivial. rewrite Hrel. now left.
Qed.

(** C8. The relations extracted from a model list are those of the
    relation hints whose target is the name of a model of the list, one
    relation per such hint and in declaration order; so a relation is in the
    result exactly when a field of a model carries a hint to an existing
    model name.  For [User] and [Post] with [Post.author] related to
    ["User"] the result is one relation from ["Post"] to ["User"]; with a
    target that names no model it is empty. *)
Theorem extractRelations_materialized :
  (forall models,
      extractRelations models
      = map relationOfHint (filter (targetExists models) (relationHints models)))
  /\ (forall models r,
         In r (extractRelations models) <->
         exists m f rel,
           In m models /\ In f (Model.fields m) /\ FieldOf.relation f = Some rel
           /\ In (FieldRelation.model rel) (map Model.name models)
           /\ r = relationOf m f rel)
  /\ (exists r,
         extractRelations [userModel; postModel "User"] = [r]
         /\ Endpoint.model (Relation.from r) = "Post"
         /\ Endpoint.model (Relation.to r) = "User")
  /\ extractRelations [userModel; postModel "Account"] = [].
Proof.
  split; [|split; [|split]].
  - intros models. apply extractModelRelations_hints.
  - intros models r. unfold extractRelations.
    rewrite extractModelRelations_hints, in_map_iff. split.
    + intros [[[m f] rel] [Hr Hin]]. apply filter_In in Hin. destruct Hin as [Hin Ht].
      apply in_relationHints in Hin. destruct Hin as [Hm [Hf Hrel]].
      exists m, f, rel. repeat split; trivial.
      * now apply hasModelName_in.
      * now rewrite <- Hr.
    + intros [m [f [rel [Hm [Hf [Hrel [Ht ->]]]]]]].
      exists (m, f, rel). split; trivial. apply filter_In. split.
      * now apply in_relationHints.
      * now apply hasModelName_in.
  - eexists. repeat split.
  - reflexivity.
Qed.

(** ** Runs *)

Lemma bind_ok A B (c : Run A) (k : A -> Run B) tr tr' a :
  c tr = (tr', Ok a) -> bind c k tr = k a tr'.
Proof. unfold bind. now intros ->. Qed.

Lemma bind_throw A B (c : Run A) (k : A -> Run B) tr tr' message :
  c tr = (tr', Throw message) -> bind c k tr = (tr', Throw message).
Proof. unfold bind. now intros ->. Qed.














(** ** The adapter step *)

(** With no auth, database or deploy plugin the steps after the adapter
    leave the files as they are. *)
Lemma afterAdapter_alone this env parsed options code tr tr' result :
  selectedAuth this = [] -> selectedDatabase this = None -> selectedDeploy this = [] ->
  afterAdapter this env parsed options code tr = (tr', Ok result) ->
  files result = files code /\ metadata result = metadata code.
Proof.
  intros Hau Hdb Hde. unfold afterAdapter, addAuth, addDatabase, addDeploy.
  rewrite Hau, Hdb, Hde. simpl. unfold bind at 1 2 3. simpl.
  unfold bind at 1.
  destruct (collectDependencies this (dependencies code) tr) as [tr1 [deps|message]];
    [|discriminate].
  unfold bind.
  destruct (shouldWrite options).
  - unfold call. destruct (writeGeneratedCode env _ _); [|discriminate].
    unfold ret. now intros [= _ <-].
  - unfold ret. now intros [= _ <-].
Qed.


(** C10. With no parser selected, [parse], and so [generate], throws
    ["No parser selected. Call .parser() first."] and adds nothing to the
    trace: no plugin is called and nothing is written. *)
Theorem parse_requires_parser :
  forall (this : OpenGenerator.t) (env : Env) (trace : list Event),
    selectedParser this = None ->
    (forall input,
        parse this env input trace
        = (trace, Throw "No parser selected. Call .parser() first."))
    /\ (forall options,
           generate this env options trace
           = (trace, Throw "No parser selected. Call .parser() first.")).
Proof.
  intros this env trace Hnone.
  assert (Hparse : forall input,
             parse this env input trace
             = (trace, Throw "No parser selected. Call .parser() first.")).
  { intros input. unfold parse. now rewrite Hnone. }
  split; trivial.
  intros options. unfold generate. now rewrite (@bind_throw _ _ _ _ _ _ _ (Hparse (schema options))).
Qed.

(** C9. [validate] is a total function of the configuration.  With no
    parser it answers [valid: false] with an error that mentions "parser";
    with a parser and no generator, [valid: false] with an error that
    mentions "generator"; with a parser and a generator, [valid: true], and
    with no adapter a warning that mentions "adapter". *)
Theorem validate_reports_missing_plugins :
  forall (this : OpenGenerator.t),
    (selectedParser this = None ->
     valid (validate this) = false
     /\ exists e, In e (errors (validate this)) /\ includes "parser" e = true)
    /\ (selectedParser this <> None -> selectedGenerators this = [] ->
        valid (validate this) = false
        /\ exists e, In e (errors (validate this)) /\ includes "generator" e = true)
    /\ (selectedParser this <> None -> selectedGenerators this <> [] ->
        valid (validate this) = true
        /\ errors (validate this) = []
        /\ (selectedAdapter this = None ->
            exists w, In w (warnings (validate this)) /\ includes "adapter" w = true)).
Proof.
  intros this. unfold validate. split; [|split].
  - intros ->. simpl. split.
    + now destruct (selectedGenerators this).
    + exists "No parser selected". split; [now left | reflexivity].
  - intros Hp ->. destruct (selectedParser this); [|congruence]. simpl. split; trivial.
    exists "No generators selected". split; [now left | reflexivity].
  - intros Hp Hg. destruct (selectedParser this); [|congruence].
    destruct (selectedGenerators this) as [|g gs]; [congruence|]. simpl.
    repeat split. intros ->.
    exists "No adapter selected - generated code may not be framework-specific".
    split; [now left | reflexivity].
Qed.

(** ** Two generators and a shared path *)

Lemma parse_ok this env input p content parsed tr :
  selectedParser this = Some p ->
  readInput env input = Ok content ->
  ParserPlugin.parse p content (parserOptionsFor env input) = Ok parsed ->
  parse this env input tr = (tr ++ [CallParse (ParserPlugin.name p) content], Ok parsed).
Proof.
  intros Hp Hread Hparse. unfold parse. rewrite Hp.
  unfold bind, lift, call. rewrite Hread. unfold parserOptionsFor in Hparse.
  now rewrite Hparse.
Qed.

Lemma runGenerators_two this parsed options hi lo codeHi codeLo c1 c2 tr :
  selectedGenerators this = [hi; lo] ->
  GeneratorPlugin.generate hi parsed options = Ok codeHi ->
  GeneratorPlugin.generate lo parsed options = Ok codeLo ->
  mergeGeneratedCode emptyCode codeHi noOptions = Ok c1 ->
  mergeGeneratedCode c1 codeLo noOptions = Ok c2 ->
  runGenerators this parsed options emptyCode tr
  = ((tr ++ [CallGenerate (GeneratorPlugin.name hi)])
       ++ [CallGenerate (GeneratorPlugin.name lo)], Ok c2).
Proof.
  intros Hsel Hhi Hlo H1 H2. unfold runGenerators. rewrite Hsel. simpl.
  unfold bind, call, lift, ret. now rewrite Hhi, H1, Hlo, H2.
Qed.

Lemma pushDependencies_ok plugin getDependencies getPeerDependencies deps tr :
  (exists own, getDependencies tt = Ok own) ->
  match getPeerDependencies with
  | Some peers => exists peer, peers tt = Ok peer
  | None => True
  end ->
  exists tr' all,
    pushDependencies plugin getDependencies getPeerDependencies deps tr = (tr', Ok all).
Proof.
  intros [own Hown] Hpeer. unfold pushDependencies, peerDependencies, bind, call, ret.
  rewrite Hown. destruct getPeerDependencies as [peers|].
  - destruct Hpeer as [peer ->]. eauto.
  - eauto.
Qed.

Lemma collectDependencies_two this hi lo existing tr :
  selectedAdapter this = None -> selectedGenerators this = [hi; lo] ->
  selectedAuth this = [] -> selectedDatabase this = None -> selectedDeploy this = [] ->
  generatorDependenciesOk hi -> generatorDependenciesOk lo ->
  exists tr' deps, collectDependencies this existing tr = (tr', Ok deps).
Proof.
  intros Had Hgen Hau Hdb Hde [Hhi1 Hhi2] [Hlo1 Hlo2].
  unfold collectDependencies. rewrite Had, Hgen, Hau, Hdb, Hde. simpl.
  rewrite (@bind_ok _ _ _ _ _ _ _ (eq_refl : ret existing tr = (tr, Ok existing))).
  destruct (@pushDependencies_ok (GeneratorPlugin.name hi) _ _ existing tr Hhi1 Hhi2)
    as [tr1 [d1 H1]].
  destruct (@pushDependencies_ok (GeneratorPlugin.name lo) _ _ d1 tr1 Hlo1 Hlo2)
    as [tr2 [d2 H2]].
  unfold bind at 1. unfold bind at 1. unfold bind at 1. rewrite H1.
  unfold bind at 1. rewrite H2. unfold ret, bind. simpl. eauto.
Qed.

Lemma afterAdapter_two this env parsed options hi lo code tr :
  selectedAdapter this = None -> selectedGenerators this = [hi; lo] ->
  selectedAuth this = [] -> selectedDatabase this = None -> selectedDeploy this = [] ->
  generatorDependenciesOk hi -> generatorDependenciesOk lo ->
  writeOk env options ->
  exists tr' result,
    afterAdapter this env parsed options code tr = (tr', Ok result)
    /\ files result = files code.
Proof.
  intros Had Hgen Hau Hdb Hde Hhi Hlo Hwrite.
  destruct (@collectDependencies_two this hi lo (dependencies code) tr
              Had Hgen Hau Hdb Hde Hhi Hlo) as [tr1 [deps Hdeps]].
  assert (Hrun : exists tr' result,
             afterAdapter this env parsed options code tr = (tr', Ok result)).
  { unfold afterAdapter, addAuth, addDatabase, addDeploy.
    rewrite Hau, Hdb, Hde. simpl. unfold bind at 1 2 3. simpl.
    unfold bind at 1. rewrite Hdeps. unfold bind. unfold writeOk in Hwrite.
    destruct (shouldWrite options).
    - unfold call. rewrite Hwrite by reflexivity. unfold ret. eauto.
    - unfold ret. eauto. }
  destruct Hrun as [tr' [result Hrun]]. exists tr', result. split; trivial.
  now apply (@afterAdapter_alone this env parsed options code tr tr' result Hau Hdb Hde Hrun).
Qed.

Lemma selectedGenerators_by_priority p hi lo :
  GeneratorPlugin.priority hi = Some 10 ->
  GeneratorPlugin.priority lo = Some 5 ->
  selectedGenerators (generator lo (generator hi (parser p createGenerator))) = [hi; lo]
  /\ selectedGenerators (generator hi (generator lo (parser p createGenerator))) = [hi; lo].
Proof.
  intros Hhi Hlo. unfold generator, sort. simpl. unfold byPriority.
  rewrite Hhi, Hlo. simpl. split; reflexivity.
Qed.

(** C1, as the code has it. With a parser and two generators of priorities
    10 and 5, registered in either order, that each emit one file at
    ["common.ts"] (["high"] and ["low"]) among others, [generate] under the
    default last-wins merge returns an output whose file at ["common.ts"]
    holds ["low"]: the generators run by descending priority, and the one
    that runs last wins the shared path. *)
Theorem generate_shared_path_last_generator_wins :
  forall (env : Env) (options : GenerateOptions) (this : OpenGenerator.t)
         (p : ParserPlugin.t) (hi lo : GeneratorPlugin.t)
         (input : string) (parsed : SchemaIR)
         (codeHi codeLo : GeneratedCode) (fileHi fileLo : GeneratedFile),
    GeneratorPlugin.priority hi = Some 10 ->
    GeneratorPlugin.priority lo = Some 5 ->
    this = generator lo (generator hi (parser p createGenerator))
    \/ this = generator hi (generator lo (parser p createGenerator)) ->
    readInput env (schema options) = Ok input ->
    ParserPlugin.parse p input (parserOptionsFor env (schema options)) = Ok parsed ->
    GeneratorPlugin.generate hi parsed options = Ok codeHi ->
    GeneratorPlugin.generate lo parsed options = Ok codeLo ->
    filesAt "common.ts" (files codeHi) = [fileHi] -> content fileHi = "high" ->
    filesAt "common.ts" (files codeLo) = [fileLo] -> content fileLo = "low" ->
    generatorDependenciesOk hi -> generatorDependenciesOk lo ->
    writeOk env options ->
    selectedGenerators this = [hi; lo]
    /\ exists trace code,
         generate this env options [] = (trace, Ok code)
         /\ filesAt "common.ts" (files code) = [fileLo]
         /\ map content (filesAt "common.ts" (files code)) = ["low"].
Proof.
  intros env options this p hi lo input parsed codeHi codeLo fileHi fileLo
         Hhi Hlo Hthis Hread Hparse Hgenhi Hgenlo HfHi HcHi HfLo HcLo Hdhi Hdlo Hwrite.
  destruct (@selectedGenerators_by_priority p hi lo Hhi Hlo) as [Hs1 Hs2].
  assert (Hsel : selectedGenerators this = [hi; lo]) by (destruct Hthis; now subst).
  assert (Hp : selectedParser this = Some p) by (destruct Hthis; now subst).
  assert (Had : selectedAdapter this = None) by (destruct Hthis; now subst).
  assert (Hau : selectedAuth this = []) by (destruct Hthis; now subst).
  assert (Hdb : selectedDatabase this = None) by (destruct Hthis; now subst).
  assert (Hde : selectedDeploy this = []) by (destruct Hthis; now subst).
  clear Hs1 Hs2 Hthis. split; trivial.
  destruct (@mergeGeneratedCode_total emptyCode codeHi noOptions) as [c1 H1];
    [discriminate|].
  destruct (@mergeGeneratedCode_total c1 codeLo noOptions) as [c2 H2]; [discriminate|].
  assert (Hc2 : filesAt "common.ts" (files c2) = [fileLo]).
  { eapply mergeGeneratedCode_file_at; [exact H2 | intros _ | | ]; try discriminate.
    rewrite findLast_app. unfold filesAt in HfLo.
    now rewrite (@entriesAt_single_findLast _ path _ _ _ HfLo). }
  destruct (@afterAdapter_two this env parsed options hi lo c2
              (([] ++ [CallParse (ParserPlugin.name p) input]
                   ++ [CallGenerate (GeneratorPlugin.name hi)])
                 ++ [CallGenerate (GeneratorPlugin.name lo)])
              Had Hsel Hau Hdb Hde Hdhi Hdlo Hwrite) as [tr' [result [Hrun Hfiles]]].
  exists tr', result. split; [|split].
  - unfold generate.
    rewrite (@bind_ok _ _ _ _ _ _ _
               (@parse_ok this env _ p input parsed [] Hp Hread Hparse)).
    rewrite (@bind_ok _ _ _ _ _ _ _
               (@runGenerators_two this parsed options hi lo codeHi codeLo c1 c2 _
                                   Hsel Hgenhi Hgenlo H1 H2)).
    unfold applyAdapter. rewrite Had.
    rewrite (@bind_ok _ _ _ _ _ _ _ (eq_refl : ret c2 _ = (_, Ok c2))).
    exact Hrun.
  - now rewrite Hfiles.
  - rewrite Hfiles, Hc2. simpl. now rewrite HcLo.
Qed.

(** ** The scenarios, run *)

(** Against C1 as the specification words it: whichever generator is
    registered first, the priority-10 generator runs first, the priority-5
    generator second, and the file at ["common.ts"] holds ["low"], not
    ["high"]. *)
Lemma generate_shared_path_not_high :
  (generate highThenLow stubEnv stubOptions []
   = ([CallParse "mock-parser" "test";
       CallGenerate "high-generator"; CallGenerate "low-generator";
       CallGetDependencies "high-generator"; CallGetDependencies "low-generator"],
      Ok (mkCode [createFile "high-only.ts" "h"; createFile "common.ts" "low";
                  createFile "low-only.ts" "l"] [] None))
   /\ generate lowThenHigh stubEnv stubOptions []
      = generate highThenLow stubEnv stubOptions [])
  /\ (forall trace code,
         generate highThenLow stubEnv stubOptions [] = (trace, Ok code) ->
         map content (filesAt "common.ts" (files code)) = ["low"]
         /\ map content (filesAt "common.ts" (files code)) <> ["high"]).
Proof.
  split; [split; vm_compute; reflexivity|].
  intros trace code H. vm_compute in H. injection H as _ <-.
  split; [reflexivity | discriminate].
Qed.

Lemma generate_shared_path_last_generator_wins_witness :
  selectedGenerators lowThenHigh = [highGenerator; lowGenerator]
  /\ exists trace code,
       generate lowThenHigh stubEnv stubOptions [] = (trace, Ok code)
       /\ filesAt "common.ts" (files code) = [createFile "common.ts" "low"]
       /\ map content (filesAt "common.ts" (files code)) = ["low"].
Proof.
  apply (@generate_shared_path_last_generator_wins
           stubEnv stubOptions lowThenHigh stubParser highGenerator lowGenerator
           "test" stubSchema highCode lowCode
           (createFile "common.ts" "high") (createFile "common.ts" "low")).
  - reflexivity.
  - reflexivity.
  - right. reflexivity.
  - reflexivity.
  - reflexivity.
  - reflexivity.
  - reflexivity.
  - reflexivity.
  - reflexivity.
  - reflexivity.
  - reflexivity.
  - split; [exists []; reflexivity | exact I].
  - split; [exists []; reflexivity | exact I].
  - intros _ code. reflexivity.
Defined.

Lemma mergeDependencies_semver_precedence_witness :
  named "lodash" [mkDep "lodash" "^3.0.0" None None] = [mkDep "lodash" "^3.0.0" None None]
  /\ named "lodash" [mkDep "lodash" "~4.17.21" None None]
     = [mkDep "lodash" "~4.17.21" None None]
  /\ exists r,
       named "lodash" (mergeDependencies [mkDep "lodash" "^3.0.0" None None]
                                         [mkDep "lodash" "~4.17.21" None None]) = [r]
       /\ version r = "~4.17.21".
Proof.
  split; [reflexivity | split; [reflexivity|]].
  destruct (proj1 (proj2 (proj2 mergeDependencies_semver_precedence))
              [mkDep "lodash" "^3.0.0" None None] [mkDep "lodash" "~4.17.21" None None]
              "lodash" _ _ eq_refl eq_refl) as [r [Hr [Hgt _]]].
  exists r. split; [exact Hr|].
  apply Hgt. vm_compute. left. reflexivity.
Defined.


Lemma parse_requires_parser_witness :
  selectedParser createGenerator = None
  /\ parse createGenerator stubEnv "model User {}" []
     = ([], Throw "No parser selected. Call .parser() first.")
  /\ generate (generator highGenerator createGenerator) stubEnv stubOptions []
     = ([], Throw "No parser selected. Call .parser() first.").
Proof.
  split; [reflexivity | split].
  - exact (proj1 (@parse_requires_parser createGenerator stubEnv [] eq_refl) _).
  - exact (proj2 (@parse_requires_parser (generator highGenerator createGenerator)
                                         stubEnv [] eq_refl) _).
Defined.

Lemma validate_reports_missing_plugins_witness :
  (valid (validate createGenerator) = false
   /\ exists e, In e (errors (validate createGenerator)) /\ includes "parser" e = true)
  /\ (valid (validate (parser stubParser createGenerator)) = false
      /\ exists e, In e (errors (validate (parser stubParser createGenerator)))
                   /\ includes "generator" e = true)
  /\ (valid (validate highThenLow) = true
      /\ errors (validate highThenLow) = []
      /\ (selectedAdapter highThenLow = None ->
          exists w, In w (warnings (validate highThenLow))
                    /\ includes "adapter" w = true)).
Proof.
  split; [|split].
  - exact (proj1 (validate_reports_missing_plugins createGenerator) eq_refl).
  - apply (proj1 (proj2 (validate_reports_missing_plugins
                           (parser stubParser createGenerator)))).
    + discriminate.
    + reflexivity.
  - apply (proj2 (proj2 (validate_reports_missing_plugins highThenLow))).
    + discriminate.
    + discriminate.
Defined.

Unset Implicit Arguments.

(* ------------------------------------------------------------------ *)
(** * Further properties *)

(** ** Order of the merged keys *)

Lemma mergeFiles_keys_order s m l m' :
  mergeFiles s m l = Ok m' ->
  JsMap.keys m' = JsMap.keys m ++ newKeys (JsMap.keys m) (map path l).
Proof.
  revert m. induction l as [|f l IH]; simpl; intros m.
  - intros [= <-]. now rewrite app_nil_r.
  - destruct (JsMap.get (path f) m) as [e|] eqn:E.
    + assert (Hin : existsb (String.eqb (path f)) (JsMap.keys m) = true).
      { apply existsb_eqb_in. eapply get_some_in_keys; eauto. }
      rewrite Hin.
      destruct s; try discriminate; intros H; rewrite (IH _ H); trivial.
      now rewrite keys_set_present by congruence.
    + assert (Hout : existsb (String.eqb (path f)) (JsMap.keys m) = false).
      { destruct (existsb (String.eqb (path f)) (JsMap.keys m)) eqn:Ex; trivial.
        apply existsb_eqb_in in Ex. apply get_none_iff in E. contradiction. }
      rewrite Hout, set_absent by exact E. intros H. rewrite (IH _ H).
      unfold JsMap.keys. rewrite map_app. simpl. now rewrite <- app_assoc.
Qed.

Lemma mergeDependencies_loop_keys_order l m :
  JsMap.keys (fold_left mergeDependency l m)
  = JsMap.keys m ++ newKeys (JsMap.keys m) (map name l).
Proof.
  revert m. induction l as [|d l IH]; simpl; intros m.
  - now rewrite app_nil_r.
  - rewrite IH. destruct (JsMap.get (name d) m) as [e|] eqn:E.
    + assert (Hin : existsb (String.eqb (name d)) (JsMap.keys m) = true).
      { apply existsb_eqb_in. eapply get_some_in_keys; eauto. }
      rewrite Hin, (mergeDependency_present _ _ E), keys_set_present by congruence.
      reflexivity.
    + assert (Hout : existsb (String.eqb (name d)) (JsMap.keys m) = false).
      { destruct (existsb (String.eqb (name d)) (JsMap.keys m)) eqn:Ex; trivial.
        apply existsb_eqb_in in Ex. apply get_none_iff in E. contradiction. }
      rewrite Hout, (mergeDependency_absent _ _ E).
      unfold JsMap.keys. rewrite map_app. simpl. now rewrite <- app_assoc.
Qed.

Lemma newKeys_spec seen l :
  NoDup (newKeys seen l)
  /\ (forall x, In x (newKeys seen l) <-> In x l /\ ~ In x seen).
Proof.
  revert seen. induction l as [|y l IH]; simpl; intros seen.
  - split; [constructor | tauto].
  - destruct (existsb (String.eqb y) seen) eqn:E.
    + apply existsb_eqb_in in E. destruct (IH seen) as [Hnd Hin]. split; trivial.
      intros x. rewrite Hin. intuition (subst; contradiction).
    + assert (Hy : ~ In y seen) by (intros H; apply existsb_eqb_in in H; congruence).
      destruct (IH (seen ++ [y])) as [Hnd Hin]. split.
      * constructor; trivial. rewrite Hin. intros [_ H]. apply H.
        apply in_or_app. right. now left.
      * intros x. simpl. rewrite Hin, in_app_iff. simpl.
        destruct (string_dec y x) as [->|Hne]; intuition congruence.
Qed.

(** ** More on merging generated code *)

(** X1. Whatever the strategy, a merge that returns lists each path of [a]
    and [b] once, in the order the paths first occur in [a.files] followed
    by [b.files]: the strategy decides which file stands at a path, never
    where the path stands. *)
Theorem mergeGeneratedCode_path_order :
  forall (a b : GeneratedCode) (options : MergeOptions) (r : GeneratedCode),
    mergeGeneratedCode a b options = Ok r ->
    paths r = firstOccurrences (paths a ++ paths b)
    /\ NoDup (paths r)
    /\ (forall p, In p (paths r) <-> In p (paths a) \/ In p (paths b)).
Proof.
  intros a b options r H.
  destruct (mergeGeneratedCode_ok _ _ _ H) as [m [Hm [-> [Hk Hnd]]]].
  assert (Hp : paths (mkCode (JsMap.values m)
                             (mergeDependencies (dependencies a) (dependencies b)) None)
               = firstOccurrences (paths a ++ paths b)).
  { unfold paths. simpl. rewrite <- (keyed_keys Hk), (mergeFiles_keys_order _ _ _ _ Hm).
    simpl. now rewrite map_app. }
  rewrite Hp. split; [reflexivity|]. unfold firstOccurrences.
  destruct (newKeys_spec [] (paths a ++ paths b)) as [Hnd' Hin]. split; trivial.
  intros p. rewrite Hin, in_app_iff. simpl. tauto.
Qed.

Lemma mergeGeneratedCode_path_order_witness :
  mergeGeneratedCode sharedIndexA sharedIndexB (withStrategy FirstWins)
  = Ok (mkCode [createFile "index.ts" "old"; createFile "util.ts" "one"] [] None)
  /\ paths (mkCode [createFile "index.ts" "old"; createFile "util.ts" "one"] [] None)
     = firstOccurrences (paths sharedIndexA ++ paths sharedIndexB).
Proof.
  assert (H : mergeGeneratedCode sharedIndexA sharedIndexB (withStrategy FirstWins)
              = Ok (mkCode [createFile "index.ts" "old"; createFile "util.ts" "one"]
                           [] None)) by reflexivity.
  split; [exact H|].
  exact (proj1 (@mergeGeneratedCode_path_order _ _ _ _ H)).
Defined.

(** X2. Under the [error] strategy a merge returns exactly when no path
    occurs twice among the files of [a] followed by those of [b], repeats
    inside one input included; what it returns is the two file lists
    appended. *)
Theorem mergeGeneratedCode_error_iff_distinct :
  forall (a b : GeneratedCode) (r : GeneratedCode),
    mergeGeneratedCode a b (withStrategy ErrorStrategy) = Ok r
    <-> NoDup (paths a ++ paths b)
        /\ r = mkCode (files a ++ files b)
                      (mergeDependencies (dependencies a) (dependencies b)) None.
Proof.
  intros a b r. rewrite mergeGeneratedCode_error. unfold firstRepeated.
  destruct (firstRepeatedFrom [] (paths a ++ paths b)) as [q|] eqn:E.
  - split; [discriminate|]. intros [Hnd _].
    assert (Hnone : firstRepeatedFrom [] (paths a ++ paths b) = None)
      by (apply firstRepeatedFrom_none; split; [exact Hnd | tauto]).
    congruence.
  - apply firstRepeatedFrom_none in E. destruct E as [Hnd _]. split.
    + intros [= <-]. split; trivial.
    + now intros [_ ->].
Qed.

Lemma mergeFiles_app s m l1 l2 :
  mergeFiles s m (l1 ++ l2)
  = match mergeFiles s m l1 with
    | Ok m1 => mergeFiles s m1 l2
    | Throw message => Throw message
    end.
Proof.
  revert m. induction l1 as [|f l1 IH]; simpl; intros m; trivial.
  destruct (JsMap.get (path f) m); [destruct s|]; trivial.
Qed.

Lemma byKey_values (V : Type) (key : V -> string) (m : JsMap.t V) :
  keyed key m -> byKey key (JsMap.values m) = m.
Proof.
  induction 1 as [|[k v] m Hkv Hm IH]; simpl; trivial.
  simpl in Hkv. now rewrite Hkv, IH.
Qed.

(** A map that holds its values under their keys is what the loop builds
    from its values. *)
Lemma mergeFiles_values s m :
  keyed path m -> NoDup (JsMap.keys m) ->
  mergeFiles s JsMap.empty (JsMap.values m) = Ok m.
Proof.
  intros Hk Hnd. rewrite mergeFiles_fresh.
  - simpl. now rewrite byKey_values.
  - now rewrite <- keyed_keys.
  - reflexivity.
Qed.

Lemma mergeDependencies_loop_values m :
  keyed name m -> NoDup (JsMap.keys m) ->
  fold_left mergeDependency (JsMap.values m) JsMap.empty = m.
Proof.
  intros Hk Hnd. rewrite mergeDependencies_loop_fresh.
  - simpl. now rewrite byKey_values.
  - now rewrite <- keyed_keys.
  - reflexivity.
Qed.

Lemma mergeDependencies_fused a b c :
  mergeDependencies (mergeDependencies a b) c = mergeDependencies (a ++ b) c.
Proof.
  unfold mergeDependencies. rewrite !fold_left_app.
  rewrite mergeDependencies_loop_values.
  - reflexivity.
  - do 2 apply mergeDependencies_loop_keyed. constructor.
  - do 2 apply mergeDependencies_loop_keys. constructor.
Qed.

(** X3. Merging step by step is merging at once: after [a] and [b] were
    merged, merging the result with [c] gives what merging [c] into the
    plain concatenation of [a] and [b] gives, files and dependencies, under
    every strategy. *)
Theorem mergeGeneratedCode_fused :
  forall (a b c ab : GeneratedCode) (options : MergeOptions),
    mergeGeneratedCode a b options = Ok ab ->
    mergeGeneratedCode ab c options
    = mergeGeneratedCode
        (mkCode (files a ++ files b) (dependencies a ++ dependencies b) None)
        c options.
Proof.
  intros a b c ab options H.
  destruct (mergeGeneratedCode_ok _ _ _ H) as [m [Hm [-> [Hk Hnd]]]].
  unfold mergeGeneratedCode. simpl.
  rewrite (@mergeFiles_app _ _ (JsMap.values m) (files c)).
  rewrite (@mergeFiles_app _ _ (files a ++ files b) (files c)).
  rewrite (@mergeFiles_values (strategyOf options) m Hk Hnd), Hm, mergeDependencies_fused.
  reflexivity.
Qed.

Lemma mergeGeneratedCode_fused_witness :
  mergeGeneratedCode highCode lowCode noOptions
  = Ok (mkCode [createFile "high-only.ts" "h"; createFile "common.ts" "low";
                createFile "low-only.ts" "l"] [] None)
  /\ mergeGeneratedCode
       (mkCode [createFile "high-only.ts" "h"; createFile "common.ts" "low";
                createFile "low-only.ts" "l"] [] None)
       sharedIndexB noOptions
     = mergeGeneratedCode
         (mkCode (files highCode ++ files lowCode)
                 (dependencies highCode ++ dependencies lowCode) None)
         sharedIndexB noOptions.
Proof.
  assert (H : mergeGeneratedCode highCode lowCode noOptions
              = Ok (mkCode [createFile "high-only.ts" "h"; createFile "common.ts" "low";
                            createFile "low-only.ts" "l"] [] None)) by reflexivity.
  split; [exact H|].
  exact (@mergeGeneratedCode_fused _ _ sharedIndexB _ _ H).
Defined.

(** ** More on merging dependencies *)

(** X4. The merged dependency list names each package of [a] and [b]
    once, in the order the packages first occur in [a] followed by [b];
    merging it again with nothing changes nothing. *)
Theorem mergeDependencies_names :
  forall a b : list Dependency,
    map name (mergeDependencies a b) = firstOccurrences (map name (a ++ b))
    /\ NoDup (map name (mergeDependencies a b))
    /\ (forall n, In n (map name (mergeDependencies a b))
                  <-> In n (map name a) \/ In n (map name b))
    /\ mergeDependencies (mergeDependencies a b) [] = mergeDependencies a b.
Proof.
  intros a b.
  assert (Hk : keyed name (fold_left mergeDependency (a ++ b) JsMap.empty))
    by (apply mergeDependencies_loop_keyed; constructor).
  assert (Ho : map name (mergeDependencies a b) = firstOccurrences (map name (a ++ b))).
  { unfold mergeDependencies. rewrite <- (keyed_keys Hk).
    now rewrite mergeDependencies_loop_keys_order. }
  split; [exact Ho|]. rewrite Ho. unfold firstOccurrences.
  destruct (newKeys_spec [] (map name (a ++ b))) as [Hnd Hin].
  split; [exact Hnd | split].
  - intros n. rewrite Hin, map_app, in_app_iff. simpl. tauto.
  - apply mergeDependencies_fresh. apply mergeDependencies_nodup.
Qed.

(** ** More on comparing versions *)

Lemma compareSemver_values a b :
  compareSemver a b = 1 \/ compareSemver a b = 0 \/ compareSemver a b = -1.
Proof.
  unfold compareSemver.
  repeat match goal with |- context [if ?c then _ else _] => destruct c end; auto.
Qed.

Lemma compareSemver_flip a b : compareSemver b a = - compareSemver a b.
Proof.
  unfold compareSemver.
  destruct (parseSemver a) as [a1 a2 a3 pa], (parseSemver b) as [b1 b2 b3 pb].
  cbn [major minor patch prerelease]. rewrite !Z.gtb_ltb.
  destruct (Z.eqb_spec a1 b1), (Z.eqb_spec a2 b2), (Z.eqb_spec a3 b3),
    (Z.eqb_spec b1 a1), (Z.eqb_spec b2 a2), (Z.eqb_spec b3 a3); try congruence;
    cbn [negb];
    destruct (Z.ltb_spec b1 a1), (Z.ltb_spec b2 a2), (Z.ltb_spec b3 a3),
      (Z.ltb_spec a1 b1), (Z.ltb_spec a2 b2), (Z.ltb_spec a3 b3); try lia;
    destruct (truthy pa), (truthy pb); reflexivity.
Qed.

Lemma rankLt_lt_le x y z : rankLt x y -> ~ rankLt z y -> rankLt x z.
Proof.
  destruct x as [[[a1 b1] c1] d1], y as [[[a2 b2] c2] d2], z as [[[a3 b3] c3] d3].
  unfold rankLt. lia.
Qed.

(** X5. [compareSemver] orders versions totally, up to ties: it answers
    1, 0 or -1; swapping the arguments negates the answer; a version
    ties with itself; and "not lower" is transitive. *)
Theorem compareSemver_total_preorder :
  (forall a b, compareSemver a b = 1 \/ compareSemver a b = 0 \/ compareSemver a b = -1)
  /\ (forall a b, compareSemver b a = - compareSemver a b)
  /\ (forall a, compareSemver a a = 0)
  /\ (forall a b c,
         compareSemver a b >= 0 -> compareSemver b c >= 0 -> compareSemver a c >= 0)
  /\ (forall a b c,
         compareSemver a b = 0 -> compareSemver b c = 0 -> compareSemver a c = 0).
Proof.
  assert (Hge : forall a b c,
             compareSemver a b >= 0 -> compareSemver b c >= 0 -> compareSemver a c >= 0).
  { intros a b c Hab Hbc.
    assert (Hba : compareSemver b a <= 0) by (rewrite compareSemver_flip; lia).
    assert (Hcb : compareSemver c b <= 0) by (rewrite compareSemver_flip; lia).
    assert (Hca : compareSemver c a <= 0).
    { apply compareSemver_rank. apply compareSemver_rank in Hba.
      apply compareSemver_rank in Hcb. intros Hlt. apply Hba.
      eapply rankLt_lt_le; eauto. }
    rewrite compareSemver_flip in Hca. lia. }
  split; [exact compareSemver_values | split; [exact compareSemver_flip | split; [|split]]].
  - intros a. assert (H := compareSemver_flip a a). lia.
  - exact Hge.
  - intros a b c Hab Hbc.
    assert (H1 : compareSemver a c >= 0) by (apply (Hge a b c); lia).
    assert (H2 : compareSemver c a >= 0).
    { apply (Hge c b a); rewrite compareSemver_flip; lia. }
    rewrite compareSemver_flip in H2. lia.
Qed.

Lemma compareSemver_total_preorder_witness :
  compareSemver "^2.0.0" "~1.9.9" >= 0 /\ compareSemver "~1.9.9" "1.9.9-rc.1" >= 0
  /\ compareSemver "^2.0.0" "1.9.9-rc.1" >= 0.
Proof.
  assert (H1 : compareSemver "^2.0.0" "~1.9.9" >= 0) by (vm_compute; discriminate).
  assert (H2 : compareSemver "~1.9.9" "1.9.9-rc.1" >= 0) by (vm_compute; discriminate).
  split; [exact H1 | split; [exact H2|]].
  exact (proj1 (proj2 (proj2 (proj2 compareSemver_total_preorder))) _ _ _ H1 H2).
Defined.

Lemma stripRangeOperators_app ops v :
  allRangeOperators ops = true ->
  stripRangeOperators (ops ++ v) = stripRangeOperators v.
Proof.
  induction ops as [|c ops IH]; simpl; trivial.
  destruct (isRangeOperator c); [exact IH | discriminate].
Qed.

(** X6. Leading range operators do not count: a version reads the same
    with any run of [^ ~ > = <] put before it, so two ranges over one
    version tie, and of two dependencies that differ in the operator only
    the merge keeps the one it met first. *)
Theorem range_operators_ignored :
  forall (ops : string) (v w : string),
    allRangeOperators ops = true ->
    parseSemver (ops ++ v) = parseSemver v
    /\ compareSemver (ops ++ v) w = compareSemver v w
    /\ compareSemver (ops ++ v) v = 0
    /\ (forall n t1 t2,
           map version (mergeDependencies [mkDep n v t1 None] [mkDep n (ops ++ v) t2 None])
           = [v]
           /\ map version (mergeDependencies [mkDep n (ops ++ v) t1 None] [mkDep n v t2 None])
              = [(ops ++ v)%string]).
Proof.
  intros ops v w Hops.
  assert (Hp : parseSemver (ops ++ v) = parseSemver v).
  { unfold parseSemver. now rewrite stripRangeOperators_app. }
  assert (Hc : forall x, compareSemver (ops ++ v) x = compareSemver v x).
  { intros x. unfold compareSemver. now rewrite Hp. }
  assert (Hz : compareSemver v v = 0)
    by (apply (proj1 (proj2 (proj2 compareSemver_total_preorder)))).
  split; [exact Hp | split; [apply Hc | split; [now rewrite Hc|]]].
  intros n t1 t2. rewrite !mergeDependencies_pair by reflexivity. split.
  - rewrite mergedEntry_existing_kept by (cbn [version]; rewrite Hc, Hz; lia).
    cbn [map]. now rewrite version_settled.
  - rewrite mergedEntry_existing_kept.
    + cbn [map]. now rewrite version_settled.
    + cbn [version]. rewrite compareSemver_flip, Hc, Hz. lia.
Qed.

Lemma range_operators_ignored_witness :
  allRangeOperators ">=" = true
  /\ compareSemver ">=4.18.0" "^4.18.0" = compareSemver "4.18.0" "^4.18.0".
Proof.
  split; [reflexivity|].
  exact (proj1 (proj2 (@range_operators_ignored ">=" "4.18.0" "^4.18.0" eq_refl))).
Defined.

(** ** What the dependency merge leaves of its inputs *)

Lemma entriesAt_head_findFirst (V : Type) (key : V -> string) k l v rest :
  entriesAt key k l = v :: rest -> findFirst key k l = Some v.
Proof.
  unfold entriesAt, findFirst. induction l as [|x l IH]; simpl; [discriminate|].
  destruct (hasKey key k x); [now intros [= -> _] | exact IH].
Qed.

(** The entry the merged list holds for a package is the fold of the
    entries of that package. *)
Lemma mergeDependencies_named_fold a b n r :
  named n (mergeDependencies a b) = [r] ->
  fold_left mergedInto (named n (a ++ b)) None = Some r.
Proof.
  intros H. apply entriesAt_head_findFirst in H.
  unfold mergeDependencies in H.
  rewrite <- keyed_get in H by (apply mergeDependencies_loop_keyed; constructor).
  now rewrite mergeDependencies_loop_get in H.
Qed.

Lemma dev_settled_inv w o :
  dev (settled w o) = Some false -> dev w = Some false \/ dev o = Some false.
Proof.
  unfold settled. destruct w as [n v t [[|]|]], o as [n' v' t' [[|]|]]; simpl; auto.
Qed.

Lemma dev_mergedEntry_inv e d :
  dev (mergedEntry e d) = Some false -> dev e = Some false \/ dev d = Some false.
Proof.
  unfold mergedEntry. destruct (compareSemver (version d) (version e) >? 0);
    intros H; apply dev_settled_inv in H; tauto.
Qed.

Lemma mergedEntry_either e d :
  dev e <> Some false -> dev d <> Some false ->
  mergedEntry e d = e \/ mergedEntry e d = d.
Proof.
  intros He Hd. unfold mergedEntry, settled.
  assert (isFalse (dev e) = false) as ->
    by (destruct (dev e) as [[|]|]; simpl; congruence).
  assert (isFalse (dev d) = false) as ->
    by (destruct (dev d) as [[|]|]; simpl; congruence).
  simpl. destruct (compareSemver (version d) (version e) >? 0); auto.
Qed.

Lemma mergedInto_dev_source l :
  forall acc r,
    fold_left mergedInto l acc = Some r -> dev r = Some false ->
    (exists d, In d l /\ dev d = Some false)
    \/ (exists e, acc = Some e /\ dev e = Some false).
Proof.
  induction l as [|d l IH]; simpl; intros acc r H Hr.
  - right. eauto.
  - destruct (IH _ _ H Hr) as [[x [Hx Hdx]]|[e [He Hde]]].
    + left. eauto.
    + unfold mergedInto in He. injection He as He. destruct acc as [e0|].
      * subst e. apply dev_mergedEntry_inv in Hde. destruct Hde; [right|left]; eauto.
      * subst e. left. eauto.
Qed.

Lemma mergedInto_untouched l :
  forall acc r,
    fold_left mergedInto l acc = Some r ->
    (forall d, In d l -> dev d <> Some false) ->
    (forall e, acc = Some e -> dev e <> Some false) ->
    In r l \/ acc = Some r.
Proof.
  induction l as [|d l IH]; simpl; intros acc r H Hl Hacc.
  - now right.
  - assert (Hd : dev d <> Some false) by (apply Hl; now left).
    destruct (IH _ _ H) as [Hin|Heq].
    + intros x Hx. apply Hl. now right.
    + unfold mergedInto. intros e [= <-]. destruct acc as [e0|]; trivial.
      destruct (mergedEntry_either e0 d (Hacc e0 eq_refl) Hd) as [->| ->]; auto.
    + auto.
    + unfold mergedInto in Heq. injection Heq as Heq. destruct acc as [e0|].
      * destruct (mergedEntry_either e0 d (Hacc e0 eq_refl) Hd) as [E|E];
          rewrite E in Heq; subst; auto.
      * subst. auto.
Qed.

Lemma in_named_iff n d l : In d (named n l) <-> In d l /\ name d = n.
Proof.
  unfold named, entriesAt, hasKey. rewrite filter_In, String.eqb_eq. tauto.
Qed.

Lemma mergeDependencies_dev_false_iff a b n r :
  named n (mergeDependencies a b) = [r] ->
  (dev r = Some false
   <-> exists d, In d (a ++ b) /\ name d = n /\ dev d = Some false).
Proof.
  intros H. apply mergeDependencies_named_fold in H. split.
  - intros Hr. destruct (mergedInto_dev_source _ _ _ H Hr) as [[d [Hd Hdev]]|[e [He _]]];
      [|discriminate].
    apply in_named_iff in Hd. exists d. tauto.
  - intros [d [Hd [Hn Hdev]]].
    destruct (@mergedInto_reaches_false (named n (a ++ b)) None d)
      as [r' [Hr' Hdev']]; trivial.
    + now apply in_named_iff.
    + congruence.
Qed.

(** X7. The merge makes up nothing.  The entry it returns for a package
    says [dev: false] exactly when some entry of that package in [a] or [b]
    says so; and when none does, the returned entry is one of the given
    entries, unchanged in every field. *)
Theorem mergeDependencies_entries_from_input :
  forall (a b : list Dependency) (n : string) (r : Dependency),
    named n (mergeDependencies a b) = [r] ->
    (dev r = Some false
     <-> exists d, In d (a ++ b) /\ name d = n /\ dev d = Some false)
    /\ ((forall d, In d (a ++ b) -> name d = n -> dev d <> Some false) ->
        In r (a ++ b) /\ name r = n).
Proof.
  intros a b n r H. split; [now apply mergeDependencies_dev_false_iff|].
  apply mergeDependencies_named_fold in H.
  intros Hnone. destruct (mergedInto_untouched _ _ _ H) as [Hin|Heq].
  - intros d Hd. apply in_named_iff in Hd. now apply Hnone.
  - discriminate.
  - now apply in_named_iff in Hin.
  - discriminate.
Qed.

Lemma mergeDependencies_entries_from_input_witness :
  named "zod" (mergeDependencies [mkDep "zod" "^3.0.0" None (Some true)]
                                 [mkDep "zod" "^4.0.0" (Some DevDependencies) None])
  = [mkDep "zod" "^4.0.0" (Some DevDependencies) None]
  /\ (dev (mkDep "zod" "^4.0.0" (Some DevDependencies) None) = Some false
      <-> exists d, In d ([mkDep "zod" "^3.0.0" None (Some true)]
                            ++ [mkDep "zod" "^4.0.0" (Some DevDependencies) None])
                    /\ name d = "zod" /\ dev d = Some false).
Proof.
  assert (H : named "zod" (mergeDependencies
                             [mkDep "zod" "^3.0.0" None (Some true)]
                             [mkDep "zod" "^4.0.0" (Some DevDependencies) None])
              = [mkDep "zod" "^4.0.0" (Some DevDependencies) None]) by reflexivity.
  split; [exact H|].
  exact (proj1 (@mergeDependencies_entries_from_input _ _ _ _ H)).
Defined.

(** The entry the merge returns for a package is not outranked by any
    entry of the package. *)
Lemma mergeDependencies_winner_maximal a b n r :
  named n (mergeDependencies a b) = [r] ->
  exists w, In w (named n (a ++ b)) /\ version r = version w
            /\ forall d, In d (named n (a ++ b)) ->
                         compareSemver (version d) (version w) <= 0.
Proof.
  intros H. apply mergeDependencies_named_fold in H.
  destruct (named n (a ++ b)) as [|d0 todo] eqn:E; [discriminate|].
  simpl in H.
  destruct (@mergedInto_winner todo [d0] d0 [] d0 [] eq_refl)
    as [r' [before [w [after [Hr [Hsplit [Hk [Hb Ha]]]]]]]]; try (intros x []).
  { repeat split. }
  unfold mergedInto in H at 2. rewrite H in Hr. injection Hr as <-.
  simpl in Hsplit. exists w. rewrite Hsplit. split; [|split].
  - apply in_or_app. right. now left.
  - apply Hk.
  - intros d Hd. apply in_app_or in Hd. destruct Hd as [Hd|[<-|Hd]].
    + rewrite compareSemver_flip, (Hb d Hd). lia.
    + assert (Hz := compareSemver_flip (version w) (version w)). lia.
    + auto.
Qed.

(** X8. Which list comes first decides ties only: for a package in
    either list, the versions that merging [a] with [b] and merging [b] with
    [a] settle on compare equal, and the two results agree on whether the
    package is [dev: false]. *)
Theorem mergeDependencies_order_of_lists :
  forall (a b : list Dependency) (n : string),
    In n (map name a) \/ In n (map name b) ->
    exists rab rba,
      named n (mergeDependencies a b) = [rab]
      /\ named n (mergeDependencies b a) = [rba]
      /\ compareSemver (version rab) (version rba) = 0
      /\ (dev rab = Some false <-> dev rba = Some false).
Proof.
  intros a b n Hn.
  assert (Hex : forall x y, In n (map name x) \/ In n (map name y) ->
                            exists r, named n (mergeDependencies x y) = [r]).
  { intros x y Hxy.
    destruct (proj2 (proj2 (mergeDependencies_names x y))) as [Hin _].
    apply Hin in Hxy.
    destruct (named n (mergeDependencies x y)) as [|r [|r' rest]] eqn:E.
    - exfalso. apply in_map_iff in Hxy. destruct Hxy as [d [Hd Hdin]].
      assert (Hd' : In d (named n (mergeDependencies x y)))
        by (now apply in_named_iff).
      rewrite E in Hd'. contradiction.
    - eauto.
    - exfalso.
      assert (Hnd : NoDup (map name (named n (mergeDependencies x y)))).
      { unfold named, entriesAt. generalize (mergeDependencies_nodup x y).
        generalize (mergeDependencies x y). intros l.
        induction l as [|d l IH]; simpl; intros Hl; [constructor|].
        inversion Hl as [|? ? Hd Hl']; subst.
        destruct (hasKey name n d); simpl; auto. constructor; auto.
        intros Hc. apply Hd. apply in_map_iff in Hc. destruct Hc as [z [Hz Hzin]].
        apply filter_In in Hzin. apply in_map_iff. exists z. tauto. }
      rewrite E in Hnd. simpl in Hnd.
      assert (Hr : name r = n)
        by (apply (proj2 (proj1 (in_named_iff n r (mergeDependencies x y))
                            ltac:(rewrite E; now left)))).
      assert (Hr' : name r' = n)
        by (apply (proj2 (proj1 (in_named_iff n r' (mergeDependencies x y))
                            ltac:(rewrite E; right; now left)))).
      inversion Hnd as [|? ? Hnot _]; subst. apply Hnot. left. congruence. }
  destruct (Hex a b Hn) as [rab Hab]. destruct (Hex b a) as [rba Hba]; [tauto|].
  exists rab, rba. split; [exact Hab | split; [exact Hba | split]].
  - destruct (mergeDependencies_winner_maximal _ _ _ _ Hab) as [w1 [Hw1 [Hv1 Hmax1]]].
    destruct (mergeDependencies_winner_maximal _ _ _ _ Hba) as [w2 [Hw2 [Hv2 Hmax2]]].
    assert (Hswap : forall d, In d (named n (a ++ b)) <-> In d (named n (b ++ a))).
    { intros d. rewrite !in_named_iff, !in_app_iff. tauto. }
    assert (H12 : compareSemver (version w1) (version w2) <= 0)
      by (apply Hmax2, Hswap, Hw1).
    assert (H21 : compareSemver (version w2) (version w1) <= 0)
      by (apply Hmax1, Hswap, Hw2).
    rewrite Hv1, Hv2. rewrite compareSemver_flip in H21. lia.
  - rewrite (mergeDependencies_dev_false_iff _ _ _ _ Hab).
    rewrite (mergeDependencies_dev_false_iff _ _ _ _ Hba).
    split; intros [d [Hd H]]; exists d; rewrite in_app_iff in *; tauto.
Qed.

Lemma mergeDependencies_order_of_lists_witness :
  (In "zod" (map name [mkDep "zod" "^3.0.0" None None])
   \/ In "zod" (map name [mkDep "zod" "~3.0.0" None (Some false)]))
  /\ exists rab rba,
       named "zod" (mergeDependencies [mkDep "zod" "^3.0.0" None None]
                                      [mkDep "zod" "~3.0.0" None (Some false)]) = [rab]
       /\ named "zod" (mergeDependencies [mkDep "zod" "~3.0.0" None (Some false)]
                                         [mkDep "zod" "^3.0.0" None None]) = [rba]
       /\ compareSemver (version rab) (version rba) = 0
       /\ (dev rab = Some false <-> dev rba = Some false).
Proof.
  assert (H : In "zod" (map name [mkDep "zod" "^3.0.0" None None])
              \/ In "zod" (map name [mkDep "zod" "~3.0.0" None (Some false)]))
    by (left; simpl; left; reflexivity).
  split; [exact H|].
  exact (mergeDependencies_order_of_lists [mkDep "zod" "^3.0.0" None None]
           [mkDep "zod" "~3.0.0" None (Some false)] "zod" H).
Defined.

(** ** Selection order *)

Section SortFacts.
Variable P : Type.
Variable priority : P -> option Z.

Lemma sortedInsert_last (x : P) (l : list P) :
  Forall (fun y => notLower priority y x) l ->
  sortedInsert (byPriority priority) x l = l ++ [x].
Proof.
  induction 1 as [|y l Hy Hl IH]; simpl; trivial.
  unfold byPriority at 1. unfold notLower in Hy.
  destruct (Z.ltb_spec (orZero (priority y) - orZero (priority x)) 0); [lia|].
  now rewrite IH.
Qed.

Lemma sort_loop_sorted (l acc : list P) :
  StronglySorted (notLower priority) (acc ++ l) ->
  fold_left (fun sorted x => sortedInsert (byPriority priority) x sorted) l acc
  = acc ++ l.
Proof.
  revert acc. induction l as [|x l IH]; simpl; intros acc Hs.
  - now rewrite app_nil_r.
  - assert (Hacc : Forall (fun y => notLower priority y x) acc).
    { clear IH. induction acc as [|y acc IHacc]; [constructor|].
      simpl in Hs. inversion Hs as [|? ? Hs' Hy]; subst. constructor.
      - rewrite Forall_forall in Hy. apply Hy. apply in_or_app. right. now left.
      - now apply IHacc. }
    rewrite sortedInsert_last by exact Hacc. rewrite IH; rewrite <- app_assoc; trivial.
Qed.

(** Sorting a list that is sorted leaves it as it is. *)
Lemma sort_sorted (l : list P) :
  StronglySorted (notLower priority) l -> sort (byPriority priority) l = l.
Proof. intros Hs. unfold sort. now rewrite sort_loop_sorted. Qed.

Lemma sort_snoc (l : list P) (x : P) :
  sort (byPriority priority) (l ++ [x])
  = sortedInsert (byPriority priority) x (sort (byPriority priority) l).
Proof. unfold sort. now rewrite fold_left_app. Qed.

(** Where [sortedInsert] puts a plugin in a sorted list: behind every
    plugin of the same or a higher priority, before the lower ones. *)
Lemma sortedInsert_position (x : P) (l : list P) :
  StronglySorted (notLower priority) l ->
  exists before after,
    l = before ++ after
    /\ sortedInsert (byPriority priority) x l = before ++ x :: after
    /\ Forall (fun y => orZero (priority x) <= orZero (priority y)) before
    /\ Forall (fun y => orZero (priority y) < orZero (priority x)) after.
Proof.
  induction 1 as [|y l Hl IH Hy]; simpl.
  - exists [], []. repeat split; constructor.
  - unfold byPriority at 1.
    destruct (Z.ltb_spec (orZero (priority y) - orZero (priority x)) 0) as [Hlt|Hge].
    + exists [], (y :: l). repeat split; [constructor|].
      constructor; [lia|]. rewrite Forall_forall in *. intros z Hz.
      specialize (Hy z Hz). unfold notLower in Hy. lia.
    + destruct IH as [before [after [-> [Hins [Hb Ha]]]]].
      exists (y :: before), after. rewrite Hins. repeat split; trivial.
      constructor; [lia | exact Hb].
Qed.

Lemma sortedInsert_sorted (x : P) (l : list P) :
  StronglySorted (notLower priority) l ->
  StronglySorted (notLower priority) (sortedInsert (byPriority priority) x l).
Proof.
  intros Hs. destruct (sortedInsert_position x l Hs) as [before [after [-> [-> [Hb Ha]]]]].
  clear -Hs Hb Ha. induction before as [|y before IH]; simpl in *.
  - constructor; trivial. rewrite Forall_forall in *. intros z Hz.
    specialize (Ha z Hz). unfold notLower. lia.
  - inversion Hs as [|? ? Hs' Hy]; subst. inversion Hb as [|? ? Hyx Hb']; subst.
    constructor; [now apply IH|].
    rewrite Forall_forall in *. intros z Hz. apply in_app_or in Hz.
    destruct Hz as [Hz|[<-|Hz]].
    + apply Hy. apply in_or_app. now left.
    + exact Hyx.
    + apply Hy. apply in_or_app. now right.
Qed.

(** Selecting one more plugin keeps the selection sorted. *)
Lemma sort_snoc_sorted (l : list P) (x : P) :
  StronglySorted (notLower priority) l ->
  StronglySorted (notLower priority) (sort (byPriority priority) (l ++ [x])).
Proof.
  intros Hs. rewrite sort_snoc, sort_sorted by exact Hs. now apply sortedInsert_sorted.
Qed.
End SortFacts.

Lemma built_sorted (this : OpenGenerator.t) :
  Built this ->
  StronglySorted (notLower GeneratorPlugin.priority) (selectedGenerators this).
Proof.
  induction 1; simpl; trivial; try constructor. now apply sort_snoc_sorted.
Qed.

(** X9. However an orchestrator was built, its selected generators, auth
    plugins and deploy plugins stand sorted by priority, higher first (a
    missing priority counting as 0). *)
Theorem built_selections_sorted :
  forall this : OpenGenerator.t,
    Built this ->
    StronglySorted (notLower GeneratorPlugin.priority) (selectedGenerators this)
    /\ StronglySorted (notLower AuthPlugin.priority) (selectedAuth this)
    /\ StronglySorted (notLower DeployPlugin.priority) (selectedDeploy this).
Proof.
  induction 1 as [|p this H [Hg [Ha Hd]]|p this H [Hg [Ha Hd]]|p this H [Hg [Ha Hd]]
                  |p this H [Hg [Ha Hd]]|p this H [Hg [Ha Hd]]|p this H [Hg [Ha Hd]]
                  |this H [Hg [Ha Hd]]];
    simpl; repeat split; trivial; try constructor; now apply sort_snoc_sorted.
Qed.

Lemma built_selections_sorted_witness :
  Built lowThenHigh
  /\ StronglySorted (notLower GeneratorPlugin.priority) (selectedGenerators lowThenHigh).
Proof.
  assert (H : Built lowThenHigh) by (repeat constructor).
  split; [exact H|]. exact (proj1 (built_selections_sorted lowThenHigh H)).
Defined.

(** X10. Selecting a generator on a built orchestrator puts it behind
    every selected generator of the same or a higher priority and before
    those of a lower one, and moves none of the others: among equal
    priorities generators run in the order they were selected. *)
Theorem generator_selected_in_place :
  forall (this : OpenGenerator.t) (p : GeneratorPlugin.t),
    Built this ->
    exists before after,
      selectedGenerators this = before ++ after
      /\ selectedGenerators (generator p this) = before ++ p :: after
      /\ Forall (fun g => orZero (GeneratorPlugin.priority p)
                          <= orZero (GeneratorPlugin.priority g)) before
      /\ Forall (fun g => orZero (GeneratorPlugin.priority g)
                          < orZero (GeneratorPlugin.priority p)) after.
Proof.
  intros this p H. pose proof (built_sorted this H) as Hs.
  simpl. rewrite sort_snoc, sort_sorted by exact Hs.
  now apply sortedInsert_position.
Qed.

Lemma generator_selected_in_place_witness :
  Built highThenLow
  /\ exists before after,
      selectedGenerators highThenLow = before ++ after
      /\ selectedGenerators (generator highGenerator highThenLow)
         = before ++ highGenerator :: after
      /\ Forall (fun g => orZero (GeneratorPlugin.priority highGenerator)
                          <= orZero (GeneratorPlugin.priority g)) before
      /\ Forall (fun g => orZero (GeneratorPlugin.priority g)
                          < orZero (GeneratorPlugin.priority highGenerator)) after.
Proof.
  assert (H : Built highThenLow) by (repeat constructor).
  split; [exact H|]. exact (generator_selected_in_place highThenLow highGenerator H).
Defined.

(** ** The order of the calls [generate] makes *)

Lemma StronglySorted_app A (R : A -> A -> Prop) (l1 l2 : list A) :
  StronglySorted R l1 -> StronglySorted R l2 ->
  (forall x y, In x l1 -> In y l2 -> R x y) ->
  StronglySorted R (l1 ++ l2).
Proof.
  induction 1 as [|x l1 H1 IH Hx]; simpl; intros H2 Hc; trivial.
  constructor.
  - apply IH; trivial. intros; apply Hc; trivial. now right.
  - rewrite Forall_forall in *. intros y Hy. apply in_app_or in Hy.
    destruct Hy as [Hy|Hy]; [now apply Hx | apply Hc; trivial; now left].
Qed.

Lemma inPhases_ret A lo hi (a : A) : inPhases lo hi (ret a).
Proof.
  intros tr. exists []. simpl. rewrite app_nil_r. repeat split; constructor.
Qed.

Lemma inPhases_lift A lo hi (r : Res A) : inPhases lo hi (lift r).
Proof.
  intros tr. exists []. simpl. rewrite app_nil_r. repeat split; constructor.
Qed.

Lemma inPhases_throw A lo hi message : inPhases lo hi (@throw A message).
Proof.
  intros tr. exists []. simpl. rewrite app_nil_r. repeat split; constructor.
Qed.

Lemma inPhases_call A lo hi e (r : Res A) :
  (lo <= phase e <= hi)%nat -> inPhases lo hi (call e r).
Proof.
  intros H tr. exists [e]. simpl. repeat split.
  - repeat constructor.
  - constructor; [exact H | constructor].
Qed.

Lemma inPhases_bind A B mid lo hi (c : Run A) (k : A -> Run B) :
  (lo <= mid <= hi)%nat ->
  inPhases lo mid c -> (forall a, inPhases mid hi (k a)) -> inPhases lo hi (bind c k).
Proof.
  intros Hmid Hc Hk tr. unfold bind.
  destruct (Hc tr) as [e1 [E1 [S1 F1]]].
  destruct (c tr) as [tr1 [a|message]]; simpl in E1; subst tr1.
  - destruct (Hk a (tr ++ e1)) as [e2 [E2 [S2 F2]]].
    exists (e1 ++ e2). rewrite E2, app_assoc. split; [reflexivity|].
    rewrite Forall_forall in F1, F2. split.
    + apply StronglySorted_app; trivial. intros x y Hx Hy.
      unfold inPhaseOrder. specialize (F1 x Hx). specialize (F2 y Hy). lia.
    + rewrite Forall_forall. intros x Hx. apply in_app_or in Hx.
      destruct Hx as [Hx|Hx]; [specialize (F1 x Hx) | specialize (F2 x Hx)]; lia.
  - exists e1. simpl. split; [reflexivity|]. split; trivial.
    rewrite Forall_forall in *. intros x Hx. specialize (F1 x Hx). lia.
Qed.

Lemma inPhases_within A lo hi lo' hi' (c : Run A) :
  inPhases lo hi c -> (lo' <= lo)%nat -> (hi <= hi')%nat -> inPhases lo' hi' c.
Proof.
  intros Hc Hlo Hhi tr. destruct (Hc tr) as [e [E [S F]]].
  exists e. repeat split; trivial.
  rewrite Forall_forall in *. intros x Hx. specialize (F x Hx). lia.
Qed.

Lemma inPhases_forEach A B p (body : B -> A -> Run B) xs acc :
  (forall acc x, inPhases p p (body acc x)) -> inPhases p p (forEach body xs acc).
Proof.
  intros Hbody. revert acc. induction xs as [|x xs IH]; simpl; intros acc.
  - apply inPhases_ret.
  - apply (inPhases_bind _ _ p); trivial. lia.
Qed.

Ltac phase_steps p :=
  repeat first
    [ apply inPhases_ret | apply inPhases_lift | apply inPhases_throw
    | apply inPhases_call; simpl; lia
    | apply inPhases_forEach; intros
    | apply (inPhases_bind _ _ p); [lia| |intros]
    | match goal with |- inPhases _ _ (match ?x with _ => _ end) => destruct x end
    | match goal with |- inPhases _ _ (if ?x then _ else _) => destruct x end ].

Lemma inPhases_parse this env input : inPhases 0 0 (parse this env input).
Proof. unfold parse. phase_steps 0%nat. Qed.

Lemma inPhases_runGenerators this parsed options code :
  inPhases 1 1 (runGenerators this parsed options code).
Proof. unfold runGenerators. phase_steps 1%nat. Qed.

Lemma inPhases_applyAdapter this options code :
  inPhases 2 2 (applyAdapter this options code).
Proof. unfold applyAdapter. phase_steps 2%nat. Qed.

Lemma inPhases_addAuth this parsed options code :
  inPhases 3 3 (addAuth this parsed options code).
Proof. unfold addAuth. phase_steps 3%nat. Qed.

Lemma inPhases_addDatabase this parsed options code :
  inPhases 4 4 (addDatabase this parsed options code).
Proof. unfold addDatabase. phase_steps 4%nat. Qed.

Lemma inPhases_addDeploy this options code :
  inPhases 5 5 (addDeploy this options code).
Proof. unfold addDeploy. phase_steps 5%nat. Qed.

Lemma inPhases_collectDependencies this existing :
  inPhases 6 6 (collectDependencies this existing).
Proof. unfold collectDependencies, pushDependencies, peerDependencies. phase_steps 6%nat. Qed.

Lemma inPhases_generate this env options :
  inPhases 0 7 (generate this env options).
Proof.
  unfold generate, afterAdapter.
  apply (inPhases_bind _ _ 0%nat); [lia | apply inPhases_parse | intros parsed].
  apply (inPhases_bind _ _ 1%nat);
    [lia | eapply inPhases_within; [apply inPhases_runGenerators | lia | lia] | intros code1].
  apply (inPhases_bind _ _ 2%nat);
    [lia | eapply inPhases_within; [apply inPhases_applyAdapter | lia | lia] | intros code2].
  apply (inPhases_bind _ _ 3%nat);
    [lia | eapply inPhases_within; [apply inPhases_addAuth | lia | lia] | intros code3].
  apply (inPhases_bind _ _ 4%nat);
    [lia | eapply inPhases_within; [apply inPhases_addDatabase | lia | lia] | intros code4].
  apply (inPhases_bind _ _ 5%nat);
    [lia | eapply inPhases_within; [apply inPhases_addDeploy | lia | lia] | intros code5].
  apply (inPhases_bind _ _ 6%nat);
    [lia | eapply inPhases_within; [apply inPhases_collectDependencies | lia | lia] | intros deps].
  apply (inPhases_bind _ _ 7%nat); [lia | |intros; apply inPhases_ret].
  destruct (shouldWrite options); [apply inPhases_call; simpl; lia | apply inPhases_ret].
Qed.

(** X11. Whatever the plugins return or throw, [generate] calls them in
    one order: the parser, then the generators, the adapter, the auth
    plugins, the database plugin, the deploy plugins, the dependency
    getters, and last the writer. No call of an earlier step follows a
    call of a later one. *)
Theorem generate_calls_in_phase_order :
  forall (this : OpenGenerator.t) (env : Env) (options : GenerateOptions),
    StronglySorted inPhaseOrder (fst (generate this env options [])).
Proof.
  intros this env options.
  destruct (inPhases_generate this env options []) as [ext [E [S _]]].
  rewrite E. exact S.
Qed.

(** ** What [generate] writes and returns *)

Lemma bind_inv A B (c : Run A) (k : A -> Run B) tr tr' b :
  bind c k tr = (tr', Ok b) ->
  exists tr1 a, c tr = (tr1, Ok a) /\ k a tr1 = (tr', Ok b).
Proof.
  unfold bind. destruct (c tr) as [tr1 [a|message]]; [|discriminate].
  intros H. now exists tr1, a.
Qed.

Lemma calm_ret A keep (a : A) : calm keep (ret a).
Proof. now intros tr. Qed.

Lemma calm_lift A keep (r : Res A) : calm keep (lift r).
Proof. now intros tr. Qed.

Lemma calm_throw A keep message : calm keep (@throw A message).
Proof. now intros tr. Qed.

Lemma calm_call A keep e (r : Res A) : keep e = false -> calm keep (call e r).
Proof.
  intros H tr. unfold call. simpl. rewrite filter_app. simpl. rewrite H.
  apply app_nil_r.
Qed.

Lemma calm_bind A B keep (c : Run A) (k : A -> Run B) :
  calm keep c -> (forall a, calm keep (k a)) -> calm keep (bind c k).
Proof.
  intros Hc Hk tr. unfold bind. specialize (Hc tr).
  destruct (c tr) as [tr1 [a|message]]; simpl in *.
  - now rewrite Hk.
  - exact Hc.
Qed.

Lemma calm_forEach A B keep (body : B -> A -> Run B) xs acc :
  (forall acc x, calm keep (body acc x)) -> calm keep (forEach body xs acc).
Proof.
  intros Hbody. revert acc. induction xs as [|x xs IH]; simpl; intros acc.
  - apply calm_ret.
  - apply calm_bind; trivial.
Qed.

Ltac calm_steps :=
  repeat first
    [ apply calm_ret | apply calm_lift | apply calm_throw
    | apply calm_call; reflexivity
    | apply calm_forEach; intros
    | apply calm_bind; [|intros]
    | match goal with |- calm _ (match ?x with _ => _ end) => destruct x end
    | match goal with |- calm _ (if ?x then _ else _) => destruct x end ].

Lemma calm_parse this env input : calm isWrite (parse this env input).
Proof. unfold parse. calm_steps. Qed.

Lemma calm_runGenerators this parsed options code :
  calm isWrite (runGenerators this parsed options code).
Proof. unfold runGenerators. calm_steps. Qed.

Lemma calm_applyAdapter this options code :
  calm isWrite (applyAdapter this options code).
Proof. unfold applyAdapter. calm_steps. Qed.

Lemma calm_addAuth this parsed options code :
  calm isWrite (addAuth this parsed options code).
Proof. unfold addAuth. calm_steps. Qed.

Lemma calm_addDatabase this parsed options code :
  calm isWrite (addDatabase this parsed options code).
Proof. unfold addDatabase. calm_steps. Qed.

Lemma calm_addDeploy this options code :
  calm isWrite (addDeploy this options code).
Proof. unfold addDeploy. calm_steps. Qed.

Lemma calm_collectDependencies this existing :
  calm isWrite (collectDependencies this existing).
Proof. unfold collectDependencies, pushDependencies, peerDependencies. calm_steps. Qed.

(** The steps of a [generate] that returned. *)
Lemma generate_inv this env options tr result :
  generate this env options [] = (tr, Ok result) ->
  exists t1 parsed t2 c1 t3 c2 t4 c3 t5 c4 t6 c5 t7 deps,
    parse this env (schema options) [] = (t1, Ok parsed)
    /\ runGenerators this parsed options emptyCode t1 = (t2, Ok c1)
    /\ applyAdapter this options c1 t2 = (t3, Ok c2)
    /\ addAuth this parsed options c2 t3 = (t4, Ok c3)
    /\ addDatabase this parsed options c3 t4 = (t5, Ok c4)
    /\ addDeploy this options c4 t5 = (t6, Ok c5)
    /\ collectDependencies this (dependencies c5) t6 = (t7, Ok deps)
    /\ result = mkCode (files c5) deps (metadata c5)
    /\ (if shouldWrite options
        then tr = t7 ++ [CallWriteGeneratedCode result (output options)]
             /\ writeGeneratedCode env result (output options) = Ok tt
        else tr = t7).
Proof.
  unfold generate, afterAdapter. intros H.
  apply bind_inv in H. destruct H as [t1 [parsed [H1 H]]].
  apply bind_inv in H. destruct H as [t2 [c1 [H2 H]]].
  apply bind_inv in H. destruct H as [t3 [c2 [H3 H]]].
  apply bind_inv in H. destruct H as [t4 [c3 [H4 H]]].
  apply bind_inv in H. destruct H as [t5 [c4 [H5 H]]].
  apply bind_inv in H. destruct H as [t6 [c5 [H6 H]]].
  apply bind_inv in H. destruct H as [t7 [deps [H7 H]]].
  apply bind_inv in H. destruct H as [t8 [u [H8 H]]].
  unfold ret in H. injection H as <- <-.
  exists t1, parsed, t2, c1, t3, c2, t4, c3, t5, c4, t6, c5, t7, deps.
  repeat (split; [assumption|]). split; [reflexivity|].
  destruct (shouldWrite options).
  - unfold call in H8. injection H8 as <- Hw. split; [reflexivity|].
    destruct u. exact Hw.
  - unfold ret in H8. now injection H8 as <- _.
Qed.

Lemma generate_before_write this env options tr result :
  generate this env options [] = (tr, Ok result) ->
  exists t7,
    filter isWrite t7 = []
    /\ (if shouldWrite options
        then tr = t7 ++ [CallWriteGeneratedCode result (output options)]
             /\ writeGeneratedCode env result (output options) = Ok tt
        else tr = t7).
Proof.
  intros H. apply generate_inv in H.
  destruct H as [t1 [parsed [t2 [c1 [t3 [c2 [t4 [c3 [t5 [c4 [t6 [c5 [t7 [deps
    [H1 [H2 [H3 [H4 [H5 [H6 [H7 [_ Hw]]]]]]]]]]]]]]]]]]]]]].
  exists t7. split; [|exact Hw].
  pose proof (calm_collectDependencies this (dependencies c5) t6) as Q7.
  pose proof (calm_addDeploy this options c4 t5) as Q6.
  pose proof (calm_addDatabase this parsed options c3 t4) as Q5.
  pose proof (calm_addAuth this parsed options c2 t3) as Q4.
  pose proof (calm_applyAdapter this options c1 t2) as Q3.
  pose proof (calm_runGenerators this parsed options emptyCode t1) as Q2.
  pose proof (calm_parse this env (schema options) []) as Q1.
  rewrite H7 in Q7. rewrite H6 in Q6. rewrite H5 in Q5. rewrite H4 in Q4.
  rewrite H3 in Q3. rewrite H2 in Q2. rewrite H1 in Q1. simpl in *.
  congruence.
Qed.

(** X12. A [generate] that returns has written at most once: when an
    output directory is given, [write] is not [false] and [dryRun] is not
    set, its last call hands the writer exactly the code it returns and the
    output directory, and the writer succeeded; otherwise the writer is
    never called. *)
Theorem generate_writes_what_it_returns :
  forall (this : OpenGenerator.t) (env : Env) (options : GenerateOptions)
         (tr : list Event) (result : GeneratedCode),
    generate this env options [] = (tr, Ok result) ->
    if shouldWrite options
    then (exists before,
            tr = before ++ [CallWriteGeneratedCode result (output options)]
            /\ filter isWrite before = [])
         /\ writeGeneratedCode env result (output options) = Ok tt
    else filter isWrite tr = [].
Proof.
  intros this env options tr result H.
  destruct (generate_before_write this env options tr result H) as [t7 [Hq Hw]].
  destruct (shouldWrite options).
  - destruct Hw as [-> Hw]. split; [now exists t7 | exact Hw].
  - now subst tr.
Qed.

Lemma generate_writes_what_it_returns_witness :
  exists tr result,
    generate highThenLow stubEnv writingOptions [] = (tr, Ok result)
    /\ (exists before,
          tr = before ++ [CallWriteGeneratedCode result (output writingOptions)]
          /\ filter isWrite before = [])
    /\ writeGeneratedCode stubEnv result (output writingOptions) = Ok tt.
Proof.
  eexists. eexists. split; [vm_compute; reflexivity|].
  exact (generate_writes_what_it_returns highThenLow stubEnv writingOptions _ _ eq_refl).
Defined.

(** A loop whose every round ends in a merge. *)
Lemma forEach_distinct_paths A (body : GeneratedCode -> A -> Run GeneratedCode) :
  (forall acc x tr tr' r, body acc x tr = (tr', Ok r) -> NoDup (paths r)) ->
  forall xs acc tr tr' r,
    forEach body xs acc tr = (tr', Ok r) ->
    (xs = [] /\ r = acc) \/ NoDup (paths r).
Proof.
  intros Hbody. induction xs as [|x xs IH]; simpl; intros acc tr tr' r H.
  - unfold ret in H. injection H as _ <-. now left.
  - apply bind_inv in H. destruct H as [tr1 [acc1 [H1 H]]].
    right. destruct (IH _ _ _ _ H) as [[_ ->]|Hnd]; trivial.
    exact (Hbody _ _ _ _ _ H1).
Qed.

Lemma merge_round_distinct (e : Event) (r0 : Res GeneratedCode) (acc : GeneratedCode)
    tr tr' r :
  (generated <- call e r0 ;; lift (mergeGeneratedCode acc generated noOptions)) tr
  = (tr', Ok r) ->
  NoDup (paths r).
Proof.
  intros H. apply bind_inv in H. destruct H as [tr1 [g [_ H]]].
  unfold lift in H. injection H as _ H.
  exact (proj1 (mergeGeneratedCode_paths _ _ _ H)).
Qed.

(** X13. The code a [generate] returns never names a dependency twice.
    Its file paths are pairwise distinct too unless an adapter ran and no
    auth, database or deploy plugin came after it: then the files are
    the adapter's, as it returned them. *)
Theorem generate_output_distinct :
  forall (this : OpenGenerator.t) (env : Env) (options : GenerateOptions)
         (tr : list Event) (result : GeneratedCode),
    generate this env options [] = (tr, Ok result) ->
    NoDup (map name (dependencies result))
    /\ (selectedAdapter this = None \/ selectedAuth this <> []
        \/ selectedDatabase this <> None \/ selectedDeploy this <> [] ->
        NoDup (paths result))
    /\ (forall a, selectedAdapter this = Some a -> selectedAuth this = [] ->
        selectedDatabase this = None -> selectedDeploy this = [] ->
        exists adapted given,
          AdapterPlugin.adapt a given options = Ok adapted
          /\ files result = files adapted).
Proof.
  intros this env options tr result H. apply generate_inv in H.
  destruct H as [t1 [parsed [t2 [c1 [t3 [c2 [t4 [c3 [t5 [c4 [t6 [c5 [t7 [deps
    [H1 [H2 [H3 [H4 [H5 [H6 [H7 [-> _]]]]]]]]]]]]]]]]]]]]]].
  assert (Hc1 : NoDup (paths c1)).
  { unfold runGenerators in H2.
    apply forEach_distinct_paths in H2.
    - destruct H2 as [[_ ->]|Hnd]; [constructor | exact Hnd].
    - intros acc x tr0 tr' r Hr. exact (merge_round_distinct _ _ _ _ _ _ Hr). }
  assert (Hc3 : (selectedAuth this = [] /\ c3 = c2) \/ NoDup (paths c3)).
  { unfold addAuth in H4. apply forEach_distinct_paths in H4; trivial.
    intros acc x tr0 tr' r Hr. exact (merge_round_distinct _ _ _ _ _ _ Hr). }
  assert (Hc4 : (selectedDatabase this = None /\ c4 = c3) \/ NoDup (paths c4)).
  { unfold addDatabase in H5. destruct (selectedDatabase this) as [db|].
    - right. exact (merge_round_distinct _ _ _ _ _ _ H5).
    - left. unfold ret in H5. injection H5 as _ <-. now split. }
  assert (Hc5 : (selectedDeploy this = [] /\ c5 = c4) \/ NoDup (paths c5)).
  { unfold addDeploy in H6. apply forEach_distinct_paths in H6; trivial.
    intros acc x tr0 tr' r Hr. exact (merge_round_distinct _ _ _ _ _ _ Hr). }
  split; [|split].
  - simpl. unfold collectDependencies in H7.
    repeat (apply bind_inv in H7; destruct H7 as [? [? [_ H7]]]).
    unfold ret in H7. injection H7 as _ <-. apply mergeDependencies_nodup.
  - unfold paths in *. simpl. intros Hsel.
    destruct Hc5 as [[Ede ->]|Hnd]; trivial.
    destruct Hc4 as [[Edb ->]|Hnd]; trivial.
    destruct Hc3 as [[Eau ->]|Hnd]; trivial.
    destruct Hsel as [Ead|[Hau|[Hdb|Hde]]]; try contradiction.
    unfold applyAdapter in H3. rewrite Ead in H3. unfold ret in H3.
    injection H3 as _ <-. exact Hc1.
  - intros a Ead Eau Edb Ede. simpl.
    unfold applyAdapter in H3. rewrite Ead in H3. unfold call in H3.
    injection H3 as _ Had.
    exists c2, c1. split; [exact Had|].
    destruct Hc5 as [[_ ->]|Hnd].
    + destruct Hc4 as [[_ ->]|Hnd].
      * destruct Hc3 as [[_ ->]|Hnd]; trivial.
        unfold addAuth in H4. rewrite Eau in H4. simpl in H4. unfold ret in H4.
        now injection H4 as _ <-.
      * unfold addDatabase in H5. rewrite Edb in H5. unfold ret in H5.
        injection H5 as _ <-.
        unfold addAuth in H4. rewrite Eau in H4. simpl in H4. unfold ret in H4.
        now injection H4 as _ <-.
    + unfold addDeploy in H6. rewrite Ede in H6. simpl in H6. unfold ret in H6.
      injection H6 as _ <-.
      unfold addDatabase in H5. rewrite Edb in H5. unfold ret in H5.
      injection H5 as _ <-.
      unfold addAuth in H4. rewrite Eau in H4. simpl in H4. unfold ret in H4.
      now injection H4 as _ <-.
Qed.

Lemma generate_output_distinct_witness :
  exists tr result,
    generate highThenLow stubEnv stubOptions [] = (tr, Ok result)
    /\ NoDup (map name (dependencies result))
    /\ NoDup (paths result).
Proof.
  eexists. eexists. split; [vm_compute; reflexivity|].
  destruct (generate_output_distinct highThenLow stubEnv stubOptions _ _ eq_refl)
    as [Hd [Hp _]].
  split; [exact Hd|]. apply Hp. left. reflexivity.
Defined.

(** X14. [generate] does not validate the configuration. With a parser
    that parses and nothing else selected it calls no plugin but the
    parser and returns the empty code (after handing it to the writer when
    it is to write), although [validate] reports the configuration
    invalid for want of a generator. *)
Theorem generate_without_plugins :
  forall (this : OpenGenerator.t) (env : Env) (options : GenerateOptions)
         (t1 : list Event) (parsed : SchemaIR),
    selectedGenerators this = [] -> selectedAdapter this = None ->
    selectedAuth this = [] -> selectedDatabase this = None ->
    selectedDeploy this = [] ->
    parse this env (schema options) [] = (t1, Ok parsed) ->
    generate this env options []
    = (if shouldWrite options
       then (t1 ++ [CallWriteGeneratedCode emptyCode (output options)],
             match writeGeneratedCode env emptyCode (output options) with
             | Ok _ => Ok emptyCode
             | Throw message => Throw message
             end)
       else (t1, Ok emptyCode))
    /\ valid (validate this) = false
    /\ In "No generators selected" (errors (validate this)).
Proof.
  intros this env options t1 parsed Hg Had Hau Hdb Hde Hparse.
  split.
  - unfold generate. erewrite bind_ok by exact Hparse.
    unfold runGenerators, applyAdapter, afterAdapter, addAuth, addDatabase, addDeploy,
      collectDependencies.
    rewrite Hg, Had, Hau, Hdb, Hde. simpl. unfold bind, ret. simpl.
    change (mergeDependencies [] []) with (@nil Dependency).
    change (mkCode [] [] None) with emptyCode.
    destruct (shouldWrite options); [|reflexivity].
    unfold call. now destruct (writeGeneratedCode env emptyCode (output options)).
  - unfold validate. rewrite Hg. simpl.
    destruct (selectedParser this); simpl; split; trivial; auto.
Qed.

Lemma generate_without_plugins_witness :
  generate (parser stubParser createGenerator) stubEnv writingOptions []
  = ([CallParse "mock-parser" "test";
      CallWriteGeneratedCode emptyCode "./test-output"], Ok emptyCode)
  /\ valid (validate (parser stubParser createGenerator)) = false.
Proof.
  destruct (generate_without_plugins (parser stubParser createGenerator) stubEnv
              writingOptions [CallParse "mock-parser" "test"] stubSchema
              eq_refl eq_refl eq_refl eq_refl eq_refl eq_refl) as [H [Hv _]].
  split; [exact H | exact Hv].
Defined.

(* ------------------------------------------------------------------ *)
(** ** Naming helpers *)

Lemma length_app_string (s u : string) :
  String.length (s ++ u) = (String.length s + String.length u)%nat.
Proof. induction s as [|c s IH]; simpl; [reflexivity | now rewrite IH]. Qed.

Lemma app_string_assoc (s u v : string) : ((s ++ u) ++ v = s ++ (u ++ v))%string.
Proof. induction s as [|c s IH]; simpl; [reflexivity | now rewrite IH]. Qed.

Lemma substring_all (s : string) : substring 0 (String.length s) s = s.
Proof. induction s as [|c s IH]; simpl; [reflexivity | now rewrite IH]. Qed.

Lemma substring_front (t u : string) :
  substring 0 (String.length t) (t ++ u) = t.
Proof.
  induction t as [|c t IH]; simpl.
  - now destruct u.
  - now rewrite IH.
Qed.

Lemma substring_back (t u : string) :
  substring (String.length t) (String.length u) (t ++ u) = u.
Proof. induction t as [|c t IH]; simpl; [apply substring_all | exact IH]. Qed.

Lemma substring_split (s : string) (n : nat) :
  (n <= String.length s)%nat ->
  s = (substring 0 n s ++ substring n (String.length s - n) s)%string.
Proof.
  revert n. induction s as [|c s IH]; intros n Hn; simpl in *.
  - now destruct n.
  - destruct n as [|n]; simpl.
    + now rewrite substring_all.
    + f_equal. apply IH. lia.
Qed.

Lemma endsWith_app (t u : string) : endsWith u (t ++ u) = true.
Proof.
  unfold endsWith. rewrite length_app_string.
  destruct (Z.ltb_spec (Z.of_nat (String.length t + String.length u)
                        - Z.of_nat (String.length u)) 0) as [H|H]; [lia|].
  replace (Z.to_nat (Z.of_nat (String.length t + String.length u)
                     - Z.of_nat (String.length u))) with (String.length t) by lia.
  rewrite substring_back. apply String.eqb_refl.
Qed.

Lemma endsWith_inv (u s : string) :
  endsWith u s = true -> exists t, s = (t ++ u)%string.
Proof.
  unfold endsWith.
  destruct (Z.ltb_spec (Z.of_nat (String.length s) - Z.of_nat (String.length u)) 0)
    as [H|H]; [discriminate|].
  intros E. apply String.eqb_eq in E.
  exists (substring 0 (String.length s - String.length u) s).
  pose proof (substring_split s (String.length s - String.length u)
                ltac:(lia)) as Hs.
  replace (String.length s - (String.length s - String.length u))%nat
    with (String.length u) in Hs by lia.
  replace (Z.to_nat (Z.of_nat (String.length s) - Z.of_nat (String.length u)))
    with (String.length s - String.length u)%nat in E by lia.
  rewrite E in Hs. exact Hs.
Qed.

Lemma sliceToEnd_app (t u : string) : sliceToEnd (String.length u) (t ++ u) = t.
Proof.
  unfold sliceToEnd. rewrite length_app_string.
  replace (String.length t + String.length u - String.length u)%nat
    with (String.length t) by lia.
  apply substring_front.
Qed.

Lemma app_string_cancel (u s t : string) : (s ++ u = t ++ u)%string -> s = t.
Proof.
  revert t. induction s as [|c s IH]; intros t H.
  - destruct t as [|d t]; trivial. exfalso.
    apply (f_equal String.length) in H. simpl in H.
    rewrite length_app_string in H. lia.
  - destruct t as [|d t].
    + exfalso. apply (f_equal String.length) in H. simpl in H.
      rewrite length_app_string in H. lia.
    + simpl in H. injection H as -> H. f_equal. now apply IH.
Qed.

Lemma last_char (s t : string) (c d : ascii) :
  (s ++ String c "" = t ++ String d "")%string -> s = t /\ c = d.
Proof.
  revert t. induction s as [|a s IH]; intros t H.
  - destruct t as [|b t]; simpl in H.
    + injection H as ->. now split.
    + exfalso. apply (f_equal String.length) in H. simpl in H.
      rewrite length_app_string in H. simpl in H. lia.
  - destruct t as [|b t]; simpl in H.
    + exfalso. apply (f_equal String.length) in H. simpl in H.
      rewrite length_app_string in H. simpl in H. lia.
    + injection H as -> H. destruct (IH t H) as [-> ->]. now split.
Qed.

(** A string that ends in the character [c] does not end in a suffix
    whose last character is another one. *)
Lemma endsWith_other (s t u : string) (c d : ascii) :
  s = (t ++ String c "")%string -> c <> d ->
  endsWith (u ++ String d "") s = false.
Proof.
  intros -> Hcd. destruct (endsWith (u ++ String d "") (t ++ String c "")) eqn:E; trivial.
  apply endsWith_inv in E. destruct E as [t' E].
  rewrite <- app_string_assoc in E. apply last_char in E. now destruct E.
Qed.

(** X15. Singularizing the plural gives the word back exactly when the
    word does not end in e; the empty word comes back too. *)
Theorem singularize_pluralize :
  forall str : string,
    singularize (pluralize str) = str <-> endsWith "e" str = false.
Proof.
  intros str. split.
  - intros Hround. destruct (endsWith "e" str) eqn:Ee; trivial. exfalso.
    apply endsWith_inv in Ee. destruct Ee as [t Et].
    unfold pluralize in Hround.
    rewrite (endsWith_other str t "" "e" "y" Et ltac:(discriminate)
                : endsWith "y" str = false) in Hround.
    rewrite (endsWith_other str t "" "e" "s" Et ltac:(discriminate)
                : endsWith "s" str = false) in Hround.
    rewrite (endsWith_other str t "" "e" "x" Et ltac:(discriminate)
                : endsWith "x" str = false) in Hround.
    rewrite (endsWith_other str t "c" "e" "h" Et ltac:(discriminate)
                : endsWith "ch" str = false) in Hround.
    rewrite (endsWith_other str t "s" "e" "h" Et ltac:(discriminate)
                : endsWith "sh" str = false) in Hround.
    cbn [orb] in Hround. unfold singularize in Hround.
    destruct (endsWith "ies" (str ++ "s")) eqn:Eies.
    + apply endsWith_inv in Eies. destruct Eies as [t2 E2]. rewrite E2 in Hround.
      change 3%nat with (String.length "ies") in Hround.
      rewrite sliceToEnd_app in Hround.
      change "ies"%string with ("ie" ++ "s")%string in E2.
      rewrite <- app_string_assoc in E2. apply app_string_cancel in E2.
      rewrite E2 in Hround. apply (f_equal String.length) in Hround.
      rewrite !length_app_string in Hround. simpl in Hround. lia.
    + assert (Ees : (str ++ "s" = t ++ "es")%string).
      { rewrite Et, app_string_assoc. reflexivity. }
      rewrite Ees in Hround. rewrite endsWith_app in Hround.
      change 2%nat with (String.length "es") in Hround.
      rewrite sliceToEnd_app in Hround.
      rewrite Et in Hround. apply (f_equal String.length) in Hround.
      rewrite length_app_string in Hround. simpl in Hround. lia.
  - intros Ee. unfold pluralize.
    destruct (endsWith "y" str) eqn:Ey.
    + apply endsWith_inv in Ey. destruct Ey as [t ->].
      change 1%nat with (String.length "y"). rewrite sliceToEnd_app.
      unfold singularize. rewrite endsWith_app.
      change 3%nat with (String.length "ies"). now rewrite sliceToEnd_app.
    + destruct (endsWith "s" str || endsWith "x" str || endsWith "ch" str
                || endsWith "sh" str) eqn:Es.
      * unfold singularize.
        assert (Eies : endsWith "ies" (str ++ "es") = false).
        { destruct (endsWith "ies" (str ++ "es")) eqn:E; trivial. exfalso.
          apply endsWith_inv in E. destruct E as [t E].
          change "ies"%string with ("i" ++ "es")%string in E.
          rewrite <- app_string_assoc in E. apply app_string_cancel in E.
          rewrite (endsWith_other str t "" "i" "s" E ltac:(discriminate)
                : endsWith "s" str = false) in Es.
          rewrite (endsWith_other str t "" "i" "x" E ltac:(discriminate)
                : endsWith "x" str = false) in Es.
          rewrite (endsWith_other str t "c" "i" "h" E ltac:(discriminate)
                : endsWith "ch" str = false) in Es.
          rewrite (endsWith_other str t "s" "i" "h" E ltac:(discriminate)
                : endsWith "sh" str = false) in Es.
          discriminate. }
        rewrite Eies, endsWith_app.
        change 2%nat with (String.length "es"). apply sliceToEnd_app.
      * unfold singularize.
        assert (Eies : endsWith "ies" (str ++ "s") = false).
        { destruct (endsWith "ies" (str ++ "s")) eqn:E; trivial. exfalso.
          apply endsWith_inv in E. destruct E as [t E].
          change "ies"%string with ("ie" ++ "s")%string in E.
          rewrite <- app_string_assoc in E. apply app_string_cancel in E.
          change "ie"%string with ("i" ++ "e")%string in E.
          rewrite <- app_string_assoc in E.
          rewrite E, endsWith_app in Ee. discriminate. }
        assert (Ees : endsWith "es" (str ++ "s") = false).
        { destruct (endsWith "es" (str ++ "s")) eqn:E; trivial. exfalso.
          apply endsWith_inv in E. destruct E as [t E].
          change "es"%string with ("e" ++ "s")%string in E.
          rewrite <- app_string_assoc in E. apply app_string_cancel in E.
          rewrite E, endsWith_app in Ee. discriminate. }
        rewrite Eies, Ees, endsWith_app.
        change 1%nat with (String.length "s"). apply sliceToEnd_app.
Qed.

(* ------------------------------------------------------------------ *)
(** ** The pipeline *)

Lemma pluginSteps_app (s1 s2 : list Step) :
  pluginSteps (s1 ++ s2) = pluginSteps s1 ++ pluginSteps s2.
Proof. unfold pluginSteps. now rewrite flat_map_app. Qed.

Lemma pluginSteps_plugin (calls : list Event) :
  pluginSteps (map PluginStep calls) = calls.
Proof. induction calls as [|e calls IH]; simpl; [reflexivity | now rewrite IH]. Qed.

Lemma pluginSteps_emitEvent config event :
  pluginSteps (Pipeline.emitEvent config event) = [].
Proof.
  unfold Pipeline.emitEvent. destruct (PipelineConfig.hooks config) as [h|]; trivial.
  destruct (PipelineEvent.status event);
    [destruct (Hooks.onStageStart h) as [hook|]
    |destruct (Hooks.onStageComplete h) as [hook|]
    |destruct (Hooks.onStageError h) as [hook|]]; trivial;
    now destruct (hook event).
Qed.

Lemma andThen_inv A B (c : Staged A) (k : A -> Staged B) steps b :
  andThen c k = (steps, Ok b) ->
  exists s1 a s2, c = (s1, Ok a) /\ k a = (s2, Ok b) /\ steps = s1 ++ s2.
Proof.
  unfold andThen. destruct c as [s1 [a|m]]; [|discriminate].
  destruct (k a) as [s2 r] eqn:Hk. intros [= <- ->]. now exists s1, a, s2.
Qed.

Lemma runStage_inv T config stage (fn : Staged T) steps result :
  Pipeline.runStage config stage fn = (steps, Ok result) ->
  exists inner,
    fn = (inner, Ok result)
    /\ steps = Pipeline.emitEvent config (PipelineEvent.make stage StatusStart None)
               ++ inner
               ++ Pipeline.emitEvent config (PipelineEvent.make stage StatusComplete None).
Proof.
  unfold Pipeline.runStage. destruct fn as [inner [r|m]]; [|discriminate].
  intros [= <- ->]. now exists inner.
Qed.


Lemma plugins_inv A (c : Run A) steps (a : A) :
  plugins c = (steps, Ok a) ->
  exists calls, c [] = (calls, Ok a) /\ steps = map PluginStep calls.
Proof.
  unfold plugins. destruct (c []) as [calls r]. intros [= <- ->]. now exists calls.
Qed.


(** The stages of a pipeline run that returned. *)
Lemma run_inv this env config options steps result :
  Pipeline.run this env config options = (steps, Ok result) ->
  exists t1 parsed warned transformed t2 generated processed,
    parse this env (schema options) [] = (t1, Ok parsed)
    /\ Pipeline.validateStage this = Ok warned
    /\ Pipeline.applyTransforms
         (Pipeline.orNone (PipelineConfig.schemaTransforms config)) parsed
       = Ok transformed
    /\ generate this env (Pipeline.withoutWrite options) [] = (t2, Ok generated)
    /\ Pipeline.postProcess config generated = Ok processed
    /\ (Pipeline.pipelineWrites options = true ->
        writeGeneratedCode env processed (output options) = Ok tt)
    /\ result = PipelineResult.make processed transformed warned
    /\ pluginSteps steps
       = t1 ++ t2
         ++ (if Pipeline.pipelineWrites options
             then [CallWriteGeneratedCode processed (output options)] else []).
Proof.
  unfold Pipeline.run. intros H.
  apply andThen_inv in H. destruct H as [s1 [parsed [r1 [H1 [H ->]]]]].
  apply andThen_inv in H. destruct H as [s2 [warned [r2 [H2 [H ->]]]]].
  apply andThen_inv in H. destruct H as [s3 [transformed [r3 [H3 [H ->]]]]].
  apply andThen_inv in H. destruct H as [s4 [generated [r4 [H4 [H ->]]]]].
  apply andThen_inv in H. destruct H as [s5 [processed [r5 [H5 [H ->]]]]].
  apply andThen_inv in H. destruct H as [s6 [u [r6 [H6 [H ->]]]]].
  injection H as <- <-.
  apply runStage_inv in H1. destruct H1 as [i1 [H1 ->]].
  apply runStage_inv in H2. destruct H2 as [i2 [H2 ->]].
  apply runStage_inv in H3. destruct H3 as [i3 [H3 ->]].
  apply runStage_inv in H4. destruct H4 as [i4 [H4 ->]].
  apply runStage_inv in H5. destruct H5 as [i5 [H5 ->]].
  apply plugins_inv in H1. destruct H1 as [t1 [H1 ->]].
  apply plugins_inv in H4. destruct H4 as [t2 [H4 ->]].
  injection H2 as <- H2. injection H3 as <- H3. injection H5 as <- H5.
  exists t1, parsed, warned, transformed, t2, generated, processed.
  repeat (split; [assumption|]).
  destruct (Pipeline.pipelineWrites options).
  - apply runStage_inv in H6. destruct H6 as [i6 [H6 ->]].
    unfold plugins, call in H6. injection H6 as <- H6.
    split; [intros _; now destruct u|]. split; [reflexivity|].
    rewrite !pluginSteps_app, !pluginSteps_emitEvent, !pluginSteps_plugin. simpl.
    now rewrite !app_nil_r.
  - injection H6 as <-. split; [discriminate|]. split; [reflexivity|].
    rewrite !pluginSteps_app, !pluginSteps_emitEvent, !pluginSteps_plugin. simpl.
    now rewrite !app_nil_r.
Qed.

(** X16. A pipeline run on a configuration [validate] rejects always
    fails, and calls no plugin but the parser. As the parse stage comes
    before the validate stage, a missing parser or a failing parse is
    reported as the error of the parse; only when the parse went through is
    the error the validation message, which then names the missing
    generators alone. *)
Theorem pipeline_validation_gate :
  forall (this : OpenGenerator.t) (env : Env) (config : PipelineConfig.t)
         (options : GenerateOptions),
    valid (validate this) = false ->
    pluginSteps (fst (Pipeline.run this env config options))
    = fst (parse this env (schema options) [])
    /\ snd (Pipeline.run this env config options)
       = Throw (match snd (parse this env (schema options) []) with
                | Throw message => message
                | Ok _ => "Validation failed: No generators selected"
                end).
Proof.
  intros this env config options Hv.
  unfold Pipeline.run, plugins.
  destruct (parse this env (schema options) []) as [t1 [parsed|message]] eqn:Hp.
  - assert (Hstage : Pipeline.validateStage this
                     = Throw "Validation failed: No generators selected").
    { unfold Pipeline.validateStage. rewrite Hv. simpl.
      unfold validate in *. unfold parse in Hp.
      destruct (selectedParser this); [|discriminate].
      simpl in *. destruct (Z.of_nat (length (selectedGenerators this)) =? 0);
        [reflexivity | discriminate]. }
    rewrite Hstage. unfold Pipeline.runStage, andThen. simpl.
    rewrite !pluginSteps_app, !pluginSteps_emitEvent, !pluginSteps_plugin. simpl.
    now rewrite !app_nil_r.
  - unfold Pipeline.runStage, andThen. simpl.
    rewrite !pluginSteps_app, !pluginSteps_emitEvent, !pluginSteps_plugin. simpl.
    now rewrite !app_nil_r.
Qed.

Lemma pipeline_validation_gate_witness :
  valid (validate (parser stubParser createGenerator)) = false
  /\ snd (Pipeline.run (parser stubParser createGenerator) stubEnv
            (PipelineConfig.make None None None None) stubOptions)
     = Throw "Validation failed: No generators selected".
Proof.
  split; [reflexivity|].
  exact (proj2 (pipeline_validation_gate (parser stubParser createGenerator) stubEnv
                  (PipelineConfig.make None None None None) stubOptions eq_refl)).
Defined.



(** X18. A pipeline run that returns has handed the writer the code it
    returns, once and after every plugin call, when [write] is not [false]
    and [dryRun] is not set, whatever the output directory, the empty one
    included; otherwise the writer was never called. The orchestrator's
    own writing is switched off inside it. *)
Theorem pipeline_writes_processed_code :
  forall (this : OpenGenerator.t) (env : Env) (config : PipelineConfig.t)
         (options : GenerateOptions) (steps : list Step) (result : PipelineResult.t),
    Pipeline.run this env config options = (steps, Ok result) ->
    if Pipeline.pipelineWrites options
    then exists before,
           pluginSteps steps
           = before ++ [CallWriteGeneratedCode (PipelineResult.code result)
                                               (output options)]
           /\ filter isWrite before = []
    else filter isWrite (pluginSteps steps) = [].
Proof.
  intros this env config options steps result H.
  destruct (run_inv this env config options steps result H)
    as [t1 [parsed [warned [transformed [t2 [generated [processed
       [H1 [_ [_ [H4 [_ [_ [-> Hsteps]]]]]]]]]]]]]].
  assert (Q1 : filter isWrite t1 = []).
  { pose proof (calm_parse this env (schema options) []) as Q.
    rewrite H1 in Q. exact Q. }
  assert (Q2 : filter isWrite t2 = []).
  { destruct (generate_before_write this env (Pipeline.withoutWrite options) t2
                generated H4) as [t7 [Q Hw]].
    assert (Hs : shouldWrite (Pipeline.withoutWrite options) = false).
    { unfold shouldWrite, Pipeline.withoutWrite. simpl.
      now rewrite andb_false_r. }
    rewrite Hs in Hw. now subst t2. }
  rewrite Hsteps. cbn [PipelineResult.code].
  destruct (Pipeline.pipelineWrites options).
  - exists (t1 ++ t2). split; [now rewrite app_assoc|].
    now rewrite filter_app, Q1, Q2.
  - now rewrite app_nil_r, filter_app, Q1, Q2.
Qed.

Lemma pipeline_writes_processed_code_witness :
  exists steps result,
    Pipeline.run highThenLow stubEnv usersOnly writingOptions = (steps, Ok result)
    /\ exists before,
         pluginSteps steps
         = before ++ [CallWriteGeneratedCode (PipelineResult.code result)
                                             (output writingOptions)]
         /\ filter isWrite before = [].
Proof.
  eexists. eexists. split; [vm_compute; reflexivity|].
  exact (pipeline_writes_processed_code highThenLow stubEnv usersOnly writingOptions
           _ _ eq_refl).
Defined.

(** X20. [filterModels] and [excludeModels] of the same names split the
    models of a schema in two: each model is kept by exactly one of
    them. Excluding after filtering leaves no model, filtering
    twice is filtering once, and neither touches the enums or the
    relations, which may so refer to models that are gone. *)
Theorem filterModels_excludeModels_split :
  forall (names : list string) (ir : SchemaIR),
    exists kept dropped,
      filterModels names ir = Ok kept
      /\ excludeModels names ir = Ok dropped
      /\ Permutation (models kept ++ models dropped) (models ir)
      /\ (forall m, In m (models ir) ->
            (In m (models kept) <-> ~ In m (models dropped)))
      /\ excludeModels names kept = Ok (withModels ir [])
      /\ filterModels names kept = Ok kept
      /\ relations kept = relations ir /\ relations dropped = relations ir
      /\ enums kept = enums ir /\ enums dropped = enums ir.
Proof.
  intros names ir. eexists. eexists.
  split; [reflexivity|]. split; [reflexivity|]. cbn [models withModels].
  split; [|split; [|split; [|split]]].
  - induction (models ir) as [|m l IH]; simpl; [constructor|].
    destruct (namesInclude names (Model.name m)); simpl.
    + now constructor.
    + apply Permutation_sym, Permutation_cons_app, Permutation_sym, IH.
  - intros m Hm. rewrite !filter_In.
    destruct (namesInclude names (Model.name m)); simpl; intuition congruence.
  - unfold excludeModels, withModels. cbn [models schemaVersion schemaName schemaSource
      enums relations]. do 2 f_equal.
    induction (models ir) as [|m l IH]; simpl; trivial.
    destruct (namesInclude names (Model.name m)) eqn:E; simpl; [|exact IH].
    now rewrite E.
  - unfold filterModels, withModels. cbn [models schemaVersion schemaName schemaSource
      enums relations]. do 2 f_equal.
    induction (models ir) as [|m l IH]; simpl; trivial.
    destruct (namesInclude names (Model.name m)) eqn:E; simpl; [|exact IH].
    rewrite E. now f_equal.
  - repeat split.
Qed.

(* ------------------------------------------------------------------ *)
(** ** The emitter *)

Section EmitFacts.
Variable World : Type.
Variable disk : Disk.t World.
Variable options : EmitterOptions.t.

Lemma accounted_pushWritten p bytes r :
  Permutation (accounted (Emitter.pushWritten p bytes r)) (accounted r ++ [p]).
Proof.
  unfold accounted, Emitter.pushWritten. cbn [EmitResult.written EmitResult.skipped
    EmitResult.failed]. rewrite <- !app_assoc.
  apply Permutation_app_head. cbn [app]. rewrite app_assoc.
  apply Permutation_cons_append.
Qed.

Lemma accounted_pushSkipped p r :
  Permutation (accounted (Emitter.pushSkipped p r)) (accounted r ++ [p]).
Proof.
  unfold accounted, Emitter.pushSkipped. cbn [EmitResult.written EmitResult.skipped
    EmitResult.failed]. rewrite <- !app_assoc.
  do 2 apply Permutation_app_head. cbn [app]. apply Permutation_cons_append.
Qed.

Lemma accounted_pushFailed p message r :
  Permutation (accounted (Emitter.pushFailed p message r)) (accounted r ++ [p]).
Proof.
  unfold accounted, Emitter.pushFailed. cbn [EmitResult.written EmitResult.skipped
    EmitResult.failed]. rewrite map_app, <- !app_assoc. reflexivity.
Qed.

Lemma emitFile_emitted resolvedOutput world result file :
  Emitted (Disk.join disk resolvedOutput (path file)) result
          (snd (Emitter.emitFile disk options resolvedOutput (world, result) file)).
Proof.
  unfold Emitter.emitFile.
  destruct (match EmitterOptions.beforeWrite options with
            | Some hook => hook file
            | None => Ok (Some file)
            end) as [[processedFile|]|message]; cbn [snd]; try constructor.
  destruct (_ && _ && _); cbn [snd]; try constructor.
  destruct (orDefault false (EmitterOptions.dryRun options)); cbn [snd];
    try constructor.
  destruct (Emitter.ensureDir _ _ _ _) as [world1 [u|message]]; cbn [snd];
    try constructor.
  destruct (Disk.writeFile _ _ _ _ _ _) as [world2 [u2|message]]; cbn [snd];
    try constructor.
  destruct (match EmitterOptions.afterWrite options with
            | Some hook => hook processedFile _
            | None => Ok tt
            end); cbn [snd]; constructor.
Qed.

Lemma emitFile_accounted resolvedOutput state file :
  Permutation
    (accounted (snd (Emitter.emitFile disk options resolvedOutput state file)))
    (accounted (snd state) ++ [Disk.join disk resolvedOutput (path file)]).
Proof.
  destruct state as [world result]. cbn [snd].
  destruct (emitFile_emitted resolvedOutput world result file).
  - apply accounted_pushWritten.
  - apply accounted_pushSkipped.
  - apply accounted_pushFailed.
Qed.

Lemma emit_loop_accounted resolvedOutput l state :
  Permutation
    (accounted (snd (fold_left (Emitter.emitFile disk options resolvedOutput) l state)))
    (accounted (snd state)
     ++ map (fun file => Disk.join disk resolvedOutput (path file)) l).
Proof.
  revert state. induction l as [|file l IH]; intros state; cbn [fold_left map].
  - now rewrite app_nil_r.
  - rewrite IH. rewrite emitFile_accounted, <- app_assoc. reflexivity.
Qed.

Lemma writeGeneratedCode_inv code outputDir world world' result :
  Emitter.writeGeneratedCode disk options code outputDir world = (world', Ok result) ->
  exists world1,
    (world', result)
    = fold_left (Emitter.emitFile disk options (Disk.resolve disk outputDir))
                (files code) (world1, EmitResult.make [] [] [] 0).
Proof.
  unfold Emitter.writeGeneratedCode.
  destruct (Emitter.ensureDir _ _ _ _) as [world1 [u|message]]; [|discriminate].
  destruct (fold_left _ _ _) as [world2 result2] eqn:E.
  intros [= <- <-]. now exists world1.
Qed.

(** The skipping test lets everything through while [overwrite] is not
    switched off. *)
Lemma emit_loop_no_skip resolvedOutput l state :
  orDefault true (EmitterOptions.overwrite options) = true ->
  (forall hook file, EmitterOptions.beforeWrite options = Some hook ->
                     hook file <> Ok None) ->
  EmitResult.skipped
    (snd (fold_left (Emitter.emitFile disk options resolvedOutput) l state))
  = EmitResult.skipped (snd state).
Proof.
  intros Hov Hhook. revert state. induction l as [|file l IH]; intros state;
    cbn [fold_left]; trivial.
  rewrite IH. destruct state as [world result]. unfold Emitter.emitFile.
  rewrite Hov. cbn [negb andb].
  destruct (EmitterOptions.beforeWrite options) as [hook|] eqn:Eh.
  - specialize (Hhook hook file eq_refl).
    destruct (hook file) as [[processedFile|]|message]; cbn [snd]; trivial;
      [|contradiction].
    destruct (orDefault false (EmitterOptions.dryRun options)); cbn [snd]; trivial.
    destruct (Emitter.ensureDir _ _ _ _) as [world1 [u|message]]; cbn [snd]; trivial.
    destruct (Disk.writeFile _ _ _ _ _ _) as [world2 [u2|message]]; cbn [snd]; trivial.
    now destruct (match EmitterOptions.afterWrite options with
                  | Some hook => hook processedFile _
                  | None => Ok tt
                  end).
  - destruct (orDefault false (EmitterOptions.dryRun options)); cbn [snd]; trivial.
    destruct (Emitter.ensureDir _ _ _ _) as [world1 [u|message]]; cbn [snd]; trivial.
    destruct (Disk.writeFile _ _ _ _ _ _) as [world2 [u2|message]]; cbn [snd]; trivial.
    now destruct (match EmitterOptions.afterWrite options with
                  | Some hook => hook file _
                  | None => Ok tt
                  end).
Qed.

(** A dry run leaves the disk as it is. *)
Lemma emit_loop_dry resolvedOutput l state :
  orDefault false (EmitterOptions.dryRun options) = true ->
  fst (fold_left (Emitter.emitFile disk options resolvedOutput) l state) = fst state
  /\ (EmitterOptions.beforeWrite options = None ->
      EmitResult.failed
        (snd (fold_left (Emitter.emitFile disk options resolvedOutput) l state))
      = EmitResult.failed (snd state)).
Proof.
  intros Hdry. revert state. induction l as [|file l IH]; intros state;
    cbn [fold_left]; [now split|].
  destruct (IH (Emitter.emitFile disk options resolvedOutput state file)) as [IH1 IH2].
  rewrite IH1. destruct state as [world result]. unfold Emitter.emitFile in *.
  rewrite Hdry in *. split.
  - destruct (match EmitterOptions.beforeWrite options with
              | Some hook => hook file
              | None => Ok (Some file)
              end) as [[processedFile|]|message]; cbn [fst]; trivial.
    now destruct (_ && _ && _).
  - intros Hnone. rewrite (IH2 Hnone). rewrite Hnone.
    now destruct (_ && _ && _).
Qed.
End EmitFacts.

(** X21. When [writeGeneratedCode] returns, every file of the code is
    accounted for once: the paths written, skipped and failed are
    together the joined paths of the files, a file listed twice counted
    twice. *)
Theorem writeGeneratedCode_accounts_for_files :
  forall (World : Type) (disk : Disk.t World) (options : EmitterOptions.t)
         (code : GeneratedCode) (outputDir : string) (world world' : World)
         (result : EmitResult.t),
    Emitter.writeGeneratedCode disk options code outputDir world = (world', Ok result) ->
    Permutation (accounted result)
      (map (fun file => Disk.join disk (Disk.resolve disk outputDir) (path file))
           (files code)).
Proof.
  intros World disk options code outputDir world world' result H.
  apply writeGeneratedCode_inv in H. destruct H as [world1 H].
  pose proof (emit_loop_accounted World disk options (Disk.resolve disk outputDir)
                (files code) (world1, EmitResult.make [] [] [] 0)) as P.
  rewrite <- H in P. exact P.
Qed.

Lemma writeGeneratedCode_accounts_for_files_witness :
  exists world' result,
    Emitter.writeGeneratedCode memoryDisk noEmitterOptions highCode "out" []
    = (world', Ok result)
    /\ Permutation (accounted result)
         (map (fun file => Disk.join memoryDisk (Disk.resolve memoryDisk "out")
                                     (path file))
              (files highCode)).
Proof.
  eexists. eexists. split; [vm_compute; reflexivity|].
  exact (writeGeneratedCode_accounts_for_files _ memoryDisk noEmitterOptions highCode
           "out" [] _ _ eq_refl).
Defined.

(** X22. [writeGeneratedCode] throws in one case only: it had to make the
    output directory (directories are wanted, the run is not dry, the
    directory is not there) and making it threw; the error is that one. A
    file that cannot be written, or a hook that throws, never makes it
    throw. *)
Theorem writeGeneratedCode_throws_iff :
  forall (World : Type) (disk : Disk.t World) (options : EmitterOptions.t)
         (code : GeneratedCode) (outputDir : string) (world : World)
         (message : string),
    snd (Emitter.writeGeneratedCode disk options code outputDir world) = Throw message
    <-> (orDefault true (EmitterOptions.createDirs options) = true
         /\ orDefault false (EmitterOptions.dryRun options) = false
         /\ Disk.existsSync disk world (Disk.resolve disk outputDir) = false
         /\ snd (Disk.mkdir disk world (Disk.resolve disk outputDir)) = Throw message).
Proof.
  intros World disk options code outputDir world message.
  unfold Emitter.writeGeneratedCode, Emitter.ensureDir.
  destruct (orDefault true (EmitterOptions.createDirs options));
    destruct (orDefault false (EmitterOptions.dryRun options));
    destruct (Disk.existsSync disk world (Disk.resolve disk outputDir));
    cbn [andb negb];
    try (destruct (fold_left _ _ _) as [world2 result2]; cbn [snd];
         split; [discriminate | intros [? [? [? ?]]]; discriminate]).
  destruct (Disk.mkdir disk world (Disk.resolve disk outputDir)) as [world1 [u|message']];
    cbn [snd].
  - destruct (fold_left _ _ _) as [world2 result2]; cbn [snd].
    split; [discriminate | intros [_ [_ [_ H]]]; discriminate].
  - split.
    + intros [= ->]. now repeat split.
    + now intros [_ [_ [_ [= ->]]]].
Qed.

(** X23. A dry run never touches the disk and never throws; with no
    [beforeWrite] hook it reports no failure either, although it makes no
    directory and writes no file. *)
Theorem writeGeneratedCode_dry_run :
  forall (World : Type) (disk : Disk.t World) (options : EmitterOptions.t)
         (code : GeneratedCode) (outputDir : string) (world : World),
    orDefault false (EmitterOptions.dryRun options) = true ->
    exists result,
      Emitter.writeGeneratedCode disk options code outputDir world = (world, Ok result)
      /\ (EmitterOptions.beforeWrite options = None ->
          EmitResult.failed result = []).
Proof.
  intros World disk options code outputDir world Hdry.
  unfold Emitter.writeGeneratedCode, Emitter.ensureDir. rewrite Hdry.
  rewrite andb_false_r. cbn [andb].
  destruct (emit_loop_dry World disk options (Disk.resolve disk outputDir) (files code)
              (world, EmitResult.make [] [] [] 0) Hdry) as [H1 H2].
  destruct (fold_left _ _ _) as [world2 result]. cbn [fst snd] in *. subst world2.
  exists result. split; [reflexivity | exact H2].
Qed.

Lemma writeGeneratedCode_dry_run_witness :
  exists result,
    Emitter.writeGeneratedCode memoryDisk dryRunOptions highCode "/readonly/out" []
    = ([], Ok result)
    /\ (EmitterOptions.beforeWrite dryRunOptions = None -> EmitResult.failed result = []).
Proof.
  exact (writeGeneratedCode_dry_run _ memoryDisk dryRunOptions highCode "/readonly/out"
           [] eq_refl).
Defined.

(** With [overwrite] on, no [beforeWrite] hook and no dry run, a round
    of the loop is a round of [writeOver]. *)
Lemma emitFile_writeOver World (disk : Disk.t World) options resolvedOutput state file :
  orDefault true (EmitterOptions.overwrite options) = true ->
  EmitterOptions.beforeWrite options = None ->
  orDefault false (EmitterOptions.dryRun options) = false ->
  Emitter.emitFile disk options resolvedOutput state file
  = Emitter.writeOver disk options resolvedOutput state file.
Proof.
  intros Hov Hbefore Hdry. destruct state as [world result].
  unfold Emitter.emitFile, Emitter.writeOver. rewrite Hov, Hbefore, Hdry.
  reflexivity.
Qed.

Lemma emit_loop_writeOver World (disk : Disk.t World) options resolvedOutput l state :
  orDefault true (EmitterOptions.overwrite options) = true ->
  EmitterOptions.beforeWrite options = None ->
  orDefault false (EmitterOptions.dryRun options) = false ->
  fold_left (Emitter.emitFile disk options resolvedOutput) l state
  = fold_left (Emitter.writeOver disk options resolvedOutput) l state.
Proof.
  intros Hov Hbefore Hdry. revert state.
  induction l as [|file l IH]; intros state; cbn [fold_left]; trivial.
  now rewrite IH, emitFile_writeOver.
Qed.

(** X24. While the [overwrite] option is not switched off (it is on by
    default, and [generate] passes no options), no file is skipped unless
    a [beforeWrite] hook returns null for it.  With no such hook and no
    dry run every round is then a round of [writeOver]: the file is
    written at its path, and listed as written or as failed with the error
    thrown, whether or not something is there and whatever the file itself
    says in [overwrite]. *)
Theorem writeGeneratedCode_never_skips :
  forall (World : Type) (disk : Disk.t World) (options : EmitterOptions.t)
         (code : GeneratedCode) (outputDir : string) (world world' : World)
         (result : EmitResult.t),
    orDefault true (EmitterOptions.overwrite options) = true ->
    (forall hook file, EmitterOptions.beforeWrite options = Some hook ->
                       hook file <> Ok None) ->
    Emitter.writeGeneratedCode disk options code outputDir world = (world', Ok result) ->
    EmitResult.skipped result = []
    /\ (EmitterOptions.beforeWrite options = None ->
        orDefault false (EmitterOptions.dryRun options) = false ->
        (world', result)
        = fold_left (Emitter.writeOver disk options (Disk.resolve disk outputDir))
            (files code)
            (fst (Emitter.ensureDir disk
                    (orDefault true (EmitterOptions.createDirs options))
                    world (Disk.resolve disk outputDir)),
             EmitResult.make [] [] [] 0)).
Proof.
  intros World disk options code outputDir world world' result Hov Hhook H. split.
  - apply writeGeneratedCode_inv in H. destruct H as [world1 H].
    pose proof (emit_loop_no_skip World disk options (Disk.resolve disk outputDir)
                  (files code) (world1, EmitResult.make [] [] [] 0) Hov Hhook) as P.
    rewrite <- H in P. exact P.
  - intros Hbefore Hdry. revert H. unfold Emitter.writeGeneratedCode.
    rewrite Hdry. cbn [negb]. rewrite andb_true_r.
    destruct (Emitter.ensureDir _ _ _ _) as [world1 [u|message]]; [|discriminate].
    rewrite (emit_loop_writeOver World disk options _ _ _ Hov Hbefore Hdry).
    cbn [fst]. destruct (fold_left _ _ _) as [world2 result2].
    now intros [= <- <-].
Qed.

Lemma writeGeneratedCode_never_skips_witness :
  exists world' result,
    Emitter.writeGeneratedCode memoryDisk noEmitterOptions
      (mkCode [mkFile "a.ts" "new" None (Some false) None None] [] None) "out"
      [("out", ""); ("out/a.ts", "old")]
    = (world', Ok result)
    /\ world' = [("out", ""); ("out/a.ts", "old"); ("out/a.ts", "new")]
    /\ EmitResult.written result = ["out/a.ts"]
    /\ EmitResult.skipped result = []
    /\ (world', result)
       = fold_left (Emitter.writeOver memoryDisk noEmitterOptions
                      (Disk.resolve memoryDisk "out"))
           [mkFile "a.ts" "new" None (Some false) None None]
           ([("out", ""); ("out/a.ts", "old")], EmitResult.make [] [] [] 0).
Proof.
  eexists. eexists. split; [vm_compute; reflexivity|].
  split; [reflexivity|]. split; [reflexivity|].
  assert (Hhook : forall hook file,
             EmitterOptions.beforeWrite noEmitterOptions = Some hook ->
             hook file <> Ok None) by (intros hook file H; discriminate).
  destruct (writeGeneratedCode_never_skips _ memoryDisk noEmitterOptions
              (mkCode [mkFile "a.ts" "new" None (Some false) None None] [] None) "out"
              [("out", ""); ("out/a.ts", "old")] _ _ eq_refl Hhook eq_refl)
    as [Hskip Hover].
  split; [exact Hskip | exact (Hover eq_refl eq_refl)].
Defined.
